(** * The edit-history engine of the Dash image processing app

    A shallow embedding of [app.py]: the action stack kept in the hidden
    storage div, the memoized recursive replay [apply_actions_on_image],
    the selection handling inside it, and the request callback
    [update_graph_interactive_image].

    Python values that travel through JSON are modelled by [json]; the
    memoizing cache and [image_string_dict] are finite maps threaded through a
    state-and-exception monad; the helpers of [utils.py] and
    [dash_reusable_components] are parameters of the engine. *)

From Stdlib Require Import ZArith QArith Qcanon List String Ascii Lia Bool DecimalString.
From stdpp Require Import base option list gmap strings countable.

Local Open Scope string_scope.
Local Open Scope list_scope.
Local Open Scope Z_scope.

(** ** Python values exchanged as JSON *)

(** [None], [bool], [int], finite [float], [str], [list] and [dict].  A dict
    keeps its keys in insertion order, as Python 3.7 and [json.loads] do, so it
    is a list of members; a well-formed dict has no repeated key
    ([json_wf]). *)
#[warnings="-register-all"]
Inductive json : Type :=
  | JNull
  | JBool (b : bool)
  | JInt (z : Z)
  | JFloat (q : Qc)
  | JStr (s : string)
  | JArr (items : list json)
  | JObj (members : list (string * json)).

Section json_induction.
Variable P : json → Prop.
Hypothesis Hnull : P JNull.
Hypothesis Hbool : ∀ b, P (JBool b).
Hypothesis Hint : ∀ z, P (JInt z).
Hypothesis Hfloat : ∀ q, P (JFloat q).
Hypothesis Hstr : ∀ s, P (JStr s).
Hypothesis Harr : ∀ items, Forall P items → P (JArr items).
Hypothesis Hobj : ∀ members, Forall (λ kv, P (snd kv)) members → P (JObj members).

Fixpoint json_nested_ind (v : json) : P v :=
  match v with
  | JNull => Hnull
  | JBool b => Hbool b
  | JInt z => Hint z
  | JFloat q => Hfloat q
  | JStr s => Hstr s
  | JArr items =>
      Harr items
        ((fix go (l : list json) : Forall P l :=
            match l with
            | [] => Forall_nil P
            | x :: l' => Forall_cons P x l' (json_nested_ind x) (go l')
            end) items)
  | JObj members =>
      Hobj members
        ((fix go (l : list (string * json)) : Forall (λ kv, P (snd kv)) l :=
            match l with
            | [] => Forall_nil _
            | kv :: l' => Forall_cons _ kv l' (json_nested_ind (snd kv)) (go l')
            end) members)
  end.
End json_induction.

(** Equality of [json] is decidable and [json] is countable, so tuples of
    arguments can key a finite map. *)
Definition json_leaf : Type := (bool + Z) + (Qc + string).

Fixpoint json_to_tree (v : json) : gen_tree json_leaf :=
  match v with
  | JNull => GenNode 0 []
  | JBool b => GenLeaf (inl (inl b))
  | JInt z => GenLeaf (inl (inr z))
  | JFloat q => GenLeaf (inr (inl q))
  | JStr s => GenLeaf (inr (inr s))
  | JArr items => GenNode 1 (map json_to_tree items)
  | JObj members =>
      GenNode 2 (map (λ kv, GenNode 3 [GenLeaf (inr (inr (fst kv))); json_to_tree (snd kv)])
                     members)
  end.

Fixpoint tree_to_json (t : gen_tree json_leaf) : json :=
  match t with
  | GenLeaf (inl (inl b)) => JBool b
  | GenLeaf (inl (inr z)) => JInt z
  | GenLeaf (inr (inl q)) => JFloat q
  | GenLeaf (inr (inr s)) => JStr s
  | GenNode 1 ts => JArr (map tree_to_json ts)
  | GenNode 2 ts =>
      JObj (map (λ t', match t' with
                       | GenNode _ [GenLeaf (inr (inr k)); tv] => (k, tree_to_json tv)
                       | _ => ("", JNull)
                       end) ts)
  | GenNode _ _ => JNull
  end.

Lemma tree_to_json_to_tree (v : json) : tree_to_json (json_to_tree v) = v.
Proof.
  induction v as [| | | | |items IH|members IH] using json_nested_ind; simpl; try reflexivity.
  - f_equal. induction IH as [|x l Hx _ IHl]; simpl; [reflexivity|].
    now rewrite Hx, IHl.
  - f_equal. induction IH as [|[k x] l Hx _ IHl]; simpl; [reflexivity|].
    simpl in Hx. now rewrite Hx, IHl.
Qed.

Global Instance json_to_tree_inj : Inj (=) (=) json_to_tree.
Proof.
  intros x y Heq. rewrite <- (tree_to_json_to_tree x), <- (tree_to_json_to_tree y).
  now rewrite Heq.
Qed.

Global Instance json_eq_dec : EqDecision json.
Proof.
  intros x y. destruct (decide (json_to_tree x = json_to_tree y)) as [Heq|Hne].
  - left. now apply json_to_tree_inj.
  - right. intros ->. now apply Hne.
Defined.

Global Instance json_countable : Countable json :=
  inj_countable' json_to_tree tree_to_json tree_to_json_to_tree.

(** ** Exceptions *)

(** The exceptions the replay can raise: Python's own, and the failures the
    specification names for the image helpers. *)
Inductive exn : Type :=
  | KeyError
  | TypeError
  | ValueError
  | AttributeError
  | RecursionError
  | UnknownOperation
  | InvalidSelection
  | DecodeError.

Inductive result (A : Type) : Type :=
  | Ok (a : A)
  | Raise (e : exn).
Arguments Ok {A} a.
Arguments Raise {A} e.

Global Instance result_ret : MRet result := λ A a, Ok a.
Global Instance result_bind : MBind result :=
  λ A B f m, match m with Ok a => f a | Raise e => Raise e end.

Definition is_ok {A} (r : result A) : bool :=
  match r with Ok _ => true | Raise _ => false end.

(** ** Python operations on JSON values *)

(** Truth value of a Python object, as tested by [if] and [and]. *)
Definition py_truthy (v : json) : bool :=
  match v with
  | JNull => false
  | JBool b => b
  | JInt z => negb (Z.eqb z 0)
  | JFloat q => negb (Z.eqb (Qnum q) 0)
  | JStr s => negb (String.eqb s "")
  | JArr items => match items with [] => false | _ => true end
  | JObj members => match members with [] => false | _ => true end
  end.

(** [d[k]] and [k in d] on the members of a dict. *)
Fixpoint dict_get (k : string) (members : list (string * json)) : option json :=
  match members with
  | [] => None
  | (k', v) :: rest => if String.eqb k k' then Some v else dict_get k rest
  end.

Fixpoint str_contains (sub s : string) : bool :=
  String.prefix sub s ||
  match s with
  | EmptyString => false
  | String _ s' => str_contains sub s'
  end.

(** [k in v] for a [str] key [k]: key membership for a dict, element
    membership for a list, substring for a str, [TypeError] otherwise. *)
Definition py_contains (k : string) (v : json) : result bool :=
  match v with
  | JObj members => Ok (bool_decide (is_Some (dict_get k members)))
  | JArr items => Ok (existsb (λ x, bool_decide (x = JStr k)) items)
  | JStr s => Ok (str_contains k s)
  | _ => Raise TypeError
  end.

(** [v[k]] for a [str] key [k]. *)
Definition py_getitem (v : json) (k : string) : result json :=
  match v with
  | JObj members =>
      match dict_get k members with
      | Some x => Ok x
      | None => Raise KeyError
      end
  | _ => Raise TypeError
  end.

(** Iterating over a value: the items of a list, the characters of a str,
    the keys of a dict. *)
Fixpoint str_chars (s : string) : list json :=
  match s with
  | EmptyString => []
  | String c s' => JStr (String c EmptyString) :: str_chars s'
  end.

Definition py_iter (v : json) : result (list json) :=
  match v with
  | JArr items => Ok items
  | JStr s => Ok (str_chars s)
  | JObj members => Ok (map (λ kv, JStr (fst kv)) members)
  | _ => Raise TypeError
  end.

(** [int(x)] of a float truncates towards zero. *)
Definition trunc (q : Qc) : Z := Z.quot (Qnum q) (Z.pos (Qden q)).

Section py_int.
(** [int(s)] on the text of a str is the builtin's parser, kept abstract. *)
Variable int_of_str : string → option Z.

Definition py_int (v : json) : result Z :=
  match v with
  | JInt z => Ok z
  | JBool b => Ok (if b then 1 else 0)
  | JFloat q => Ok (trunc q)
  | JStr s => match int_of_str s with Some z => Ok z | None => Raise ValueError end
  | _ => Raise TypeError
  end.

(** [a, b = map(int, v)]: [map] is lazy, so [int] runs on each item as the
    unpacking pulls it, and a third item is converted before the unpacking
    reports that there are too many. *)
Definition unpack2_int (v : json) : result (Z * Z) :=
  items ← py_iter v;
  match items with
  | [] => Raise ValueError
  | x :: rest =>
      a ← py_int x;
      match rest with
      | [] => Raise ValueError
      | y :: rest' =>
          b ← py_int y;
          match rest' with
          | [] => Ok (a, b)
          | z :: _ => _ ← py_int z; Raise ValueError
          end
      end
  end.
End py_int.

(** ** JSON text *)

(** [json.dumps] and [json.loads] at the level of tokens: the spelling of
    numbers and the escaping of strings stay inside a token. *)
Inductive token : Type :=
  | TNull
  | TBool (b : bool)
  | TInt (z : Z)
  | TFloat (q : Qc)
  | TStr (s : string)
  | TLBracket
  | TRBracket
  | TLBrace
  | TRBrace
  | TComma
  | TColon.

Fixpoint join_comma (parts : list (list token)) : list token :=
  match parts with
  | [] => []
  | [p] => p
  | p :: rest => p ++ TComma :: join_comma rest
  end.

(** [json.dumps]: the items of a list in order, the members of a dict in
    insertion order (no [sort_keys]). *)
Fixpoint json_dumps (v : json) : list token :=
  match v with
  | JNull => [TNull]
  | JBool b => [TBool b]
  | JInt z => [TInt z]
  | JFloat q => [TFloat q]
  | JStr s => [TStr s]
  | JArr items => TLBracket :: join_comma (map json_dumps items) ++ [TRBracket]
  | JObj members =>
      TLBrace ::
      join_comma (map (λ kv, TStr (fst kv) :: TColon :: json_dumps (snd kv)) members)
      ++ [TRBrace]
  end.

(** [d[k] = v] on the members of a dict: a known key keeps its place. *)
Fixpoint dict_set (k : string) (v : json) (members : list (string * json))
    : list (string * json) :=
  match members with
  | [] => [(k, v)]
  | (k', v') :: rest =>
      if String.eqb k k' then (k, v) :: rest else (k', v') :: dict_set k v rest
  end.

Definition dict_of_pairs (pairs : list (string * json)) : list (string * json) :=
  fold_left (λ d kv, dict_set (fst kv) (snd kv) d) pairs [].

(** A recursive-descent parser; [fuel] bounds the nesting of calls. *)
Fixpoint parse_value (fuel : nat) (ts : list token) : option (json * list token) :=
  match fuel with
  | O => None
  | S fuel' =>
      match ts with
      | TNull :: rest => Some (JNull, rest)
      | TBool b :: rest => Some (JBool b, rest)
      | TInt z :: rest => Some (JInt z, rest)
      | TFloat q :: rest => Some (JFloat q, rest)
      | TStr s :: rest => Some (JStr s, rest)
      | TLBracket :: TRBracket :: rest => Some (JArr [], rest)
      | TLBracket :: rest =>
          match parse_items fuel' rest with
          | Some (items, rest') => Some (JArr items, rest')
          | None => None
          end
      | TLBrace :: TRBrace :: rest => Some (JObj [], rest)
      | TLBrace :: rest =>
          match parse_members fuel' rest with
          | Some (pairs, rest') => Some (JObj (dict_of_pairs pairs), rest')
          | None => None
          end
      | _ => None
      end
  end
with parse_items (fuel : nat) (ts : list token) : option (list json * list token) :=
  match fuel with
  | O => None
  | S fuel' =>
      match parse_value fuel' ts with
      | Some (v, TComma :: rest) =>
          match parse_items fuel' rest with
          | Some (vs, rest') => Some (v :: vs, rest')
          | None => None
          end
      | Some (v, TRBracket :: rest) => Some ([v], rest)
      | _ => None
      end
  end
with parse_members (fuel : nat) (ts : list token)
    : option (list (string * json) * list token) :=
  match fuel with
  | O => None
  | S fuel' =>
      match ts with
      | TStr k :: TColon :: rest =>
          match parse_value fuel' rest with
          | Some (v, TComma :: rest') =>
              match parse_members fuel' rest' with
              | Some (kvs, rest'') => Some ((k, v) :: kvs, rest'')
              | None => None
              end
          | Some (v, TRBrace :: rest') => Some ([(k, v)], rest')
          | _ => None
          end
      | _ => None
      end
  end.

(** [json.loads]: one value and nothing after it, or [ValueError]. *)
Definition json_loads (ts : list token) : result json :=
  match parse_value (2 * length ts + 2) ts with
  | Some (v, []) => Ok v
  | _ => Raise ValueError
  end.

(** A token that can begin a value. *)
Definition opens_value (t : token) : bool :=
  match t with
  | TRBracket | TRBrace | TComma | TColon => false
  | _ => true
  end.

(** A value parses back from its encoding, for any fuel above twice the
    length of the encoding and whatever follows it. *)
Definition parses_back (v : json) : Prop :=
  ∀ fuel rest,
    (2 * length (json_dumps v) < fuel)%nat →
    parse_value fuel (json_dumps v ++ rest) = Some (v, rest).

(** Python's [==] on decoded values: numbers by value ([True == 1 == 1.0]),
    lists item by item, dicts key by key whatever the order of insertion. *)
Definition num_value (v : json) : option Qc :=
  match v with
  | JBool b => Some (Q2Qc (inject_Z (if b then 1 else 0)))
  | JInt z => Some (Q2Qc (inject_Z z))
  | JFloat q => Some q
  | _ => None
  end.

Fixpoint py_eq (a b : json) : bool :=
  match a, b with
  | JNull, JNull => true
  | JStr s, JStr t => String.eqb s t
  | JArr xs, JArr ys =>
      (fix eq_items (xs ys : list json) : bool :=
         match xs, ys with
         | [], [] => true
         | x :: xs', y :: ys' => py_eq x y && eq_items xs' ys'
         | _, _ => false
         end) xs ys
  | JObj ms, JObj ns =>
      Nat.eqb (length ms) (length ns) &&
      forallb (λ kv, match dict_get (fst kv) ns with
                     | Some w => py_eq (snd kv) w
                     | None => false
                     end) ms
  | _, _ =>
      match num_value a, num_value b with
      | Some p, Some q => bool_decide (p = q)
      | _, _ => false
      end
  end.

(** No dict, at any depth, has a repeated key. *)
Fixpoint json_wf (v : json) : bool :=
  match v with
  | JArr items => forallb json_wf items
  | JObj members =>
      bool_decide (NoDup (map fst members)) && forallb (λ kv, json_wf (snd kv)) members
  | _ => true
  end.

(** ** Strings *)

(** [s.split(sep)] for a non-empty [sep]: pieces between the occurrences of
    [sep] found from the left; [skip] counts the characters of a matched
    separator still to pass over. *)
Fixpoint split_from (sep : string) (skip : nat) (piece s : string) : list string :=
  match s with
  | EmptyString => [piece]
  | String c s' =>
      match skip with
      | S n => split_from sep n piece s'
      | O =>
          if String.prefix sep s
          then piece :: split_from sep (String.length sep - 1) "" s'
          else split_from sep 0 (piece ++ String c "")%string s'
      end
  end.

Definition py_split (sep s : string) : list string := split_from sep 0 "" s.

(** [s[:n]] *)
Fixpoint str_take (n : nat) (s : string) : string :=
  match n, s with
  | S n', String c s' => String c (str_take n' s')
  | _, _ => ""
  end.

(** ** Server state *)

(** The arguments of a memoized call: [session_id], [action_stack],
    [filename], [image_signature].  The cache of [flask_caching] stores a
    pickled copy of the returned image under them. *)
Abbreviation Key := (string * list json * option string * option string)%type.

Record state (Image : Type) : Type := State {
  cache : gmap Key Image;
  image_string_dict : gmap string string
}.
Arguments State {Image} cache image_string_dict.
Arguments cache {Image} s.
Arguments image_string_dict {Image} s.

Definition cache_set {Image} (key : Key) (rv : Image) (st : state Image) : state Image :=
  State (<[key := rv]> (cache st)) (image_string_dict st).

Definition cache_clear {Image} (st : state Image) : state Image :=
  State ∅ (image_string_dict st).

Definition cache_evict {Image} (key : Key) (st : state Image) : state Image :=
  State (delete key (cache st)) (image_string_dict st).

(** Computations over the server state that may raise. *)
Definition M (Image A : Type) : Type := state Image → state Image * result A.

Global Instance M_ret {Image} : MRet (M Image) := λ A a st, (st, Ok a).
Global Instance M_bind {Image} : MBind (M Image) :=
  λ A B f m st,
    match m st with
    | (st', Ok a) => f a st'
    | (st', Raise e) => (st', Raise e)
    end.

Definition lift {Image A} (r : result A) : M Image A := λ st, (st, r).

(** [image_string_dict[session_id] = string] *)
Definition image_string_dict_set {Image} (session_id string : string) : M Image unit :=
  λ st, (State (cache st) (<[session_id := string]> (image_string_dict st)), Ok tt).

(** [@cache.memoize()]: look the arguments up; on a miss run the function,
    store what it returns and return it.  Nothing is stored when the function
    raises.  A [set] here adds one entry and drops none; the file-system
    cache the app configures also lets entries go, by time-out and by pruning
    when it holds too many, which [cache_evict] and [cache_clear] stand for
    in the statements about eviction. *)
Definition memoize {Image} (key : Key) (body : M Image Image) : M Image Image :=
  λ st,
    match cache st !! key with
    | Some rv => (st, Ok rv)
    | None =>
        match body st with
        | (st', Ok rv) => (cache_set key rv st', Ok rv)
        | (st', Raise e) => (st', Raise e)
        end
    end.

(** A selection zone handed to the image helpers: a box
    [(left, upper, right, lower)] or a lasso mask. *)
Inductive zone (Mask : Type) : Type :=
  | Box (left upper right lower : Z)
  | LassoMask (mask : Mask).
Arguments Box {Mask} left upper right lower.
Arguments LassoMask {Mask} mask.

Section Engine.
Context {Image Mask : Type}.

(** What [app.py] imports: [im_pil.size], [drc.b64_to_pil], and from
    [utils] the lasso rasterizer and the two image helpers.  The helpers
    change the image in place; here they return the changed image. *)
Variable size : Image → Z * Z.
Variable b64_to_pil : string → result Image.
Variable generate_lasso_mask : Image → json → result Mask.
Variable apply_filters : Image → zone Mask → json → string → result Image.
Variable apply_enhancements : Image → zone Mask → json → json → string → result Image.
Variable int_of_str : string → option Z.

(** [add_action_to_stack]: the new action is a dict with the keys
    [operation], [type], [selectedData], in this order, appended to the
    list. *)
Definition add_action_to_stack
    (action_stack : list json) (operation : json) (type : string) (selectedData : json)
    : list json :=
  let new_action :=
    JObj [("operation", operation); ("type", JStr type); ("selectedData", selectedData)] in
  action_stack ++ [new_action].

(** The same call on whatever value is passed for the stack: the callback
    passes what [json.loads] returned, and only a list has [append]. *)
Definition add_action_to_stack_py
    (action_stack : json) (operation : json) (type : string) (selectedData : json)
    : result json :=
  match action_stack with
  | JArr l => Ok (JArr (add_action_to_stack l operation type selectedData))
  | _ => Raise AttributeError
  end.

(** Lines 232-249 of [apply_actions_on_image]: the selection mode and zone
    of an action on an image. *)
Definition selection_of (im_pil : Image) (selectedData : json)
    : result (string * zone Mask) :=
  let im_size := size im_pil in
  has_lasso ← (if py_truthy selectedData
               then py_contains "lassoPoints" selectedData else Ok false);
  if has_lasso : bool then
    selection_zone ← generate_lasso_mask im_pil selectedData;
    Ok ("lasso", LassoMask selection_zone)
  else
    has_range ← (if py_truthy selectedData
                 then py_contains "range" selectedData else Ok false);
    if has_range : bool then
      range_y ← py_getitem selectedData "range" ≫= (λ r, py_getitem r "y");
      '(lower, upper) ← unpack2_int int_of_str range_y;
      range_x ← py_getitem selectedData "range" ≫= (λ r, py_getitem r "x");
      '(left_, right_) ← unpack2_int int_of_str range_x;
      let height := snd im_size in
      let upper := height - upper in
      let lower := height - lower in
      Ok ("select", Box left_ upper right_ lower)
    else
      Ok ("select", Box 0 0 (fst im_size) (snd im_size)).

(** Lines 225-271: one action applied to the image of the previous ones. *)
Definition apply_last_action (last_action : json) (im_pil : Image) : result Image :=
  operation ← py_getitem last_action "operation";
  selectedData ← py_getitem last_action "selectedData";
  type ← py_getitem last_action "type";
  '(selection_mode, selection_zone) ← selection_of im_pil selectedData;
  if bool_decide (type = JStr "filter") then
    apply_filters im_pil selection_zone operation selection_mode
  else if bool_decide (type = JStr "enhance") then
    enhancement ← py_getitem operation "enhancement";
    factor ← py_getitem operation "enhancement_factor";
    apply_enhancements im_pil selection_zone enhancement factor selection_mode
  else
    Ok im_pil.

(** The base case: the session's image string, decoded. *)
Definition original_image (session_id : string) : M Image Image :=
  λ st,
    match image_string_dict st !! session_id with
    | Some string => (st, b64_to_pil string)
    | None => (st, Raise KeyError)
    end.

(** [apply_actions_on_image] pops the last action off a copy of the stack
    and recurses on what is left, every call going through [memoize].  The
    recursion below runs on the actions still to pop, last one first, as
    deep as the stack is long; [replay_popped_within] below is the same
    recursion under the interpreter's bound on nested calls. *)
Fixpoint replay_popped
    (session_id : string) (to_pop : list json)
    (filename image_signature : option string) : M Image Image :=
  memoize (session_id, reverse to_pop, filename, image_signature)
    match to_pop with
    | [] => original_image session_id
    | last_action :: action_stack =>
        im_pil ← replay_popped session_id action_stack filename image_signature;
        lift (apply_last_action last_action im_pil)
    end.

Definition apply_actions_on_image
    (session_id : string) (action_stack : list json)
    (filename image_signature : option string) : M Image Image :=
  replay_popped session_id (reverse action_stack) filename image_signature.

(** The interpreter bounds the depth of nested calls
    ([sys.getrecursionlimit], 1000 frames unless it is changed), and every
    call of the memoized function runs inside the call that made it.
    [limit] is the number of nested calls of [apply_actions_on_image] that
    bound leaves room for: a call made when no room is left raises
    [RecursionError], before the cache is looked up, and the exception
    passes through the calls above it, which store nothing. *)
Fixpoint replay_popped_within
    (limit : nat) (session_id : string) (to_pop : list json)
    (filename image_signature : option string) : M Image Image :=
  match limit with
  | O => lift (Raise RecursionError)
  | S limit' =>
      memoize (session_id, reverse to_pop, filename, image_signature)
        match to_pop with
        | [] => original_image session_id
        | last_action :: action_stack =>
            im_pil ← replay_popped_within limit' session_id action_stack
                       filename image_signature;
            lift (apply_last_action last_action im_pil)
        end
  end.

Definition apply_actions_on_image_within
    (limit : nat) (session_id : string) (action_stack : list json)
    (filename image_signature : option string) : M Image Image :=
  replay_popped_within limit session_id (reverse action_stack) filename image_signature.

(** The buffer of a stack as the specification defines it: the session's
    original image with the actions applied in order, no cache involved. *)
Definition resolved_buffer
    (strings : gmap string string) (session_id : string) (action_stack : list json)
    : result Image :=
  fold_left (λ buf action, im_pil ← buf; apply_last_action action im_pil) action_stack
    match strings !! session_id with
    | Some string => b64_to_pil string
    | None => Raise KeyError
    end.

(** Every cached image is the buffer of its stack for the session's current
    image string. *)
Definition cache_ok (st : state Image) : Prop :=
  ∀ session_id action_stack filename image_signature rv,
    cache st !! (session_id, action_stack, filename, image_signature) = Some rv →
    resolved_buffer (image_string_dict st) session_id action_stack = Ok rv.

(** Every cached image of a stack that ends in [last_action] was made by
    [last_action] from the image cached for the stack before it. *)
Definition cache_chained (st : state Image) : Prop :=
  ∀ session_id action_stack last_action filename image_signature rv,
    cache st !! (session_id, action_stack ++ [last_action], filename, image_signature)
    = Some rv →
    ∃ im_pil,
      cache st !! (session_id, action_stack, filename, image_signature) = Some im_pil
      ∧ apply_last_action last_action im_pil = Ok rv.

(** What the callback hands back: the image shown (with the display options
    passed on to [drc.InteractiveImagePIL]) and the children of the storage
    div. *)
Record response : Type := Response {
  image : Image;
  enc_format : json;
  dragmode : json;
  storage : option string * option string * list token
}.

(** [update_graph_interactive_image], up to the values it hands to
    [drc.InteractiveImagePIL] and to the storage div.  [storage] is
    [(filename, image_signature, action_stack)], the stack as JSON text.
    The text written by an earlier call decodes to a list.  On another JSON
    value [append] raises [AttributeError] when an operation is selected;
    when none is, the memoized call fails in [len] ([TypeError]: [None], a
    bool, a number) or in [pop] ([AttributeError] for a str, [TypeError] for
    a dict).  An empty str or dict has length 0 and Python answers the
    request with the session's image, cached under a key no list has: the
    cache modelled here has no such key, and [TypeError] stands for that
    case. *)
Definition update_graph_interactive_image
    (content : option string) (n_clicks : json) (selectedData : json)
    (filters enhance enhancement_factor : json) (new_filename : option string)
    (dragmode enc_format : json)
    (storage : option string * option string * list token)
    (session_id : string) : M Image response :=
  let '(filename, image_signature, action_stack) := storage in
  action_stack ← lift (json_loads action_stack);
  let file_changed :=
    match new_filename with
    | Some name => negb (String.eqb name "") && negb (bool_decide (new_filename = filename))
    | None => false
    end in
  '(filename, image_signature, action_stack, im_pil) ←
    (if file_changed then
       let filename := new_filename in
       content ← lift (match content with Some c => Ok c | None => Raise AttributeError end);
       let string := List.last (py_split ";base64," content) "" in
       im_pil ← lift (b64_to_pil string);
       let image_signature := Some (str_take 200 string) in
       _ ← image_string_dict_set session_id string;
       let action_stack : list json := [] in
       mret (filename, image_signature, action_stack, im_pil)
     else
       action_stack ←
         lift (if py_truthy filters
               then add_action_to_stack_py action_stack filters "filter" selectedData
               else Ok action_stack);
       action_stack ←
         lift (if py_truthy enhance
               then
                 let operation :=
                   JObj [("enhancement", enhance);
                         ("enhancement_factor", enhancement_factor)] in
                 add_action_to_stack_py action_stack operation "enhance" selectedData
               else Ok action_stack);
       action_stack ←
         lift (match action_stack with
               | JArr l => Ok l
               | JStr (String _ _) => Raise AttributeError
               | _ => Raise TypeError
               end);
       im_pil ← apply_actions_on_image session_id action_stack filename image_signature;
       mret (filename, image_signature, action_stack, im_pil));
  mret (Response im_pil enc_format dragmode
          (filename, image_signature, json_dumps (JArr action_stack))).

End Engine.

Arguments response Image : clear implicits.
Arguments Response {Image} image enc_format dragmode storage.
Arguments image {Image} r.
Arguments enc_format {Image} r.
Arguments dragmode {Image} r.
Arguments storage {Image} r.


(** ** The operation adapter *)

Module Adapter.

(** A pixel buffer: rows of pixel values, row 0 on top.  A mask has one
    boolean per pixel. *)
Abbreviation buffer := (list (list Z)).
Abbreviation mask := (list (list bool)).

Definition size (b : buffer) : Z * Z :=
  (Z.of_nat (length (hd [] b)), Z.of_nat (length b)).

Definition pixel (b : buffer) (x y : nat) : option Z := b !! y ≫= (λ row, row !! x).

(** Whether pixel [(x, y)] lies in a region: a box holds its left and upper
    edge and not its right and lower one. *)
Definition in_zone (region : zone mask) (x y : nat) : bool :=
  match region with
  | Box l u r lo =>
      ((l <=? Z.of_nat x) && (Z.of_nat x <? r) && (u <=? Z.of_nat y) && (Z.of_nat y <? lo))%Z
  | LassoMask m => default false (m !! y ≫= (λ row, row !! x))
  end.

(** The two variants of an operation. *)
Inductive operation : Type :=
  | Filter (name : json)
  | Enhance (name factor : json).

Section apply.
(** The pixel algorithms are opaque: [transform op b x y] is the value the
    operation gives to pixel [(x, y)] of [b], and [supported] tells the
    names that exist. *)
Variable transform : operation → buffer → nat → nat → Z.
Variable supported : operation → bool.

(** Modelled from the spec: the image helpers of [utils.py]
    ([apply_filters], [apply_enhancements]) are not among the sources.
    Section 4.3: [apply(buffer, region, operation)] returns a buffer
    identical to the input outside [region] and transformed inside [region]
    according to [operation]; section 6: unknown names fail with
    [UnknownOperation]. *)
Definition apply (b : buffer) (region : zone mask) (op : operation) : result buffer :=
  if supported op
  then Ok (imap (λ y row,
                  imap (λ x p, if in_zone region x y then transform op b x y else p) row) b)
  else Raise UnknownOperation.

Definition apply_filters (image : buffer) (zone : zone mask) (filter : json) (mode : string)
    : result buffer :=
  apply image zone (Filter filter).

Definition apply_enhancements
    (image : buffer) (zone : zone mask) (enhancement enhancement_factor : json)
    (mode : string) : result buffer :=
  apply image zone (Enhance enhancement enhancement_factor).
End apply.

(** Modelled from the spec: [utils.generate_lasso_mask] is not among the
    sources.  Section 4.2: the polygon of the path is rasterized with the
    even-odd rule, fewer than 3 vertices give an empty mask, and a field that
    is not a number fails with [InvalidSelection]. *)
Definition coordinate (v : json) : result Qc :=
  match num_value v with
  | Some q => Ok q
  | None => Raise InvalidSelection
  end.

Fixpoint coordinates (vs : list json) : result (list Qc) :=
  match vs with
  | [] => Ok []
  | v :: vs' => q ← coordinate v; qs ← coordinates vs'; Ok (q :: qs)
  end.

(** The ray from [(px, py)] to the right crosses the edge from [a] to [b]. *)
Definition crosses (px py : Qc) (a b : Qc * Qc) : bool :=
  let '(x1, y1) := a in
  let '(x2, y2) := b in
  if xorb (bool_decide (py < y1)%Qc) (bool_decide (py < y2)%Qc)
  then bool_decide (px < (x2 - x1) * (py - y1) / (y2 - y1) + x1)%Qc
  else false.

Definition inside (polygon : list (Qc * Qc)) (px py : Qc) : bool :=
  match polygon with
  | first :: _ :: _ :: _ =>
      let edges := zip polygon (tl polygon ++ [first]) in
      Nat.odd (length (filter (λ e, crosses px py (fst e) (snd e) = true) edges))
  | _ => false
  end.

Definition generate_lasso_mask (image : buffer) (selectedData : json) : result mask :=
  points ← py_getitem selectedData "lassoPoints";
  xs ← py_getitem points "x";
  xs ← py_iter xs;
  xs ← coordinates xs;
  ys ← py_getitem points "y";
  ys ← py_iter ys;
  ys ← coordinates ys;
  let polygon := zip xs ys in
  Ok (imap (λ y row,
             imap (λ x _, inside polygon (Q2Qc (inject_Z (Z.of_nat x)))
                                         (Q2Qc (inject_Z (Z.of_nat y)))) row) image).

End Adapter.

(** ** The stack as a list object *)

(** [apply_actions_on_image] once more, with the Python list objects kept in
    a heap and passed by reference, to follow [deepcopy] and [pop].  The
    actions inside a list are never written to, so they stay values. *)
Section Aliasing.
Context {Image Mask : Type}.
Variable size : Image → Z * Z.
Variable b64_to_pil : string → result Image.
Variable generate_lasso_mask : Image → json → result Mask.
Variable apply_filters : Image → zone Mask → json → string → result Image.
Variable apply_enhancements : Image → zone Mask → json → json → string → result Image.
Variable int_of_str : string → option Z.

(** [deepcopy(l)]: a new list object with the same actions. *)
Definition deepcopy (l : positive) (lists : gmap positive (list json))
    : option (positive * gmap positive (list json)) :=
  items ← lists !! l;
  let copy := fresh (dom lists) in
  Some (copy, <[copy := items]> lists).

(** [l.pop()]: takes the last action off the list object. *)
Definition list_pop (l : positive) (lists : gmap positive (list json))
    : option (json * gmap positive (list json)) :=
  items ← lists !! l;
  last_action ← list.last items;
  Some (last_action, <[l := removelast items]> lists).

(** The outcome is [None] when [fuel] runs out or a reference dangles. *)
Fixpoint apply_actions_on_image_ref
    (fuel : nat) (session_id : string) (action_stack : positive)
    (filename image_signature : option string)
    (lists : gmap positive (list json)) (st : state Image)
    : option (gmap positive (list json) * state Image * result Image) :=
  match fuel with
  | O => None
  | S fuel' =>
      args ← lists !! action_stack;
      let key := (session_id, args, filename, image_signature) in
      match cache st !! key with
      | Some rv => Some (lists, st, Ok rv)
      | None =>
          '(action_stack, lists) ← deepcopy action_stack lists;
          items ← lists !! action_stack;
          if bool_decide (length items = 0%nat) then
            let '(st, r) := original_image b64_to_pil session_id st in
            match r with
            | Ok rv => Some (lists, cache_set key rv st, Ok rv)
            | Raise e => Some (lists, st, Raise e)
            end
          else
            '(last_action, lists) ← list_pop action_stack lists;
            '(lists, st, r) ← apply_actions_on_image_ref fuel' session_id action_stack
                                filename image_signature lists st;
            match r with
            | Ok im_pil =>
                match apply_last_action size generate_lasso_mask apply_filters
                        apply_enhancements int_of_str last_action im_pil with
                | Ok rv => Some (lists, cache_set key rv st, Ok rv)
                | Raise e => Some (lists, st, Raise e)
                end
            | Raise e => Some (lists, st, Raise e)
            end
      end
  end.

End Aliasing.

(** ** Requests running side by side *)

(** Several workers answer the same request on one shared cache.  A worker is
    followed from one cache operation to the next: [memoize] is a [get], the
    function body, then a [set], with no lock around them. *)
Inductive worker (Image : Type) : Type :=
  | Lookup (i : nat)               (* about to call the memoized function on the first [i] actions *)
  | Return (i : nat) (rv : Image)  (* that call has returned [rv] to the call on [i + 1] actions *)
  | Store (i : nat) (rv : Image)   (* the body for [i] actions has produced [rv], not yet stored *)
  | Failed (e : exn).
Arguments Lookup {Image} i.
Arguments Return {Image} i rv.
Arguments Store {Image} i rv.
Arguments Failed {Image} e.

Record world (Image : Type) : Type := World {
  shared : state Image;
  workers : list (worker Image);
  body_runs : nat   (* how many times an action was applied to an image *)
}.
Arguments World {Image} shared workers body_runs.
Arguments shared {Image} w.
Arguments workers {Image} w.
Arguments body_runs {Image} w.

Section Workers.
Context {Image Mask : Type}.
Variable size : Image → Z * Z.
Variable b64_to_pil : string → result Image.
Variable generate_lasso_mask : Image → json → result Mask.
Variable apply_filters : Image → zone Mask → json → string → result Image.
Variable apply_enhancements : Image → zone Mask → json → json → string → result Image.
Variable int_of_str : string → option Z.

(** The request all workers answer. *)
Variable session_id : string.
Variable action_stack : list json.
Variable filename image_signature : option string.

Definition prefix_key (i : nat) : Key :=
  (session_id, take i action_stack, filename, image_signature).

(** One step of a worker: its next state, the shared state, and whether the
    step applied an action.  A worker that holds the image of the whole stack,
    or has failed, is finished. *)
Definition worker_step (t : worker Image) (st : state Image)
    : option (worker Image * state Image * nat) :=
  match t with
  | Lookup i =>
      match cache st !! prefix_key i with
      | Some rv => Some (Return i rv, st, O)
      | None =>
          match i with
          | O =>
              match original_image b64_to_pil session_id st with
              | (st', Ok rv) => Some (Store O rv, st', O)
              | (st', Raise e) => Some (Failed e, st', O)
              end
          | S j => Some (Lookup j, st, O)
          end
      end
  | Return i im_pil =>
      match action_stack !! i with
      | Some last_action =>
          match apply_last_action size generate_lasso_mask apply_filters apply_enhancements
                  int_of_str last_action im_pil with
          | Ok rv => Some (Store (S i) rv, st, 1%nat)
          | Raise e => Some (Failed e, st, 1%nat)
          end
      | None => None
      end
  | Store i rv => Some (Return i rv, cache_set (prefix_key i) rv st, O)
  | Failed e => None
  end.

(** Worker [n] takes a step; nothing happens if it is finished or absent. *)
Definition world_step (n : nat) (w : world Image) : world Image :=
  match workers w !! n with
  | Some t =>
      match worker_step t (shared w) with
      | Some (t', st', ran) => World st' (<[n := t']> (workers w)) (body_runs w + ran)
      | None => w
      end
  | None => w
  end.

(** A schedule names the worker that moves at each step. *)
Definition run (schedule : list nat) (w : world Image) : world Image :=
  fold_left (λ w n, world_step n w) schedule w.

(** [n] workers that have just received the request. *)
Definition start (n : nat) (st : state Image) : world Image :=
  World st (replicate n (Lookup (length action_stack))) O.

(** A worker alone: [k] steps in a row. *)
Fixpoint alone (k : nat) (t : worker Image) (st : state Image) (ran : nat)
    : worker Image * state Image * nat :=
  match k with
  | O => (t, st, ran)
  | S k' =>
      match worker_step t st with
      | Some (t', st', r) => alone k' t' st' (ran + r)
      | None => (t, st, ran)
      end
  end.

(** How many actions a worker may still have to apply. *)
Definition pending (t : worker Image) : nat :=
  match t with
  | Lookup _ => length action_stack
  | Return i _ | Store i _ => length action_stack - i
  | Failed _ => O
  end.

(** What a request alone obtains for the first [i] actions in [st0], the
    state the workers start from. *)
Definition lone_result (st0 : state Image) (i : nat) : result Image :=
  (apply_actions_on_image size b64_to_pil generate_lasso_mask apply_filters
     apply_enhancements int_of_str session_id (take i action_stack) filename
     image_signature st0).2.

(** No prefix longer than the first [i] actions was cached in [st0]. *)
Definition missed_above (st0 : state Image) (i : nat) : Prop :=
  ∀ j, (i < j ≤ length action_stack)%nat → cache st0 !! prefix_key j = None.

(** A worker went down past the prefixes that were not cached at the start,
    and the image it holds is the one a request alone obtains for the prefix
    it stands at. *)
Definition worker_ok (st0 : state Image) (t : worker Image) : Prop :=
  match t with
  | Lookup i => (i ≤ length action_stack)%nat ∧ missed_above st0 i
  | Return i rv | Store i rv =>
      (i ≤ length action_stack)%nat ∧ missed_above st0 i ∧ lone_result st0 i = Ok rv
  | Failed e => lone_result st0 (length action_stack) = Raise e
  end.

(** The shared cache holds, for each prefix, nothing unless it was there at
    the start or a worker stored it, and then the image a request alone
    obtains. *)
Definition shared_ok (st0 st : state Image) : Prop :=
  image_string_dict st = image_string_dict st0
  ∧ ∀ i, (i ≤ length action_stack)%nat →
         match cache st !! prefix_key i with
         | Some rv => lone_result st0 i = Ok rv
         | None => cache st0 !! prefix_key i = None
         end.

(** What holds of the world at every moment of every schedule of [n]
    workers started in [st0]. *)
Definition world_ok (st0 : state Image) (n : nat) (w : world Image) : Prop :=
  shared_ok st0 (shared w)
  ∧ Forall (worker_ok st0) (workers w)
  ∧ (body_runs w + sum_list (pending <$> workers w) ≤ n * length action_stack)%nat.

(** The action that worker [m] applies at its next step, if that step
    applies one, by its index in the stack. *)
Definition applies (m : nat) (w : world Image) : option nat :=
  match workers w !! m with
  | Some (Return i _) =>
      match action_stack !! i with
      | Some _ => Some i
      | None => None
      end
  | _ => None
  end.

(** The applications along a schedule, in order: which worker applied which
    action. *)
Fixpoint applications (schedule : list nat) (w : world Image) : list (nat * nat) :=
  match schedule with
  | [] => []
  | m :: schedule' =>
      match applies m w with
      | Some i => [(m, i)]
      | None => []
      end ++ applications schedule' (world_step m w)
  end.

(** A worker has applied only actions before the prefix it stands at, and no
    action twice. *)
Definition applied_before (t : worker Image) (i : nat) : Prop :=
  match t with
  | Lookup _ => False
  | Return j _ | Store j _ => (i < j)%nat
  | Failed _ => True
  end.

Definition log_ok (w : world Image) (log : list (nat * nat)) : Prop :=
  NoDup log
  ∧ ∀ m i, (m, i) ∈ log → ∃ t, workers w !! m = Some t ∧ applied_before t i.

End Workers.

(** ** A concrete set of collaborators *)

(** Small image helpers used to run the engine on concrete requests: an image
    string spells one pixel per character, rows separated by [/]; one filter,
    ["invert"], and one enhancement, ["brightness"]. *)
Module Fixture.
Import Adapter.

Definition b64_to_pil (s : string) : result buffer :=
  if bool_decide (s = "")
  then Raise DecodeError
  else Ok (map (λ row, map (λ c, Z.of_nat (nat_of_ascii c)) (list_ascii_of_string row))
               (py_split "/" s)).

Definition transform (op : operation) (b : buffer) (x y : nat) : Z :=
  let p := default 0 (pixel b x y) in
  match op with
  | Filter _ => 255 - p
  | Enhance _ factor => trunc (default 1%Qc (num_value factor) * Q2Qc (inject_Z p))
  end.

Definition supported (op : operation) : bool :=
  match op with
  | Filter name => bool_decide (name = JStr "invert")
  | Enhance name factor =>
      bool_decide (name = JStr "brightness") && bool_decide (is_Some (num_value factor))
  end.

(** [int(s)] on a str, for ASCII text: white space around the number is
    dropped, one sign may come first, and the digits, of which there is at
    least one, may be separated by single underscores. *)
Definition is_space (c : ascii) : bool :=
  let n := nat_of_ascii c in
  (n =? 32)%nat || ((9 <=? n)%nat && (n <=? 13)%nat) || ((28 <=? n)%nat && (n <=? 31)%nat).

Definition is_digit (c : ascii) : bool :=
  let n := nat_of_ascii c in (48 <=? n)%nat && (n <=? 57)%nat.

Fixpoint lstrip (s : string) : string :=
  match s with
  | String c s' => if is_space c then lstrip s' else s
  | EmptyString => EmptyString
  end.

Definition str_reverse (s : string) : string :=
  string_of_list_ascii (List.rev (list_ascii_of_string s)).

Definition strip (s : string) : string :=
  str_reverse (lstrip (str_reverse (lstrip s))).

Fixpoint digits_value (acc : Z) (s : string) : option Z :=
  match s with
  | EmptyString => Some acc
  | String c s' =>
      if is_digit c then digits_value (10 * acc + (Z.of_nat (nat_of_ascii c) - 48)) s'
      else if Ascii.eqb c "_"%char then
        match s' with
        | String d _ => if is_digit d then digits_value acc s' else None
        | EmptyString => None
        end
      else None
  end.

Definition unsigned_value (s : string) : option Z :=
  match s with
  | String c _ => if is_digit c then digits_value 0 s else None
  | EmptyString => None
  end.

Definition int_of_str (s : string) : option Z :=
  match strip s with
  | String c rest =>
      if Ascii.eqb c "-"%char then Z.opp <$> unsigned_value rest
      else if Ascii.eqb c "+"%char then unsigned_value rest
      else unsigned_value (String c rest)
  | EmptyString => None
  end.

Definition selection_of : buffer → json → result (string * zone mask) :=
  selection_of size generate_lasso_mask int_of_str.

Definition apply_last_action : json → buffer → result buffer :=
  apply_last_action size generate_lasso_mask
    (apply_filters transform supported) (apply_enhancements transform supported) int_of_str.

Definition apply_actions_on_image
    : string → list json → option string → option string → M buffer buffer :=
  apply_actions_on_image size b64_to_pil generate_lasso_mask
    (apply_filters transform supported) (apply_enhancements transform supported) int_of_str.

Definition update_graph_interactive_image :=
  update_graph_interactive_image size b64_to_pil generate_lasso_mask
    (apply_filters transform supported) (apply_enhancements transform supported) int_of_str.

Definition apply_actions_on_image_within
    : nat → string → list json → option string → option string → M buffer buffer :=
  apply_actions_on_image_within size b64_to_pil generate_lasso_mask
    (apply_filters transform supported) (apply_enhancements transform supported) int_of_str.

(** The component of the image: the image in the format asked for, with the
    drag mode.  The formats written here are [png] and [jpeg]; another one is
    refused the way a table of writers refuses a missing name. *)
Definition InteractiveImagePIL (image : buffer) (enc_format dragmode : json)
    : result (string * buffer * json) :=
  match enc_format with
  | JStr format =>
      if bool_decide (format = "png") || bool_decide (format = "jpeg")
      then Ok (format, image, dragmode)
      else Raise KeyError
  | _ => Raise AttributeError
  end.

(** A fresh server with one session whose image is 2 pixels wide and 2 high. *)
Definition server : state buffer := State ∅ {[ "s1" := "AB/CD" ]}.

Definition invert_all : json :=
  JObj [("operation", JStr "invert"); ("type", JStr "filter"); ("selectedData", JNull)].

(** The spec's fixture for the rectangle flip: a 100 x 100 image. *)
Definition blank : buffer := replicate 100 (replicate 100 0).

Definition rectangle (x0 x1 y0 y1 : Z) : json :=
  JObj [("range", JObj [("x", JArr [JInt x0; JInt x1]); ("y", JArr [JInt y0; JInt y1])])].

(** The same action twice, its selection spelled with the keys of the range
    in one order and in the other. *)
Definition invert_box_xy : json :=
  JObj [("operation", JStr "invert"); ("type", JStr "filter");
        ("selectedData",
         JObj [("range", JObj [("x", JArr [JInt 0; JInt 1]); ("y", JArr [JInt 0; JInt 1])])])].

Definition invert_box_yx : json :=
  JObj [("operation", JStr "invert"); ("type", JStr "filter");
        ("selectedData",
         JObj [("range", JObj [("y", JArr [JInt 0; JInt 1]); ("x", JArr [JInt 0; JInt 1])])])].

Definition apply_actions_on_image_ref :=
  apply_actions_on_image_ref size b64_to_pil generate_lasso_mask
    (apply_filters transform supported) (apply_enhancements transform supported) int_of_str.

(** Two workers answering the request to invert the image of session [s1]. *)
Definition run : list nat → world buffer → world buffer :=
  run size b64_to_pil generate_lasso_mask
    (apply_filters transform supported) (apply_enhancements transform supported) int_of_str
    "s1" [invert_all] None None.

Definition two_workers : world buffer := start [invert_all] 2 server.

End Fixture.


(** ** The other callbacks *)

(** [v[k] = x] for a [str] key [k]: only a dict takes it. *)
Definition py_setitem (v : json) (k : string) (x : json) : result json :=
  match v with
  | JObj members => Ok (JObj (dict_set k x members))
  | _ => Raise TypeError
  end.

(** [update_selection_mode]: the figure comes back with
    [figure['layout']['dragmode']] set, or as it is when it is falsy.  The
    assignment changes the layout dict in place, inside the figure. *)
Definition update_selection_mode (selection_mode figure : json) : result json :=
  if py_truthy figure then
    layout ← py_getitem figure "layout";
    layout ← py_setitem layout "dragmode" selection_mode;
    py_setitem figure "layout" layout
  else Ok figure.

(** [show_slider_enhancement_factor]: the style of the slider's div, shown
    when an enhancement is selected. *)
Definition show_slider_enhancement_factor (value style : json) : result json :=
  if py_truthy value
  then py_setitem style "display" (JStr "block")
  else py_setitem style "display" (JStr "none").

(** [reset_dropdown_filters] and [reset_dropdown_enhance]. *)
Definition reset_dropdown_filters (n_clicks : json) : json := JNull.
Definition reset_dropdown_enhance (n_clicks : json) : json := JNull.

(** [serve_layout], for what it does to the server: [session_id] is the
    string of the fresh uuid and [placeholder] the encoding of
    [images/default.jpg]; the layout it returns carries [session_id]. *)
Definition serve_layout {Image} (session_id placeholder : string) : M Image string :=
  _ ← image_string_dict_set session_id placeholder;
  mret session_id.

(** The test of [update_graph_interactive_image] on the filename, and the
    actions a request adds to the stack, named for the statements below. *)
Definition file_changed (new_filename filename : option string) : bool :=
  match new_filename with
  | Some name => negb (String.eqb name "") && negb (bool_decide (new_filename = filename))
  | None => false
  end.

Definition requested_actions (filters enhance enhancement_factor selectedData : json)
    : list json :=
  (if py_truthy filters
   then [JObj [("operation", filters); ("type", JStr "filter");
               ("selectedData", selectedData)]]
   else [])
  ++ (if py_truthy enhance
      then [JObj [("operation",
                   JObj [("enhancement", enhance);
                         ("enhancement_factor", enhancement_factor)]);
                  ("type", JStr "enhance"); ("selectedData", selectedData)]]
      else []).

(** No occurrence of [sep] in [head ++ rest] starts inside [head]. *)
Fixpoint starts_nowhere (sep head rest : string) : bool :=
  match head with
  | EmptyString => true
  | String c head' =>
      negb (String.prefix sep (head ++ rest)) && starts_nowhere sep head' rest
  end.

(** [sep.join(pieces)] *)
Fixpoint str_join (sep : string) (pieces : list string) : string :=
  match pieces with
  | [] => ""
  | [piece] => piece
  | piece :: rest => (piece ++ sep ++ str_join sep rest)%string
  end.

(** ** The whole callback, and the server over time *)

Section Server.
Context {Image Mask Component : Type}.
Variable size : Image → Z * Z.
Variable b64_to_pil : string → result Image.
Variable generate_lasso_mask : Image → json → result Mask.
Variable apply_filters : Image → zone Mask → json → string → result Image.
Variable apply_enhancements : Image → zone Mask → json → json → string → result Image.
Variable int_of_str : string → option Z.

(** [drc.InteractiveImagePIL(image, enc_format, dragmode)] encodes the image
    in the format the client asked for and builds the graph component; it
    can fail, as on a format the image cannot be written in. *)
Variable InteractiveImagePIL : Image → json → json → result Component.

(** [update_graph_interactive_image] with its return statement, lines
    370-385: the component is built last, after the upload branch has
    written [image_string_dict]. *)
Definition update_graph_interactive_image_children
    (content : option string) (n_clicks : json) (selectedData : json)
    (filters enhance enhancement_factor : json) (new_filename : option string)
    (dragmode enc_format : json)
    (storage : option string * option string * list token)
    (session_id : string)
    : M Image (Component * (option string * option string * list token)) :=
  response ←
    update_graph_interactive_image size b64_to_pil generate_lasso_mask apply_filters
      apply_enhancements int_of_str content n_clicks selectedData filters enhance
      enhancement_factor new_filename dragmode enc_format storage session_id;
  let '(Response im_pil enc_format dragmode storage) := response in
  component ← lift (InteractiveImagePIL im_pil enc_format dragmode);
  mret (component, storage).

(** The states the server goes through.  It starts with no image string and
    an empty cache; a page load runs [serve_layout], a click or an upload
    runs [update_graph_interactive_image], whatever the client sends; a
    restart forgets the image strings and keeps the cache directory. *)
Inductive reachable : state Image → Prop :=
  | reachable_start : reachable (State ∅ ∅)
  | reachable_layout st session_id placeholder :
      reachable st → reachable (serve_layout session_id placeholder st).1
  | reachable_request st content n_clicks selectedData filters enhance enhancement_factor
        new_filename dragmode enc_format storage session_id :
      reachable st →
      reachable
        (update_graph_interactive_image size b64_to_pil generate_lasso_mask apply_filters
           apply_enhancements int_of_str content n_clicks selectedData filters enhance
           enhancement_factor new_filename dragmode enc_format storage session_id st).1
  | reachable_restart st : reachable st → reachable (State (cache st) ∅).

End Server.

(** * Properties *)

(** ** The replay and its cache *)

Section EngineFacts.
Context {Image Mask : Type}.
Variable size : Image → Z * Z.
Variable b64_to_pil : string → result Image.
Variable generate_lasso_mask : Image → json → result Mask.
Variable apply_filters : Image → zone Mask → json → string → result Image.
Variable apply_enhancements : Image → zone Mask → json → json → string → result Image.
Variable int_of_str : string → option Z.

Local Abbreviation apply_actions_on_image :=
  (apply_actions_on_image size b64_to_pil generate_lasso_mask apply_filters
     apply_enhancements int_of_str).
Local Abbreviation apply_last_action :=
  (apply_last_action size generate_lasso_mask apply_filters apply_enhancements int_of_str).
Local Abbreviation resolved_buffer :=
  (resolved_buffer size b64_to_pil generate_lasso_mask apply_filters
     apply_enhancements int_of_str).
Local Abbreviation cache_ok :=
  (cache_ok size b64_to_pil generate_lasso_mask apply_filters
     apply_enhancements int_of_str).
Local Abbreviation original_image := (original_image b64_to_pil).

Lemma apply_actions_on_image_nil session_id filename image_signature :
  apply_actions_on_image session_id [] filename image_signature
  = memoize (session_id, [], filename, image_signature) (original_image session_id).
Proof. reflexivity. Qed.

(** Popping the last action of [action_stack ++ [last_action]] leaves
    [action_stack]. *)
Lemma apply_actions_on_image_snoc session_id action_stack last_action filename image_signature :
  apply_actions_on_image session_id (action_stack ++ [last_action]) filename image_signature
  = memoize (session_id, action_stack ++ [last_action], filename, image_signature)
      (im_pil ← apply_actions_on_image session_id action_stack filename image_signature;
       lift (apply_last_action last_action im_pil)).
Proof.
  unfold apply_actions_on_image. rewrite reverse_snoc. simpl.
  now rewrite reverse_cons, reverse_involutive.
Qed.

(** The same two equations with [memoize] spelled out. *)
Lemma apply_actions_on_image_nil_run session_id filename image_signature st :
  apply_actions_on_image session_id [] filename image_signature st
  = match cache st !! (session_id, [], filename, image_signature) with
    | Some rv => (st, Ok rv)
    | None =>
        match image_string_dict st !! session_id with
        | Some string =>
            match b64_to_pil string with
            | Ok rv => (cache_set (session_id, [], filename, image_signature) rv st, Ok rv)
            | Raise e => (st, Raise e)
            end
        | None => (st, Raise KeyError)
        end
    end.
Proof.
  rewrite apply_actions_on_image_nil. unfold memoize, original_image.
  destruct (cache st !! _); [reflexivity|].
  destruct (image_string_dict st !! session_id) as [string|]; [|reflexivity].
  now destruct (b64_to_pil string).
Qed.

Lemma apply_actions_on_image_snoc_run
    session_id action_stack last_action filename image_signature st :
  apply_actions_on_image session_id (action_stack ++ [last_action]) filename image_signature st
  = match cache st !! (session_id, action_stack ++ [last_action], filename, image_signature) with
    | Some rv => (st, Ok rv)
    | None =>
        match apply_actions_on_image session_id action_stack filename image_signature st with
        | (st', Ok im_pil) =>
            match apply_last_action last_action im_pil with
            | Ok rv =>
                (cache_set (session_id, action_stack ++ [last_action], filename, image_signature)
                   rv st', Ok rv)
            | Raise e => (st', Raise e)
            end
        | (st', Raise e) => (st', Raise e)
        end
    end.
Proof.
  rewrite apply_actions_on_image_snoc. unfold memoize, mbind, M_bind, lift.
  destruct (cache st !! _); [reflexivity|].
  destruct (apply_actions_on_image session_id action_stack filename image_signature st)
    as [st' [im_pil|e]]; [|reflexivity].
  now destruct (apply_last_action last_action im_pil).
Qed.

Lemma resolved_buffer_snoc strings session_id action_stack last_action :
  resolved_buffer strings session_id (action_stack ++ [last_action])
  = resolved_buffer strings session_id action_stack ≫= apply_last_action last_action.
Proof. unfold resolved_buffer. now rewrite fold_left_app. Qed.

Lemma cache_ok_set st key rv :
  cache_ok st →
  resolved_buffer (image_string_dict st) key.1.1.1 key.1.1.2 = Ok rv →
  cache_ok (cache_set key rv st).
Proof.
  intros Hok Hrv sid stack fn sig rv'. unfold cache_set. simpl.
  destruct (decide (key = (sid, stack, fn, sig))) as [->|Hne].
  - rewrite lookup_insert_eq. intros [= <-]. exact Hrv.
  - rewrite lookup_insert_ne by exact Hne. exact (Hok _ _ _ _ _).
Qed.

Lemma cache_ok_evict st key : cache_ok st → cache_ok (cache_evict key st).
Proof.
  intros Hok sid stack fn sig rv. unfold cache_evict. simpl.
  intros Hl. apply lookup_delete_Some in Hl as [_ Hl]. exact (Hok _ _ _ _ _ Hl).
Qed.

Lemma cache_ok_clear st : cache_ok (cache_clear st).
Proof. intros sid stack fn sig rv. unfold cache_clear. simpl. now rewrite lookup_empty. Qed.

(** On a coherent cache the memoized replay returns the buffer of the stack,
    keeps the cache coherent and leaves the image strings alone. *)
Lemma replay_sound session_id filename image_signature action_stack :
  ∀ st, cache_ok st →
    let out := apply_actions_on_image session_id action_stack filename image_signature st in
    image_string_dict out.1 = image_string_dict st
    ∧ cache_ok out.1
    ∧ out.2 = resolved_buffer (image_string_dict st) session_id action_stack.
Proof.
  induction action_stack as [|last_action action_stack IH] using rev_ind; intros st Hok.
  - rewrite apply_actions_on_image_nil_run.
    destruct (cache st !! _) as [rv|] eqn:Hget; simpl.
    { split; [reflexivity|]. split; [exact Hok|]. symmetry. exact (Hok _ _ _ _ _ Hget). }
    unfold resolved_buffer. simpl.
    destruct (image_string_dict st !! session_id) as [string|] eqn:Hs; simpl; [|now split].
    destruct (b64_to_pil string) as [rv|e] eqn:Hd; simpl; [|now split].
    split; [reflexivity|]. split; [|reflexivity].
    apply cache_ok_set; [exact Hok|]. simpl.
    unfold resolved_buffer. simpl. now rewrite Hs.
  - rewrite apply_actions_on_image_snoc_run.
    destruct (cache st !! _) as [rv|] eqn:Hget; simpl.
    { split; [reflexivity|]. split; [exact Hok|]. symmetry. exact (Hok _ _ _ _ _ Hget). }
    specialize (IH st Hok). simpl in IH. destruct IH as (Hs & Hok' & Hr).
    rewrite resolved_buffer_snoc.
    destruct (apply_actions_on_image session_id action_stack filename image_signature st)
      as [st' r]. simpl in Hs, Hok', Hr. rewrite <- Hr.
    destruct r as [im_pil|e]; simpl; [|now split].
    destruct (apply_last_action last_action im_pil) as [rv|e] eqn:Hstep; simpl; [|now split].
    split; [exact Hs|]. split; [|reflexivity].
    apply cache_ok_set; [exact Hok'|]. simpl.
    rewrite resolved_buffer_snoc, Hs, <- Hr. exact Hstep.
Qed.

Lemma resolved_buffer_same_string strings strings' session_id action_stack :
  strings !! session_id = strings' !! session_id →
  resolved_buffer strings session_id action_stack
  = resolved_buffer strings' session_id action_stack.
Proof. intros Heq. unfold resolved_buffer. now rewrite Heq. Qed.

(** A hit returns the stored image and touches nothing. *)
Lemma replay_hit session_id action_stack filename image_signature st rv :
  cache st !! (session_id, action_stack, filename, image_signature) = Some rv →
  apply_actions_on_image session_id action_stack filename image_signature st = (st, Ok rv).
Proof.
  intros Hget. destruct action_stack as [|last_action action_stack _] using rev_ind.
  - now rewrite apply_actions_on_image_nil_run, Hget.
  - now rewrite apply_actions_on_image_snoc_run, Hget.
Qed.

(** A call that returns an image leaves it in the cache under its arguments. *)
Lemma replay_stores session_id action_stack filename image_signature st st' rv :
  apply_actions_on_image session_id action_stack filename image_signature st = (st', Ok rv) →
  cache st' !! (session_id, action_stack, filename, image_signature) = Some rv.
Proof.
  destruct action_stack as [|last_action action_stack _] using rev_ind.
  - rewrite apply_actions_on_image_nil_run.
    destruct (cache st !! _) eqn:Hget; [now intros [= <- <-]|].
    destruct (image_string_dict st !! session_id); [|discriminate].
    destruct (b64_to_pil _); [|discriminate].
    intros [= <- <-]. simpl. apply lookup_insert_eq.
  - rewrite apply_actions_on_image_snoc_run.
    destruct (cache st !! _) eqn:Hget; [now intros [= <- <-]|].
    destruct (apply_actions_on_image _ _ _ _ _) as [st1 [im_pil|e]]; [|discriminate].
    destruct (apply_last_action _ _); [|discriminate].
    intros [= <- <-]. simpl. apply lookup_insert_eq.
Qed.

Lemma cache_ok_evict_all st evicted : cache_ok st → cache_ok (foldr cache_evict st evicted).
Proof. intros Hok. induction evicted; simpl; [exact Hok|]. now apply cache_ok_evict. Qed.

Lemma image_string_dict_evict_all (st : state Image) evicted :
  image_string_dict (foldr cache_evict st evicted) = image_string_dict st.
Proof. induction evicted; simpl; [reflexivity|]. exact IHevicted. Qed.

(** C1 (amended).  The replay is a memoized recursion over the prefixes of
    the stack, the empty one included: a call first looks its arguments up
    and returns the cached image on a hit; on a miss the empty stack decodes
    the session's image, a stack ending in [last_action] obtains the image of
    the actions before it through the same memoized call and applies
    [last_action] to it; the image produced is stored under the arguments of
    the call and returned, and nothing is stored when an exception is
    raised. *)
Theorem replay_memoized_recursion
    session_id action_stack last_action filename image_signature st :
  apply_actions_on_image session_id [] filename image_signature st
  = match cache st !! (session_id, [], filename, image_signature) with
    | Some rv => (st, Ok rv)
    | None =>
        match image_string_dict st !! session_id with
        | Some string =>
            match b64_to_pil string with
            | Ok rv => (cache_set (session_id, [], filename, image_signature) rv st, Ok rv)
            | Raise e => (st, Raise e)
            end
        | None => (st, Raise KeyError)
        end
    end
  ∧ apply_actions_on_image session_id (action_stack ++ [last_action])
      filename image_signature st
    = match cache st
            !! (session_id, action_stack ++ [last_action], filename, image_signature) with
      | Some rv => (st, Ok rv)
      | None =>
          match apply_actions_on_image session_id action_stack filename image_signature st with
          | (st', Ok im_pil) =>
              match apply_last_action last_action im_pil with
              | Ok rv =>
                  (cache_set
                     (session_id, action_stack ++ [last_action], filename, image_signature)
                     rv st', Ok rv)
              | Raise e => (st', Raise e)
              end
          | (st', Raise e) => (st', Raise e)
          end
      end.
Proof.
  split.
  - apply apply_actions_on_image_nil_run.
  - apply apply_actions_on_image_snoc_run.
Qed.

(** C2.  With the cache cleared, resolving a stack gives the same result
    whatever else the server state holds, as long as the session's image is
    the same: it is the buffer of the stack, a function of the original image
    and the actions alone.  Having resolved a longer stack built on top of it
    before does not change the result either. *)
Theorem replay_deterministic
    session_id action_stack more filename image_signature (st st' : state Image) :
  image_string_dict st !! session_id = image_string_dict st' !! session_id →
  let resolve := apply_actions_on_image session_id action_stack filename image_signature in
  (resolve (cache_clear st)).2 = (resolve (cache_clear st')).2
  ∧ (resolve (cache_clear st)).2
    = resolved_buffer (image_string_dict st) session_id action_stack
  ∧ (resolve (apply_actions_on_image session_id (action_stack ++ more)
                filename image_signature (cache_clear st)).1).2
    = (resolve (cache_clear st)).2.
Proof.
  intros Hsame resolve. subst resolve.
  pose proof (replay_sound session_id filename image_signature action_stack
                (cache_clear st) (cache_ok_clear st)) as (_ & _ & H1).
  pose proof (replay_sound session_id filename image_signature action_stack
                (cache_clear st') (cache_ok_clear st')) as (_ & _ & H2).
  pose proof (replay_sound session_id filename image_signature (action_stack ++ more)
                (cache_clear st) (cache_ok_clear st)) as (Hs3 & Hok3 & _).
  pose proof (replay_sound session_id filename image_signature action_stack _ Hok3)
    as (_ & _ & H4).
  simpl in *. rewrite H1, H2, H4, Hs3. split; [|split]; try reflexivity.
  now apply resolved_buffer_same_string.
Qed.

(** The replay under a bound on nested calls. *)
Local Abbreviation replay_within :=
  (apply_actions_on_image_within size b64_to_pil generate_lasso_mask apply_filters
     apply_enhancements int_of_str).

(** With room for one call more than the stack is long, the bound is never
    met. *)
Lemma replay_popped_within_enough limit :
  ∀ to_pop session_id filename image_signature,
    (length to_pop < limit)%nat →
    replay_popped_within size b64_to_pil generate_lasso_mask apply_filters
      apply_enhancements int_of_str limit session_id to_pop filename image_signature
    = replay_popped size b64_to_pil generate_lasso_mask apply_filters
        apply_enhancements int_of_str session_id to_pop filename image_signature.
Proof.
  induction limit as [|limit IH]; intros to_pop session_id filename image_signature Hlen;
    [lia|].
  destruct to_pop as [|last_action to_pop]; [reflexivity|].
  cbn [replay_popped_within replay_popped]. rewrite IH by (simpl in Hlen; lia).
  reflexivity.
Qed.

Lemma replay_within_enough limit session_id action_stack filename image_signature :
  (length action_stack < limit)%nat →
  replay_within limit session_id action_stack filename image_signature
  = apply_actions_on_image session_id action_stack filename image_signature.
Proof.
  intros Hlen. unfold apply_actions_on_image_within, apply_actions_on_image.
  apply replay_popped_within_enough. now rewrite length_reverse.
Qed.

(** With nothing cached, a stack as long as the bound runs out of room. *)
Lemma replay_popped_within_exceeds limit :
  ∀ to_pop session_id filename image_signature (st : state Image),
    (∀ key, cache st !! key = None) →
    (limit ≤ length to_pop)%nat →
    replay_popped_within size b64_to_pil generate_lasso_mask apply_filters
      apply_enhancements int_of_str limit session_id to_pop filename image_signature st
    = (st, Raise RecursionError).
Proof.
  induction limit as [|limit IH];
    intros to_pop session_id filename image_signature st Hcold Hlen; [reflexivity|].
  destruct to_pop as [|last_action to_pop]; [simpl in Hlen; lia|].
  cbn [replay_popped_within]. unfold memoize. rewrite Hcold. unfold mbind, M_bind.
  rewrite IH; [reflexivity|exact Hcold|simpl in Hlen; lia].
Qed.

Lemma replay_popped_within_S limit session_id to_pop filename image_signature :
  replay_popped_within size b64_to_pil generate_lasso_mask apply_filters
    apply_enhancements int_of_str (S limit) session_id to_pop filename image_signature
  = memoize (session_id, reverse to_pop, filename, image_signature)
      match to_pop with
      | [] => original_image session_id
      | last_action :: action_stack =>
          im_pil ← replay_popped_within size b64_to_pil generate_lasso_mask apply_filters
                     apply_enhancements int_of_str limit session_id action_stack
                     filename image_signature;
          lift (apply_last_action last_action im_pil)
      end.
Proof. reflexivity. Qed.

Lemma memoize_run (key : Key) (body : M Image Image) st :
  memoize key body st
  = match cache st !! key with
    | Some rv => (st, Ok rv)
    | None =>
        match body st with
        | (st', Ok rv) => (cache_set key rv st', Ok rv)
        | (st', Raise e) => (st', Raise e)
        end
    end.
Proof. reflexivity. Qed.

(** A hit under the bound, when there is room for the call itself. *)
Lemma replay_within_hit limit session_id action_stack filename image_signature st rv :
  cache st !! (session_id, action_stack, filename, image_signature) = Some rv →
  replay_within (S limit) session_id action_stack filename image_signature st = (st, Ok rv).
Proof.
  intros Hget. unfold apply_actions_on_image_within.
  now rewrite replay_popped_within_S, memoize_run, reverse_involutive, Hget.
Qed.

(** C3 (amended).  A hit returns the stored image and leaves the server
    state as it is, whatever image is stored and whatever the decoder and the
    image helpers would compute.  Where the interpreter has room for one
    nested call per action and one more, resolving on an empty cache gives
    the buffer of the stack, and so does resolving on the cache an identical
    request left, before or after any entries were evicted from it.  A stack
    resolved one action at a time on a warm cache needs two nested calls
    only; on an empty cache a stack as long as the bound raises
    [RecursionError]. *)
Theorem cache_transparent
    limit session_id action_stack filename image_signature (st : state Image)
    (evicted : list Key) :
  (length action_stack < limit)%nat →
  let resolve := replay_within limit session_id action_stack filename image_signature in
  let cold := resolve (cache_clear st) in
  (∀ (b64_to_pil' : string → result Image)
     (generate_lasso_mask' : Image → json → result Mask)
     (apply_filters' : Image → zone Mask → json → string → result Image)
     (apply_enhancements' : Image → zone Mask → json → json → string → result Image)
     (st0 : state Image) rv,
     cache st0 !! (session_id, action_stack, filename, image_signature) = Some rv →
     apply_actions_on_image_within size b64_to_pil' generate_lasso_mask' apply_filters'
       apply_enhancements' int_of_str limit session_id action_stack filename
       image_signature st0
     = (st0, Ok rv))
  ∧ cold.2 = resolved_buffer (image_string_dict st) session_id action_stack
  ∧ (resolve cold.1).2 = cold.2
  ∧ (resolve (foldr cache_evict cold.1 evicted)).2 = cold.2
  ∧ (∀ longer last_action (st0 : state Image) rv,
       (2 ≤ limit)%nat →
       cache st0 !! (session_id, longer, filename, image_signature) = Some rv →
       replay_within limit session_id (longer ++ [last_action]) filename image_signature st0
       = apply_actions_on_image session_id (longer ++ [last_action]) filename
           image_signature st0)
  ∧ (∀ longer,
       (limit ≤ length longer)%nat →
       replay_within limit session_id longer filename image_signature (cache_clear st)
       = (cache_clear st, Raise RecursionError)).
Proof.
  intros Hlen resolve cold. subst resolve cold.
  split; [|split; [|split; [|split; [|split]]]].
  - intros decode lasso filters_ enhancements_ st0 rv Hget.
    destruct limit as [|limit]; [lia|]. unfold apply_actions_on_image_within.
    destruct (reverse action_stack) as [|last_action to_pop] eqn:Hrev;
      cbn [replay_popped_within]; unfold memoize;
      rewrite <- Hrev, reverse_involutive, Hget; reflexivity.
  - rewrite (replay_within_enough _ _ _ _ _ Hlen).
    exact (proj2 (proj2 (replay_sound session_id filename image_signature action_stack
                           (cache_clear st) (cache_ok_clear st)))).
  - rewrite (replay_within_enough _ _ _ _ _ Hlen).
    pose proof (replay_sound session_id filename image_signature action_stack
                  (cache_clear st) (cache_ok_clear st)) as (Hs & Hok & Hr).
    pose proof (replay_sound session_id filename image_signature action_stack _ Hok)
      as (_ & _ & Hwarm).
    simpl in Hs, Hr, Hwarm. now rewrite Hwarm, Hs, Hr.
  - rewrite (replay_within_enough _ _ _ _ _ Hlen).
    pose proof (replay_sound session_id filename image_signature action_stack
                  (cache_clear st) (cache_ok_clear st)) as (Hs & Hok & Hr).
    pose proof (replay_sound session_id filename image_signature action_stack _
                  (cache_ok_evict_all _ evicted Hok)) as (_ & _ & Hev).
    simpl in Hs, Hr, Hev. rewrite image_string_dict_evict_all in Hev.
    now rewrite Hev, Hs, Hr.
  - intros longer last_action st0 rv Hroom Hget.
    destruct limit as [|[|limit]]; [lia|lia|].
    rewrite apply_actions_on_image_snoc_run, (replay_hit _ _ _ _ _ _ Hget).
    pose proof (replay_within_hit limit _ _ _ _ _ _ Hget) as Hwithin.
    unfold apply_actions_on_image_within in Hwithin |- *.
    rewrite reverse_snoc, replay_popped_within_S, memoize_run.
    rewrite reverse_cons, reverse_involutive.
    destruct (cache st0 !! (session_id, longer ++ [last_action], filename,
                            image_signature)); [reflexivity|].
    unfold mbind, M_bind. rewrite Hwithin. unfold lift. now destruct (apply_last_action last_action rv).
  - intros longer Hlong. unfold apply_actions_on_image_within.
    apply replay_popped_within_exceeds; [|now rewrite length_reverse].
    intros key. apply lookup_empty.
Qed.

(** ** Selections *)

Local Abbreviation selection_of := (selection_of size generate_lasso_mask int_of_str).

Lemma dict_get_is_Some_nonempty k members :
  is_Some (dict_get k members) → py_truthy (JObj members) = true.
Proof. destruct members; [intros [? [=]]|reflexivity]. Qed.

(** C4 (amended).  A rectangle descriptor with x-range [(left, right)] and
    y-range [(lower, upper)] resolves, on an image of height [h], to the box
    [(left, h - upper, right, h - lower)]: the vertical axis is flipped and the
    bounds are taken as they come, with no clamping to the image. *)
Theorem rectangle_flip im_pil members range xs ys left_ right_ lower upper :
  dict_get "lassoPoints" members = None →
  dict_get "range" members = Some range →
  py_getitem range "x" = Ok xs →
  py_getitem range "y" = Ok ys →
  unpack2_int int_of_str xs = Ok (left_, right_) →
  unpack2_int int_of_str ys = Ok (lower, upper) →
  selection_of im_pil (JObj members)
  = Ok ("select", Box left_ ((size im_pil).2 - upper) right_ ((size im_pil).2 - lower)).
Proof.
  intros Hlasso Hrange Hx Hy Hxs Hys. unfold selection_of.
  rewrite (dict_get_is_Some_nonempty "range" members) by (rewrite Hrange; eauto).
  unfold py_contains, py_getitem in *. rewrite Hlasso, !Hrange. simpl.
  rewrite Hy. simpl. rewrite Hys. simpl. rewrite Hx. simpl. rewrite Hxs. reflexivity.
Qed.

(** ** Appending an action *)

(** C5 (amended).  [add_action_to_stack] adds exactly one action to the end
    of a stack that is a list, whatever the action: it validates neither the
    kind nor the selection.  A rectangle whose bounds do not convert is
    appended like any other, whatever the kind of the action, [filter] and
    [enhance] included, and it is resolving the stack that raises, with the
    exception of the conversion.  An action of a kind that is neither
    [filter] nor [enhance] is appended too, and when the stack is resolved it
    leaves the image as it is, once its selection has resolved.  The one
    failure of the call is [AttributeError], on a stack that is not a
    list. *)
Theorem append_never_validates
    action_stack operation type selectedData im_pil xs ys e :
  unpack2_int int_of_str ys = Raise e →
  let new_action :=
    JObj [("operation", operation); ("type", JStr type); ("selectedData", selectedData)] in
  let malformed := JObj [("range", JObj [("x", xs); ("y", ys)])] in
  let bad_action :=
    JObj [("operation", operation); ("type", JStr type); ("selectedData", malformed)] in
  add_action_to_stack_py (JArr action_stack) operation type selectedData
  = Ok (JArr (action_stack ++ [new_action]))
  ∧ length (add_action_to_stack action_stack operation type selectedData)
    = S (length action_stack)
  ∧ add_action_to_stack_py (JArr action_stack) operation type malformed
    = Ok (JArr (action_stack ++ [bad_action]))
  ∧ apply_last_action bad_action im_pil = Raise e
  ∧ (type ≠ "filter" → type ≠ "enhance" →
     apply_last_action new_action im_pil
     = selection_of im_pil selectedData ≫= λ _, Ok im_pil)
  ∧ (∀ other, (∀ l, other ≠ JArr l) →
              add_action_to_stack_py other operation type selectedData
              = Raise AttributeError).
Proof.
  intros Hys new_action malformed bad_action.
  split; [reflexivity|]. split.
  { unfold add_action_to_stack. rewrite length_app. simpl. lia. }
  split; [reflexivity|]. split; [|split].
  - unfold apply_last_action, selection_of. simpl. now rewrite Hys.
  - intros Hf He. unfold apply_last_action. simpl.
    destruct (selection_of im_pil selectedData) as [[mode region]|e0]; [|reflexivity].
    simpl. rewrite !bool_decide_eq_false_2 by congruence. reflexivity.
  - intros other Hother. destruct other as [| | | | |l|]; try reflexivity.
    now destruct (Hother l).
Qed.

End EngineFacts.

(** ** The operation adapter *)

Section AdapterFacts.
Import Adapter.
Variable transform : operation → buffer → nat → nat → Z.
Variable supported : operation → bool.
Variable int_of_str : string → option Z.

Lemma pixel_imap (f : nat → nat → Z → Z) (b : buffer) x y :
  pixel (imap (λ y row, imap (λ x p, f x y p) row) b) x y = f x y <$> pixel b x y.
Proof.
  unfold pixel. rewrite list_lookup_imap.
  destruct (b !! y) as [row|]; simpl; [|reflexivity].
  now rewrite list_lookup_imap.
Qed.

Lemma imap_same {A} (f : nat → A → A) (l : list A) :
  (∀ i x, f i x = x) → imap f l = l.
Proof.
  intros Hf. apply list_eq. intros i. rewrite list_lookup_imap.
  destruct (l !! i); simpl; [now rewrite Hf|reflexivity].
Qed.

(** What [apply] returns agrees with its input outside the region, and is
    its input when the region holds no pixel. *)
Lemma apply_frame b region op b' :
  apply transform supported b region op = Ok b' →
  (∀ x y, in_zone region x y = false → pixel b' x y = pixel b x y)
  ∧ ((∀ x y, in_zone region x y = false) → b' = b).
Proof.
  unfold apply. destruct (supported op); [|discriminate]. intros [= <-]. split.
  - intros x y Hout.
    rewrite (pixel_imap (λ x y p, if in_zone region x y then transform op b x y else p)).
    rewrite Hout. now destruct (pixel b x y).
  - intros Hempty. apply imap_same. intros y row. apply imap_same. intros x p.
    now rewrite Hempty.
Qed.

(** C7.  One action applied to an image, with the image helpers as the
    specification describes them, gives an image that agrees with the input
    on every pixel outside the selection resolved for the action, and that is
    the input itself when the resolved selection holds no pixel. *)
Theorem operation_frame last_action im_pil im_pil' :
  apply_last_action size generate_lasso_mask (apply_filters transform supported)
    (apply_enhancements transform supported) int_of_str last_action im_pil = Ok im_pil' →
  ∃ selectedData selection_mode region,
    py_getitem last_action "selectedData" = Ok selectedData
    ∧ selection_of size generate_lasso_mask int_of_str im_pil selectedData
      = Ok (selection_mode, region)
    ∧ (∀ x y, in_zone region x y = false → pixel im_pil' x y = pixel im_pil x y)
    ∧ ((∀ x y, in_zone region x y = false) → im_pil' = im_pil).
Proof.
  unfold apply_last_action.
  destruct (py_getitem last_action "operation") as [operation|]; [|discriminate]. simpl.
  destruct (py_getitem last_action "selectedData") as [selectedData|] eqn:Hsd;
    [|discriminate]. simpl.
  destruct (py_getitem last_action "type") as [type|]; [|discriminate]. simpl.
  destruct (selection_of size generate_lasso_mask int_of_str im_pil selectedData)
    as [[selection_mode region]|] eqn:Hsel; [|discriminate]. simpl.
  intros Hstep. exists selectedData, selection_mode, region.
  split; [reflexivity|]. split; [exact Hsel|].
  destruct (bool_decide (type = JStr "filter")).
  { now apply apply_frame in Hstep. }
  destruct (bool_decide (type = JStr "enhance")).
  - destruct (py_getitem operation "enhancement") as [enhancement|]; [|discriminate].
    simpl in Hstep.
    destruct (py_getitem operation "enhancement_factor") as [factor|]; [|discriminate].
    simpl in Hstep. now apply apply_frame in Hstep.
  - injection Hstep as <-. now split.
Qed.

End AdapterFacts.

(** ** JSON text *)

Section JsonFacts.

Lemma json_dumps_head v : ∃ t ts, json_dumps v = t :: ts ∧ opens_value t = true.
Proof. destruct v; simpl; eauto. Qed.

Lemma parse_items_S fuel ts :
  parse_items (S fuel) ts
  = match parse_value fuel ts with
    | Some (v, TComma :: rest) =>
        match parse_items fuel rest with
        | Some (vs, rest') => Some (v :: vs, rest')
        | None => None
        end
    | Some (v, TRBracket :: rest) => Some ([v], rest)
    | _ => None
    end.
Proof. reflexivity. Qed.

Lemma parse_members_S fuel k rest :
  parse_members (S fuel) (TStr k :: TColon :: rest)
  = match parse_value fuel rest with
    | Some (v, TComma :: rest') =>
        match parse_members fuel rest' with
        | Some (kvs, rest'') => Some ((k, v) :: kvs, rest'')
        | None => None
        end
    | Some (v, TRBrace :: rest') => Some ([(k, v)], rest')
    | _ => None
    end.
Proof. reflexivity. Qed.

Lemma parse_value_array fuel t ts :
  opens_value t = true →
  parse_value (S fuel) (TLBracket :: t :: ts)
  = match parse_items fuel (t :: ts) with
    | Some (items, rest') => Some (JArr items, rest')
    | None => None
    end.
Proof. now destruct t. Qed.

Lemma parse_value_object fuel k ts :
  parse_value (S fuel) (TLBrace :: TStr k :: ts)
  = match parse_members fuel (TStr k :: ts) with
    | Some (pairs, rest') => Some (JObj (dict_of_pairs pairs), rest')
    | None => None
    end.
Proof. reflexivity. Qed.

(** Arithmetic on the fuel, from the bound in the context alone. *)
Local Ltac fuel_arith :=
  match goal with
  | H : (_ < _)%nat |- _ => clear -H; lia
  end.

Lemma parse_items_back items :
  items ≠ [] →
  Forall parses_back items →
  ∀ fuel rest,
    (2 * length (join_comma (map json_dumps items)) + 1 < fuel)%nat →
    parse_items fuel (join_comma (map json_dumps items) ++ TRBracket :: rest)
    = Some (items, rest).
Proof.
  intros Hne Hall. induction Hall as [|x items Hx Hall IH]; [done|].
  intros fuel rest Hfuel. destruct fuel as [|fuel]; [fuel_arith|].
  rewrite parse_items_S. destruct items as [|y items].
  - simpl in *. rewrite Hx by fuel_arith. reflexivity.
  - change (join_comma (map json_dumps (x :: y :: items)))
      with (json_dumps x ++ TComma :: join_comma (map json_dumps (y :: items))) in *.
    rewrite length_app in Hfuel. cbn [length] in Hfuel.
    rewrite <- app_assoc. rewrite Hx by fuel_arith.
    rewrite <- app_comm_cons. rewrite IH by (done || fuel_arith). reflexivity.
Qed.

Lemma parse_members_back (members : list (string * json)) :
  members ≠ [] →
  Forall (λ kv, parses_back kv.2) members →
  ∀ fuel rest,
    let text := join_comma (map (λ kv, TStr kv.1 :: TColon :: json_dumps kv.2) members) in
    (2 * length text + 1 < fuel)%nat →
    parse_members fuel (text ++ TRBrace :: rest) = Some (members, rest).
Proof.
  intros Hne Hall. induction Hall as [|[k x] members Hx Hall IH]; [done|].
  intros fuel rest text Hfuel. subst text. destruct fuel as [|fuel]; [fuel_arith|].
  destruct members as [|kv members].
  - simpl in *. rewrite Hx by fuel_arith. reflexivity.
  - change (join_comma (map (λ kv, TStr kv.1 :: TColon :: json_dumps kv.2)
                            ((k, x) :: kv :: members)))
      with ((TStr k :: TColon :: json_dumps x) ++ TComma ::
            join_comma (map (λ kv, TStr kv.1 :: TColon :: json_dumps kv.2) (kv :: members)))
      in *.
    rewrite length_app in Hfuel. cbn [length] in Hfuel.
    rewrite <- app_assoc. cbn [app]. rewrite parse_members_S.
    cbn [snd] in Hx. rewrite Hx by fuel_arith.
    rewrite IH by (done || fuel_arith). reflexivity.
Qed.

Lemma dict_set_fresh k v members :
  k ∉ map fst members → dict_set k v members = members ++ [(k, v)].
Proof.
  induction members as [|[k' v'] members IH]; simpl; [reflexivity|].
  intros Hnotin. apply not_elem_of_cons in Hnotin as [Hne Hnotin].
  destruct (String.eqb_spec k k') as [->|_]; [done|]. now rewrite IH.
Qed.

Lemma dict_of_pairs_NoDup members :
  NoDup (map fst members) → dict_of_pairs members = members.
Proof.
  unfold dict_of_pairs.
  enough (∀ acc, NoDup (map fst (acc ++ members)) →
                 fold_left (λ d kv, dict_set kv.1 kv.2 d) members acc = acc ++ members)
    as H by (intros Hnd; now apply (H [])).
  induction members as [|[k v] members IH]; intros acc Hnd; simpl.
  - now rewrite app_nil_r.
  - rewrite dict_set_fresh.
    + rewrite IH; rewrite <- app_assoc; [reflexivity|exact Hnd].
    + rewrite map_app in Hnd. apply list.NoDup_app in Hnd as (_ & Hdisj & _).
      intros Hin. apply (Hdisj k Hin). simpl. left.
Qed.

Lemma Forall_if_wf {A} (wf : A → bool) (P : A → Prop) (l : list A) :
  Forall (λ x, wf x = true → P x) l → forallb wf l = true → Forall P l.
Proof.
  induction 1 as [|x l Hx _ IH]; simpl; intros Hwf; [constructor|].
  apply andb_prop in Hwf as [Hwfx Hwf]. constructor; auto.
Qed.

Lemma json_dumps_parses_back v : json_wf v = true → parses_back v.
Proof.
  induction v as [|b|z|q|s|items IH|members IH] using json_nested_ind;
    intros Hwf fuel rest Hfuel;
    try (destruct fuel; [fuel_arith|reflexivity]).
  - (* lists *)
    destruct fuel as [|fuel]; [fuel_arith|].
    destruct items as [|x items]; [reflexivity|].
    assert (Hall : Forall parses_back (x :: items))
      by exact (Forall_if_wf json_wf parses_back _ IH Hwf).
    cbn [json_dumps] in *. cbn [length] in Hfuel. rewrite length_app in Hfuel.
    destruct (json_dumps_head x) as (t & ts & Hhead & Hopens).
    assert (∃ ts', join_comma (map json_dumps (x :: items)) = t :: ts') as [ts' Hjoin].
    { simpl. rewrite Hhead. destruct (map json_dumps items); simpl; eauto. }
    cbn [app]. rewrite <- app_assoc. cbn [app].
    pose proof (parse_items_back (x :: items) ltac:(done) Hall fuel rest ltac:(fuel_arith)) as Hitems.
    rewrite Hjoin in *. cbn [app] in *. rewrite parse_value_array by exact Hopens.
    now rewrite Hitems.
  - (* dicts *)
    destruct fuel as [|fuel]; [fuel_arith|].
    destruct members as [|[k x] members]; [reflexivity|].
    cbn [json_wf] in Hwf. apply andb_prop in Hwf as [Hnd Hwf].
    apply bool_decide_eq_true_1 in Hnd.
    assert (Hall : Forall (λ kv, parses_back kv.2) ((k, x) :: members))
      by exact (Forall_if_wf (λ kv, json_wf kv.2) (λ kv, parses_back kv.2) _ IH Hwf).
    cbn [json_dumps] in *. cbn [length] in Hfuel. rewrite length_app in Hfuel.
    cbn [app]. rewrite <- app_assoc. cbn [app].
    pose proof (parse_members_back ((k, x) :: members) ltac:(done) Hall fuel rest
                  ltac:(fuel_arith)) as Hmem.
    assert (∃ ts',
               join_comma (map (λ kv, TStr kv.1 :: TColon :: json_dumps kv.2)
                               ((k, x) :: members)) = TStr k :: ts') as [ts' Hjoin].
    { simpl. destruct (map _ members); simpl; eauto. }
    rewrite Hjoin in *. cbn [app] in *. rewrite parse_value_object.
    rewrite Hmem. now rewrite dict_of_pairs_NoDup.
Qed.

Lemma json_loads_dumps v : json_wf v = true → json_loads (json_dumps v) = Ok v.
Proof.
  intros Hwf. unfold json_loads.
  pose proof (json_dumps_parses_back v Hwf (2 * length (json_dumps v) + 2)%nat []
                ltac:(lia)) as H.
  rewrite app_nil_r in H. now rewrite H.
Qed.

(** C6 (amended).  Decoding the encoding of a stack gives the stack back,
    actions in order and the keys of every dict in their order of insertion;
    two stacks have the same encoding exactly when they are identical, key
    order included: the encoding follows the order in which the keys of a
    dict were inserted and does not sort them. *)
Theorem stack_serialization_roundtrip (action_stack action_stack' : list json) :
  json_wf (JArr action_stack) = true →
  json_wf (JArr action_stack') = true →
  json_loads (json_dumps (JArr action_stack)) = Ok (JArr action_stack)
  ∧ (json_dumps (JArr action_stack) = json_dumps (JArr action_stack')
     ↔ action_stack = action_stack').
Proof.
  intros Hwf Hwf'. split; [now apply json_loads_dumps|]. split; [|now intros ->].
  intros Heq. apply json_loads_dumps in Hwf, Hwf'. rewrite Heq in Hwf. congruence.
Qed.

End JsonFacts.


(** ** The caller's list *)

Section AliasingFacts.
Context {Image Mask : Type}.
Variable size : Image → Z * Z.
Variable b64_to_pil : string → result Image.
Variable generate_lasso_mask : Image → json → result Mask.
Variable apply_filters : Image → zone Mask → json → string → result Image.
Variable apply_enhancements : Image → zone Mask → json → json → string → result Image.
Variable int_of_str : string → option Z.

Local Abbreviation apply_actions_on_image :=
  (apply_actions_on_image size b64_to_pil generate_lasso_mask apply_filters
     apply_enhancements int_of_str).
Local Abbreviation replay_ref :=
  (apply_actions_on_image_ref size b64_to_pil generate_lasso_mask apply_filters
     apply_enhancements int_of_str).

Lemma fresh_list_unused (lists : gmap positive (list json)) :
  lists !! fresh (dom lists) = None.
Proof. apply not_elem_of_dom. apply is_fresh. Qed.

Lemma deepcopy_spec l (lists : gmap positive (list json)) items :
  lists !! l = Some items →
  deepcopy l lists = Some (fresh (dom lists), <[fresh (dom lists) := items]> lists).
Proof. intros Hl. unfold deepcopy. now rewrite Hl. Qed.

Lemma list_pop_snoc l (lists : gmap positive (list json)) items last_action :
  lists !! l = Some (items ++ [last_action]) →
  list_pop l lists = Some (last_action, <[l := items]> lists).
Proof.
  intros Hl. unfold list_pop. rewrite Hl. simpl. rewrite last_snoc. simpl.
  now rewrite removelast_last.
Qed.

(** The by-reference replay computes what the replay on list values does,
    and every list object that existed before the call is as it was. *)
Lemma apply_actions_on_image_ref_sound session_id filename image_signature items :
  ∀ fuel l (lists : gmap positive (list json)) (st : state Image),
    lists !! l = Some items →
    (length items < fuel)%nat →
    ∃ lists',
      replay_ref fuel session_id l filename image_signature lists st
      = Some (lists', (apply_actions_on_image session_id items filename image_signature st).1,
              (apply_actions_on_image session_id items filename image_signature st).2)
      ∧ lists ⊆ lists'.
Proof.
  induction items as [|last_action items IH] using rev_ind;
    intros fuel l lists st Hl Hfuel; (destruct fuel as [|fuel]; [simpl in Hfuel; lia|]).
  - rewrite apply_actions_on_image_nil_run. cbn [apply_actions_on_image_ref].
    rewrite Hl. simpl.
    destruct (cache st !! _); [eauto|].
    rewrite (deepcopy_spec l lists []) by exact Hl. simpl. rewrite lookup_insert_eq. simpl.
    unfold original_image.
    exists (<[fresh (dom lists) := []]> lists).
    split; [|apply insert_subseteq, fresh_list_unused].
    destruct (image_string_dict st !! session_id) as [string|]; [|reflexivity].
    now destruct (b64_to_pil string).
  - rewrite apply_actions_on_image_snoc_run. cbn [apply_actions_on_image_ref].
    rewrite Hl. simpl.
    destruct (cache st !! _); [eauto|].
    rewrite (deepcopy_spec l lists _ Hl). simpl. rewrite lookup_insert_eq. simpl.
    rewrite bool_decide_eq_false_2 by (rewrite length_app; simpl; lia).
    rewrite (list_pop_snoc _ _ items last_action) by apply lookup_insert_eq. simpl.
    rewrite insert_insert_eq.
    rewrite length_app in Hfuel. simpl in Hfuel.
    destruct (IH fuel (fresh (dom lists)) (<[fresh (dom lists) := items]> lists) st
                (lookup_insert_eq _ _ _) ltac:(lia)) as (lists' & -> & Hsub).
    simpl.
    exists lists'. split.
    + destruct (apply_actions_on_image session_id items filename image_signature st)
        as [st' [im_pil|e]]; simpl; [|reflexivity].
      now destruct (apply_last_action _ _ _ _ _ _ _).
    + etrans; [|exact Hsub]. apply insert_subseteq, fresh_list_unused.
Qed.

(** C9.  Resolving a stack leaves the caller's list object unchanged: the
    call works on a copy, so after it the caller's reference holds the same
    actions as before, as does every other list that existed; and the call
    returns, with the result of the replay of those actions. *)
Theorem caller_stack_unchanged
    fuel session_id action_stack filename image_signature
    (lists : gmap positive (list json)) (st : state Image) items :
  lists !! action_stack = Some items →
  (length items < fuel)%nat →
  ∃ lists' st' r,
    replay_ref fuel session_id action_stack filename image_signature lists st
    = Some (lists', st', r)
    ∧ (st', r) = apply_actions_on_image session_id items filename image_signature st
    ∧ lists' !! action_stack = Some items
    ∧ ∀ l other, lists !! l = Some other → lists' !! l = Some other.
Proof.
  intros Hl Hfuel.
  destruct (apply_actions_on_image_ref_sound session_id filename image_signature items
              fuel action_stack lists st Hl Hfuel) as (lists' & Hrun & Hsub).
  exists lists', (apply_actions_on_image session_id items filename image_signature st).1,
    (apply_actions_on_image session_id items filename image_signature st).2.
  split; [exact Hrun|]. split; [now destruct (apply_actions_on_image _ _ _ _ _)|].
  split; [exact (lookup_weaken _ _ _ _ Hl Hsub)|].
  intros l other Hother. exact (lookup_weaken _ _ _ _ Hother Hsub).
Qed.

End AliasingFacts.


(** ** Requests running side by side *)

Section WorkersFacts.
Context {Image Mask : Type}.
Variable size : Image → Z * Z.
Variable b64_to_pil : string → result Image.
Variable generate_lasso_mask : Image → json → result Mask.
Variable apply_filters : Image → zone Mask → json → string → result Image.
Variable apply_enhancements : Image → zone Mask → json → json → string → result Image.
Variable int_of_str : string → option Z.
Variable session_id : string.
Variable action_stack : list json.
Variable filename image_signature : option string.

Local Abbreviation worker_step :=
  (worker_step size b64_to_pil generate_lasso_mask apply_filters apply_enhancements
     int_of_str session_id action_stack filename image_signature).
Local Abbreviation world_step :=
  (world_step size b64_to_pil generate_lasso_mask apply_filters apply_enhancements
     int_of_str session_id action_stack filename image_signature).
Local Abbreviation run :=
  (run size b64_to_pil generate_lasso_mask apply_filters apply_enhancements
     int_of_str session_id action_stack filename image_signature).
Local Abbreviation apply_actions_on_image :=
  (apply_actions_on_image size b64_to_pil generate_lasso_mask apply_filters
     apply_enhancements int_of_str).
Local Abbreviation apply_last_action :=
  (apply_last_action size generate_lasso_mask apply_filters apply_enhancements int_of_str).
Local Abbreviation lone_result :=
  (lone_result size b64_to_pil generate_lasso_mask apply_filters apply_enhancements
     int_of_str session_id action_stack filename image_signature).
Local Abbreviation prefix_key :=
  (prefix_key session_id action_stack filename image_signature).
Local Abbreviation missed_above :=
  (missed_above (Image := Image) session_id action_stack filename image_signature).
Local Abbreviation worker_ok :=
  (worker_ok size b64_to_pil generate_lasso_mask apply_filters apply_enhancements
     int_of_str session_id action_stack filename image_signature).
Local Abbreviation shared_ok :=
  (shared_ok size b64_to_pil generate_lasso_mask apply_filters apply_enhancements
     int_of_str session_id action_stack filename image_signature).
Local Abbreviation pending := (pending (Image := Image) action_stack).
Local Abbreviation world_ok :=
  (world_ok size b64_to_pil generate_lasso_mask apply_filters apply_enhancements
     int_of_str session_id action_stack filename image_signature).
Local Abbreviation applies := (applies (Image := Image) action_stack).
Local Abbreviation applications :=
  (applications size b64_to_pil generate_lasso_mask apply_filters apply_enhancements
     int_of_str session_id action_stack filename image_signature).

Lemma prefix_key_inj i j :
  (i ≤ length action_stack)%nat → (j ≤ length action_stack)%nat →
  prefix_key i = prefix_key j → i = j.
Proof.
  intros Hi Hj [= Heq]. apply (f_equal length) in Heq.
  rewrite !length_take in Heq. lia.
Qed.

(** What a request alone obtains, prefix by prefix. *)
Lemma lone_result_hit (st0 : state Image) i rv :
  cache st0 !! prefix_key i = Some rv → lone_result st0 i = Ok rv.
Proof.
  intros Hget. unfold lone_result.
  now rewrite (replay_hit size b64_to_pil generate_lasso_mask apply_filters
                 apply_enhancements int_of_str _ _ _ _ _ _ Hget).
Qed.

Lemma lone_result_0 (st0 : state Image) :
  cache st0 !! prefix_key 0 = None →
  lone_result st0 0 = (original_image b64_to_pil session_id st0).2.
Proof.
  unfold lone_result, prefix_key. rewrite take_0. intros Hget.
  rewrite apply_actions_on_image_nil_run, Hget. unfold original_image.
  destruct (image_string_dict st0 !! session_id) as [string|]; [|reflexivity].
  now destruct (b64_to_pil string).
Qed.

Lemma lone_result_S (st0 : state Image) j last_action :
  action_stack !! j = Some last_action →
  cache st0 !! prefix_key (S j) = None →
  lone_result st0 (S j) = lone_result st0 j ≫= apply_last_action last_action.
Proof.
  unfold lone_result, prefix_key. intros Hj.
  rewrite (take_S_r _ _ _ Hj). intros Hget.
  rewrite apply_actions_on_image_snoc_run, Hget.
  destruct (apply_actions_on_image session_id (take j action_stack) filename
              image_signature st0) as [st1 [im_pil|e]]; [|reflexivity].
  simpl. now destruct (apply_last_action last_action im_pil).
Qed.

(** An exception below prefixes that were not cached is the exception of the
    whole stack. *)
Lemma lone_result_raise (st0 : state Image) i e :
  missed_above st0 i →
  lone_result st0 i = Raise e →
  ∀ k, (i + k ≤ length action_stack)%nat → lone_result st0 (i + k) = Raise e.
Proof.
  intros Hmiss Hraise k. induction k as [|k IH]; intros Hk.
  - now rewrite Nat.add_0_r.
  - destruct (lookup_lt_is_Some_2 action_stack (i + k) ltac:(lia)) as [last_action Hj].
    replace (i + S k)%nat with (S (i + k)) by lia.
    rewrite (lone_result_S st0 _ _ Hj) by (apply Hmiss; lia).
    now rewrite IH by lia.
Qed.

Lemma lone_result_raise_all (st0 : state Image) i e :
  (i ≤ length action_stack)%nat →
  missed_above st0 i →
  lone_result st0 i = Raise e →
  lone_result st0 (length action_stack) = Raise e.
Proof.
  intros Hi Hmiss Hraise.
  replace (length action_stack) with (i + (length action_stack - i))%nat by lia.
  apply lone_result_raise; [exact Hmiss|exact Hraise|lia].
Qed.

(** A step keeps the shared cache and the worker's image those of a request
    alone, and uses up one pending action when it applies one. *)
Lemma worker_step_ok (st0 : state Image) t (st : state Image) t' st' ran :
  worker_step t st = Some (t', st', ran) →
  shared_ok st0 st →
  worker_ok st0 t →
  shared_ok st0 st'
  ∧ worker_ok st0 t'
  ∧ (ran + pending t' ≤ pending t)%nat.
Proof.
  intros Hstep [Hstrings Hcache] Ht. destruct t as [i|i im_pil|i rv|e]; simpl in Hstep.
  - destruct Ht as [Hle Hmiss]. pose proof (Hcache i Hle) as Hi.
    destruct (cache st !! prefix_key i) as [rv|] eqn:Hget.
    + injection Hstep as <- <- <-. repeat split; try done; simpl; lia.
    + destruct i as [|j].
      * assert (Horig : (original_image b64_to_pil session_id st).2 = lone_result st0 0).
        { rewrite (lone_result_0 st0 Hi). unfold original_image. rewrite Hstrings.
          now destruct (image_string_dict st0 !! session_id). }
        assert (Hsame : (original_image b64_to_pil session_id st).1 = st).
        { unfold original_image. now destruct (image_string_dict st !! session_id). }
        destruct (original_image b64_to_pil session_id st) as [st1 [rv|e]];
          simpl in Horig, Hsame; subst st1; injection Hstep as <- <- <-.
        -- repeat split; try done; simpl; lia.
        -- repeat split; try done; simpl; try lia.
           now apply (lone_result_raise_all st0 0%nat).
      * injection Hstep as <- <- <-. repeat split; try done; simpl; try lia.
        intros k Hk. destruct (decide (k = S j)) as [->|Hne]; [exact Hi|].
        apply Hmiss. lia.
  - destruct (action_stack !! i) as [last_action|] eqn:Hi; [|discriminate].
    destruct Ht as (Hle & Hmiss & Hbuf). apply lookup_lt_Some in Hi as Hlt.
    assert (Hnext : lone_result st0 (S i) = apply_last_action last_action im_pil).
    { rewrite (lone_result_S st0 _ _ Hi) by (apply Hmiss; lia). now rewrite Hbuf. }
    destruct (apply_last_action last_action im_pil) as [rv|e] eqn:Hrv;
      injection Hstep as <- <- <-; repeat split; try done; simpl; try lia.
    + intros k Hk. apply Hmiss. lia.
    + apply (lone_result_raise_all st0 (S i)); [lia| |exact Hnext].
      intros k Hk. apply Hmiss. lia.
  - injection Hstep as <- <- <-. destruct Ht as (Hle & Hmiss & Hbuf).
    repeat split; try done; simpl; try lia.
    intros j Hj. destruct (decide (prefix_key i = prefix_key j)) as [Heq|Hne].
    + rewrite <- Heq, lookup_insert_eq.
      now rewrite <- (prefix_key_inj i j Hle Hj Heq).
    + rewrite lookup_insert_ne by exact Hne. exact (Hcache j Hj).
  - discriminate.
Qed.

Lemma sum_pending_insert (ws : list (worker Image)) n t t' :
  ws !! n = Some t →
  (sum_list (pending <$> <[n := t']> ws) + pending t
   = sum_list (pending <$> ws) + pending t')%nat.
Proof.
  generalize pending. intros p.
  revert n. induction ws as [|w ws IH]; intros [|n] Hn; try discriminate; simpl in *.
  - injection Hn as ->. clear IH. lia.
  - specialize (IH n Hn). unfold fmap in IH. lia.
Qed.

Lemma world_step_ok (st0 : state Image) n i w :
  world_ok st0 n w → world_ok st0 n (world_step i w).
Proof.
  intros (Hok & Hws & Hruns). unfold world_step.
  destruct (workers w !! i) as [t|] eqn:Hi; [|done].
  destruct (worker_step t (shared w)) as [[[t' st'] ran]|] eqn:Hstep; [|done].
  pose proof (proj1 (Forall_lookup _ _) Hws i t Hi) as Ht.
  destruct (worker_step_ok st0 t (shared w) t' st' ran Hstep Hok Ht)
    as (Hok' & Ht' & Hpend).
  repeat split; simpl; try done.
  - apply Hok'.
  - apply Hok'.
  - apply Forall_insert; done.
  - pose proof (sum_pending_insert (workers w) i t t' Hi). lia.
Qed.

Lemma run_ok (st0 : state Image) n schedule w :
  world_ok st0 n w → world_ok st0 n (run schedule w).
Proof.
  revert w. induction schedule as [|i schedule IH]; intros w Hw; [exact Hw|].
  simpl. apply IH. now apply world_step_ok.
Qed.

Lemma start_ok n (st : state Image) :
  world_ok st n (start (Image := Image) action_stack n st).
Proof.
  repeat split; simpl; try done.
  - intros i Hi. destruct (cache st !! prefix_key i) as [rv|] eqn:Hget; [|reflexivity].
    now apply lone_result_hit.
  - apply Forall_replicate. simpl. split; [lia|]. intros j Hj. lia.
  - rewrite fmap_replicate, sum_list_replicate. simpl. lia.
Qed.

(** The log of applications. *)
Local Abbreviation log_ok := (log_ok (Image := Image)).

Lemma world_step_workers_length i (w : world Image) :
  length (workers (world_step i w)) = length (workers w).
Proof.
  unfold world_step. destruct (workers w !! i) as [t|]; [|reflexivity].
  destruct (worker_step t (shared w)) as [[[t' st'] ran]|]; [|reflexivity].
  simpl. apply length_insert.
Qed.

Lemma run_workers_length schedule (w : world Image) :
  length (workers (run schedule w)) = length (workers w).
Proof.
  revert w. induction schedule as [|i schedule IH]; intros w; [reflexivity|].
  simpl. now rewrite IH, world_step_workers_length.
Qed.

Lemma world_step_counts m (w : world Image) :
  body_runs (world_step m w)
  = (body_runs w + length (match applies m w with Some i => [(m, i)] | None => [] end))%nat.
Proof.
  unfold world_step, applies.
  destruct (workers w !! m) as [[i|i im_pil|i rv|e]|]; simpl; try lia.
  - destruct (cache (shared w) !! prefix_key i); simpl; [lia|].
    destruct i; simpl; [|lia].
    destruct (original_image b64_to_pil session_id (shared w)) as [st1 [rv|e]]; simpl; lia.
  - destruct (action_stack !! i) as [last_action|]; simpl; [|lia].
    destruct (apply_last_action last_action im_pil); simpl; lia.
Qed.

Lemma run_counts schedule (w : world Image) :
  body_runs (run schedule w) = (body_runs w + length (applications schedule w))%nat.
Proof.
  revert w. induction schedule as [|m schedule IH]; intros w; simpl; [lia|].
  rewrite IH, world_step_counts, length_app. lia.
Qed.

Lemma world_step_log m (w : world Image) log :
  log_ok w log →
  log_ok (world_step m w)
    (log ++ match applies m w with Some i => [(m, i)] | None => [] end).
Proof.
  intros [Hnodup Hlog]. unfold world_step, applies.
  destruct (workers w !! m) as [t|] eqn:Hm; [|rewrite app_nil_r; now split].
  destruct (worker_step t (shared w)) as [[[t' st'] ran]|] eqn:Hstep.
  2:{ destruct t as [i|i im_pil|i rv|e]; simpl in Hstep; try discriminate.
      - destruct (cache (shared w) !! prefix_key i); [discriminate|].
        destruct i; [|discriminate].
        destruct (original_image b64_to_pil session_id (shared w)) as [st1 [rv|e]];
          discriminate.
      - destruct (action_stack !! i); [|rewrite app_nil_r; now split].
        destruct (apply_last_action _ im_pil); discriminate.
      - rewrite app_nil_r. now split. }
  assert (Hother : ∀ m' t0,
             m' ≠ m → workers w !! m' = Some t0 →
             <[m := t']> (workers w) !! m' = Some t0)
    by (intros m' t0 Hne Hw; now rewrite list_lookup_insert_ne).
  assert (Hself : <[m := t']> (workers w) !! m = Some t')
    by (apply list_lookup_insert_eq; now apply lookup_lt_Some in Hm).
  assert (Hkeep : ∀ extra,
             (∀ i, (m, i) ∈ log ++ extra → applied_before t' i) →
             NoDup (log ++ extra) →
             (∀ m' i, (m', i) ∈ extra → m' = m) →
             log_ok (World st' (<[m := t']> (workers w)) (body_runs w + ran))
               (log ++ extra)).
  { intros extra Hmine Hnd Hextra. split; [exact Hnd|]. simpl. intros m' i Hin.
    destruct (decide (m' = m)) as [->|Hne]; [exists t'; split; [exact Hself|now apply Hmine]|].
    apply elem_of_app in Hin as [Hin|Hin]; [|now apply Hextra in Hin].
    destruct (Hlog m' i Hin) as (t0 & Ht0 & Hb). exists t0. split; [|exact Hb].
    now apply (Hother m'). }
  assert (Hmine : ∀ i, (m, i) ∈ log → applied_before t i).
  { intros i Hin. destruct (Hlog m i Hin) as (t0 & Ht0 & Hb). congruence. }
  destruct t as [i|i im_pil|i rv|e]; simpl in Hstep.
  - apply Hkeep; [|now rewrite app_nil_r|intros ? ? Hin; now apply elem_of_nil in Hin].
    intros i0 Hin. rewrite app_nil_r in Hin. now destruct (Hmine i0 Hin).
  - destruct (action_stack !! i) as [last_action|] eqn:Hi; [|discriminate].
    assert (Hfresh : (m, i) ∉ log).
    { intros Hin. pose proof (Hmine i Hin) as Hb. simpl in Hb. lia. }
    assert (Hnd : NoDup (log ++ [(m, i)])).
    { apply list.NoDup_app. split; [exact Hnodup|]. split; [|apply list.NoDup_singleton].
      intros p Hp Hq. apply list_elem_of_singleton in Hq. now subst p. }
    assert (Hextra : ∀ m' i', (m', i') ∈ [(m, i)] → m' = m).
    { intros m' i' Hin. apply list_elem_of_singleton in Hin. congruence. }
    destruct (apply_last_action last_action im_pil) as [rv|e];
      injection Hstep as <- <- <-; (apply Hkeep; [|exact Hnd|exact Hextra]);
      intros i0 Hin; simpl; [|exact I].
    apply elem_of_app in Hin as [Hin|Hin].
    + pose proof (Hmine i0 Hin) as Hb. simpl in Hb. lia.
    + apply list_elem_of_singleton in Hin. injection Hin as ->. lia.
  - injection Hstep as <- <- <-.
    apply Hkeep; [|now rewrite app_nil_r|intros ? ? Hin; now apply elem_of_nil in Hin].
    intros i0 Hin. rewrite app_nil_r in Hin. exact (Hmine i0 Hin).
  - discriminate.
Qed.

Lemma run_log schedule :
  ∀ (w : world Image) log,
    log_ok w log → log_ok (run schedule w) (log ++ applications schedule w).
Proof.
  induction schedule as [|m schedule IH]; intros w log Hlog; simpl.
  - now rewrite app_nil_r.
  - rewrite app_assoc. apply IH. now apply world_step_log.
Qed.

(** Distinct workers, fewer than [n] of them, make at most [n] entries. *)
Lemma applications_per_action n i (log : list (nat * nat)) :
  NoDup log →
  (∀ m j, (m, j) ∈ log → (m < n)%nat) →
  (length (filter (λ p, p.2 = i) log) ≤ n)%nat.
Proof.
  intros Hnodup Hbound.
  assert (Hnd : NoDup ((filter (λ p, p.2 = i) log).*1)).
  { apply list.NoDup_fmap_2_strong; [|now apply list.NoDup_filter].
    intros [m1 j1] [m2 j2] H1 H2 Heq. apply list_elem_of_filter in H1 as [H1 _].
    apply list_elem_of_filter in H2 as [H2 _]. simpl in *. congruence. }
  assert (Hsub : (filter (λ p, p.2 = i) log).*1 ⊆+ seq 0 n).
  { apply list.NoDup_submseteq; [exact Hnd|]. intros m Hm.
    apply list_elem_of_fmap in Hm as ([m' j] & -> & Hin).
    apply list_elem_of_filter in Hin as [_ Hin]. apply elem_of_seq. simpl.
    specialize (Hbound m' j Hin). lia. }
  apply submseteq_length in Hsub. now rewrite length_fmap, length_seq in Hsub.
Qed.

Local Abbreviation alone :=
  (alone size b64_to_pil generate_lasso_mask apply_filters apply_enhancements
     int_of_str session_id action_stack filename image_signature).

Lemma alone_add k1 k2 t (st : state Image) ran :
  alone (k1 + k2) t st ran
  = let '(t1, st1, ran1) := alone k1 t st ran in alone k2 t1 st1 ran1.
Proof.
  revert t st ran. induction k1 as [|k1 IH]; intros t st ran; [reflexivity|].
  simpl. destruct (worker_step t st) as [[[t' st'] r]|] eqn:Hstep; [apply IH|].
  destruct k2; [reflexivity|]. simpl. now rewrite Hstep.
Qed.

(** The steps of a worker are the memoized recursion cut at the cache
    operations: a worker left alone ends where the call
    [apply_actions_on_image] on the prefix ends. *)
Lemma worker_alone_refines i :
  (i ≤ length action_stack)%nat →
  ∀ (st : state Image) ran,
    ∃ k ran',
      alone k (Lookup i) st ran
      = let out := apply_actions_on_image session_id (take i action_stack)
                     filename image_signature st in
        (match out.2 with Ok rv => Return i rv | Raise e => Failed e end, out.1, ran').
Proof.
  induction i as [|j IH]; intros Hle st ran.
  - rewrite take_0, apply_actions_on_image_nil_run.
    destruct (cache st !! (session_id, [], filename, image_signature)) as [rv|] eqn:Hget.
    { exists 1%nat, (ran + 0)%nat. simpl. unfold prefix_key. rewrite take_0. now rewrite Hget. }
    destruct (image_string_dict st !! session_id) as [string|] eqn:Hs.
    + destruct (b64_to_pil string) as [rv|e] eqn:Hd.
      * exists 2%nat, (ran + 0 + 0)%nat. simpl. unfold prefix_key, original_image. rewrite take_0.
        now rewrite Hget, Hs, Hd.
      * exists 1%nat, (ran + 0)%nat. simpl. unfold prefix_key, original_image. rewrite take_0.
        now rewrite Hget, Hs, Hd.
    + exists 1%nat, (ran + 0)%nat. simpl. unfold prefix_key, original_image. rewrite take_0.
      now rewrite Hget, Hs.
  - destruct (lookup_lt_is_Some_2 action_stack j ltac:(lia)) as [last_action Hj].
    assert (Hkey : prefix_key (S j)
                   = (session_id, take j action_stack ++ [last_action],
                      filename, image_signature))
      by (unfold prefix_key; now rewrite (take_S_r _ _ _ Hj)).
    rewrite (take_S_r _ _ _ Hj), apply_actions_on_image_snoc_run. rewrite <- Hkey.
    destruct (cache st !! prefix_key (S j)) as [rv|] eqn:Hget.
    { exists 1%nat, (ran + 0)%nat. simpl. now rewrite Hget. }
    destruct (IH ltac:(lia) st (ran + 0)%nat) as (k & ran1 & Hk).
    destruct (apply_actions_on_image session_id (take j action_stack) filename
                image_signature st) as [st1 [im_pil|e]]; simpl in Hk.
    + destruct (apply_last_action last_action im_pil) as [rv|e] eqn:Hrv.
      * exists (1 + (k + 2))%nat, (ran1 + 1 + 0)%nat.
        change (alone (1 + (k + 2)) (Lookup (S j)) st ran)
          with (match worker_step (Lookup (S j)) st with
                | Some (t', st', r) => alone (k + 2) t' st' (ran + r)
                | None => (Lookup (S j), st, ran)
                end).
        simpl worker_step. rewrite Hget, alone_add, Hk. simpl. now rewrite Hj, Hrv.
      * exists (1 + (k + 1))%nat, (ran1 + 1)%nat.
        change (alone (1 + (k + 1)) (Lookup (S j)) st ran)
          with (match worker_step (Lookup (S j)) st with
                | Some (t', st', r) => alone (k + 1) t' st' (ran + r)
                | None => (Lookup (S j), st, ran)
                end).
        simpl worker_step. rewrite Hget, alone_add, Hk. simpl. now rewrite Hj, Hrv.
    + exists (1 + k)%nat, ran1.
      change (alone (1 + k) (Lookup (S j)) st ran)
        with (match worker_step (Lookup (S j)) st with
              | Some (t', st', r) => alone k t' st' (ran + r)
              | None => (Lookup (S j), st, ran)
              end).
      simpl worker_step. now rewrite Hget, Hk.
Qed.

(** C8 (amended).  Workers answering the same request on one shared cache
    are not coalesced: each one that misses applies the actions itself.
    Whatever the schedule and whatever the cache holds at the start, every
    worker that finishes returns the image, or raises the exception, that a
    request alone obtains in the starting state; no worker applies an action
    twice, so [n] workers apply each action of the stack at most [n] times;
    the counter of the world counts these applications. *)
Theorem workers_agree n schedule (st : state Image) :
  let w := run schedule (start action_stack n st) in
  let log := applications schedule (start action_stack n st) in
  let alone_result :=
    (apply_actions_on_image session_id action_stack filename image_signature st).2 in
  (∀ m rv, workers w !! m = Some (Return (length action_stack) rv) → alone_result = Ok rv)
  ∧ (∀ m e, workers w !! m = Some (Failed e) → alone_result = Raise e)
  ∧ NoDup log
  ∧ (∀ i, (length (filter (λ p, p.2 = i) log) ≤ n)%nat)
  ∧ body_runs w = length log.
Proof.
  intros w log alone_result.
  destruct (run_ok st n schedule _ (start_ok n st)) as (_ & Hws & _). fold w in Hws.
  assert (Hwhole : lone_result st (length action_stack) = alone_result)
    by (unfold lone_result; now rewrite take_ge by lia).
  assert (Hlog : log_ok w ([] ++ log)).
  { apply run_log. split; [apply base.NoDup_nil_2|]. intros m i Hin.
    now apply elem_of_nil in Hin. }
  simpl in Hlog. destruct Hlog as [Hnodup Hlog].
  split; [|split; [|split; [exact Hnodup|split]]].
  - intros m rv Hm. pose proof (proj1 (Forall_lookup _ _) Hws m _ Hm) as (_ & _ & Hbuf).
    now rewrite <- Hwhole.
  - intros m e Hm. pose proof (proj1 (Forall_lookup _ _) Hws m _ Hm) as Hbuf.
    simpl in Hbuf. now rewrite <- Hwhole.
  - intros i. apply applications_per_action; [exact Hnodup|].
    intros m j Hin. destruct (Hlog m j Hin) as (t & Ht & _).
    apply lookup_lt_Some in Ht. unfold w in Ht.
    rewrite run_workers_length in Ht. simpl in Ht. now rewrite length_replicate in Ht.
  - unfold w, log. now rewrite run_counts.
Qed.

End WorkersFacts.


(** ** Concrete requests *)

Section Requests.
Import Adapter.

(** Resolving the empty stack on a fresh server stores the decoded image
    under the arguments of the call: the base case is cached like any other
    prefix. *)
Lemma empty_stack_is_cached :
  let out := Fixture.apply_actions_on_image "s1" [] (Some "a.png") (Some "AB/CD")
               Fixture.server in
  out.2 = Ok [[65; 66]; [67; 68]]
  ∧ cache out.1 !! ("s1", [], Some "a.png", Some "AB/CD") = Some [[65; 66]; [67; 68]]
  ∧ cache out.1 !! ("s1", [], Some "a.png", Some "AB/CD") ≠ None.
Proof. vm_compute. repeat split; discriminate. Qed.

(** A stack of two actions built one action at a time, with room for two
    nested calls: the warm cache answers it, and after the entries were
    evicted resolving it again runs out of room. *)
Lemma eviction_exhausts_recursion :
  let stack := [Fixture.invert_all; Fixture.invert_all] in
  let resolve := Fixture.apply_actions_on_image_within 2 "s1" in
  let first := resolve [Fixture.invert_all] None None Fixture.server in
  let warm := resolve stack None None first.1 in
  let evicted :=
    [("s1", [], None, None); ("s1", [Fixture.invert_all], None, None);
     ("s1", stack, None, None)] in
  first.2 = Ok [[190; 189]; [188; 187]]
  ∧ warm.2 = Ok [[65; 66]; [67; 68]]
  ∧ (resolve stack None None warm.1).2 = Ok [[65; 66]; [67; 68]]
  ∧ (resolve stack None None (foldr cache_evict warm.1 evicted)).2 = Raise RecursionError
  ∧ (resolve stack None None (foldr cache_evict warm.1 evicted)).2 ≠ warm.2.
Proof. vm_compute. repeat split; discriminate. Qed.

Lemma cache_transparent_witness :
  let resolve := Fixture.apply_actions_on_image_within 2 "s1" [Fixture.invert_all] None None in
  let cold := resolve (cache_clear Fixture.server) in
  (length [Fixture.invert_all] < 2)%nat
  ∧ (resolve (foldr cache_evict cold.1 [("s1", [], None, None)])).2 = cold.2.
Proof.
  intros resolve cold.
  assert (H : (length [Fixture.invert_all] < 2)%nat) by (simpl; lia).
  split; [exact H|].
  unfold cold, resolve, Fixture.apply_actions_on_image_within.
  exact (proj1 (proj2 (proj2 (proj2
           (cache_transparent size Fixture.b64_to_pil generate_lasso_mask
              (apply_filters Fixture.transform Fixture.supported)
              (apply_enhancements Fixture.transform Fixture.supported)
              Fixture.int_of_str 2 "s1" [Fixture.invert_all] None None Fixture.server
              [("s1", [], None, None)] H))))).
Defined.

Lemma replay_deterministic_witness :
  let st := Fixture.server in
  let st' := State {[ ("s1", [Fixture.invert_all], None, None) := [[0]] ]}
                   {[ "s1" := "AB/CD"; "s2" := "Z" ]} in
  let resolve := Fixture.apply_actions_on_image "s1" [Fixture.invert_all] None None in
  image_string_dict st !! "s1" = image_string_dict st' !! "s1"
  ∧ (resolve (cache_clear st)).2 = (resolve (cache_clear st')).2.
Proof.
  intros st st' resolve.
  assert (H : image_string_dict st !! "s1" = image_string_dict st' !! "s1")
    by (vm_compute; reflexivity).
  split; [exact H|].
  exact (proj1 (replay_deterministic size Fixture.b64_to_pil generate_lasso_mask
                  (apply_filters Fixture.transform Fixture.supported)
                  (apply_enhancements Fixture.transform Fixture.supported)
                  Fixture.int_of_str "s1" [Fixture.invert_all] [Fixture.invert_all]
                  None None st st' H)).
Defined.

(** A rectangle reaching outside the image is not clamped: on the 100 x 100
    image the y-range [-10, 150] resolves to the rows -50 to 110. *)
Lemma rectangle_not_clamped :
  size Fixture.blank = (100, 100)
  ∧ Fixture.selection_of Fixture.blank (Fixture.rectangle 10 50 (-10) 150)
    = Ok ("select", Box 10 (-50) 50 110)
  ∧ ¬ (0 ≤ -50 ∧ 110 ≤ 100).
Proof. split; [reflexivity|]. split; [reflexivity|]. lia. Qed.

Lemma rectangle_flip_witness :
  dict_get "lassoPoints"
    [("range", JObj [("x", JArr [JInt 10; JInt 50]); ("y", JArr [JInt 20; JInt 80])])] = None
  ∧ Fixture.selection_of Fixture.blank (Fixture.rectangle 10 50 20 80) = Ok ("select", Box 10 20 50 80).
Proof.
  split; [reflexivity|].
  exact (rectangle_flip size generate_lasso_mask Fixture.int_of_str Fixture.blank
           [("range", JObj [("x", JArr [JInt 10; JInt 50]); ("y", JArr [JInt 20; JInt 80])])]
           (JObj [("x", JArr [JInt 10; JInt 50]); ("y", JArr [JInt 20; JInt 80])])
           (JArr [JInt 10; JInt 50]) (JArr [JInt 20; JInt 80]) 10 50 20 80
           eq_refl eq_refl eq_refl eq_refl eq_refl eq_refl).
Defined.

(** An action of a kind that does not exist, over a rectangle whose bounds
    are not numbers, is appended: the call returns the longer stack. *)
Lemma append_accepts_malformed :
  let malformed :=
    JObj [("range", JObj [("x", JArr [JStr "a"; JNull]); ("y", JStr "top")])] in
  let stack' := add_action_to_stack [Fixture.invert_all] (JStr "invert") "sepia" malformed in
  stack'
  = [Fixture.invert_all;
     JObj [("operation", JStr "invert"); ("type", JStr "sepia"); ("selectedData", malformed)]]
  ∧ stack' ≠ [Fixture.invert_all].
Proof. split; [reflexivity|discriminate]. Qed.

Lemma append_never_validates_witness :
  let ys := JArr [JStr "top"; JStr "bottom"] in
  let malformed := JObj [("range", JObj [("x", JArr [JInt 0; JInt 1]); ("y", ys)])] in
  unpack2_int Fixture.int_of_str ys = Raise ValueError
  ∧ add_action_to_stack_py (JArr [Fixture.invert_all]) (JStr "invert") "filter" malformed
    = Ok (JArr ([Fixture.invert_all]
                ++ [JObj [("operation", JStr "invert"); ("type", JStr "filter");
                          ("selectedData", malformed)]]))
  ∧ Fixture.apply_last_action
      (JObj [("operation", JStr "invert"); ("type", JStr "filter");
             ("selectedData", malformed)])
      [[65; 66]; [67; 68]]
    = Raise ValueError
  ∧ Fixture.apply_last_action
      (JObj [("operation", JStr "invert"); ("type", JStr "sepia"); ("selectedData", JNull)])
      [[65; 66]; [67; 68]]
    = Ok [[65; 66]; [67; 68]].
Proof.
  intros ys malformed.
  assert (H : unpack2_int Fixture.int_of_str ys = Raise ValueError)
    by (vm_compute; reflexivity).
  pose proof (append_never_validates size generate_lasso_mask
                (apply_filters Fixture.transform Fixture.supported)
                (apply_enhancements Fixture.transform Fixture.supported)
                Fixture.int_of_str [Fixture.invert_all] (JStr "invert") "filter" JNull
                [[65; 66]; [67; 68]] (JArr [JInt 0; JInt 1]) ys ValueError H)
    as (_ & _ & Happ & Hstep & _).
  pose proof (append_never_validates size generate_lasso_mask
                (apply_filters Fixture.transform Fixture.supported)
                (apply_enhancements Fixture.transform Fixture.supported)
                Fixture.int_of_str [Fixture.invert_all] (JStr "invert") "sepia" JNull
                [[65; 66]; [67; 68]] (JArr [JInt 0; JInt 1]) ys ValueError H)
    as (_ & _ & _ & _ & Hkind & _).
  split; [exact H|]. split; [exact Happ|]. split; [exact Hstep|].
  exact (Hkind ltac:(discriminate) ltac:(discriminate)).
Defined.

(** Two stacks that Python finds equal and that are encoded differently: the
    keys of the range were inserted in a different order. *)
Lemma key_order_changes_encoding :
  py_eq (JArr [Fixture.invert_box_xy]) (JArr [Fixture.invert_box_yx]) = true
  ∧ json_dumps (JArr [Fixture.invert_box_xy]) ≠ json_dumps (JArr [Fixture.invert_box_yx]).
Proof. split; [vm_compute; reflexivity|discriminate]. Qed.

Lemma stack_serialization_roundtrip_witness :
  json_wf (JArr [Fixture.invert_box_xy]) = true
  ∧ json_wf (JArr [Fixture.invert_box_yx]) = true
  ∧ json_loads (json_dumps (JArr [Fixture.invert_box_xy])) = Ok (JArr [Fixture.invert_box_xy]).
Proof.
  assert (H1 : json_wf (JArr [Fixture.invert_box_xy]) = true) by (vm_compute; reflexivity).
  assert (H2 : json_wf (JArr [Fixture.invert_box_yx]) = true) by (vm_compute; reflexivity).
  split; [exact H1|]. split; [exact H2|].
  exact (proj1 (stack_serialization_roundtrip [Fixture.invert_box_xy] [Fixture.invert_box_yx]
                  H1 H2)).
Defined.

Lemma operation_frame_witness :
  Fixture.apply_last_action Fixture.invert_box_xy [[65; 66]; [67; 68]]
  = Ok [[65; 66]; [188; 68]]
  ∧ ∃ selectedData selection_mode region,
      py_getitem Fixture.invert_box_xy "selectedData" = Ok selectedData
      ∧ Fixture.selection_of [[65; 66]; [67; 68]] selectedData = Ok (selection_mode, region)
      ∧ (∀ x y, in_zone region x y = false →
                pixel [[65; 66]; [188; 68]] x y = pixel [[65; 66]; [67; 68]] x y)
      ∧ ((∀ x y, in_zone region x y = false) → [[65; 66]; [188; 68]] = [[65; 66]; [67; 68]]).
Proof.
  assert (H : Fixture.apply_last_action Fixture.invert_box_xy [[65; 66]; [67; 68]]
              = Ok [[65; 66]; [188; 68]]) by (vm_compute; reflexivity).
  split; [exact H|].
  exact (operation_frame Fixture.transform Fixture.supported Fixture.int_of_str
           Fixture.invert_box_xy [[65; 66]; [67; 68]] [[65; 66]; [188; 68]] H).
Defined.

Lemma fixture_server_ok :
  cache_ok size Fixture.b64_to_pil generate_lasso_mask
    (apply_filters Fixture.transform Fixture.supported)
    (apply_enhancements Fixture.transform Fixture.supported) Fixture.int_of_str Fixture.server.
Proof. intros sid stack fn sig rv. simpl. rewrite lookup_empty. discriminate. Defined.

(** Two workers, one request, an empty cache: both miss before either stores,
    and the action is applied twice. *)
Lemma two_workers_apply_twice :
  let w := Fixture.run [0; 1; 0; 1; 0; 1; 0; 1; 0; 1]%nat Fixture.two_workers in
  workers w = [Return 1 [[190; 189]; [188; 187]]; Return 1 [[190; 189]; [188; 187]]]
  ∧ body_runs w = 2%nat
  ∧ body_runs w ≠ 1%nat.
Proof. vm_compute. repeat split; discriminate. Qed.

Lemma workers_agree_witness :
  let schedule := [0; 1; 0; 1; 0; 1; 0; 1; 0; 1]%nat in
  let alone_result :=
    (Fixture.apply_actions_on_image "s1" [Fixture.invert_all] None None Fixture.server).2 in
  alone_result = Ok [[190; 189]; [188; 187]]
  ∧ ∀ m rv,
      workers (Fixture.run schedule Fixture.two_workers) !! m = Some (Return 1 rv) →
      alone_result = Ok rv.
Proof.
  intros schedule alone_result. split; [vm_compute; reflexivity|].
  unfold alone_result, schedule, Fixture.run, Fixture.two_workers,
    Fixture.apply_actions_on_image.
  exact (proj1 (workers_agree size Fixture.b64_to_pil generate_lasso_mask
                  (apply_filters Fixture.transform Fixture.supported)
                  (apply_enhancements Fixture.transform Fixture.supported) Fixture.int_of_str
                  "s1" [Fixture.invert_all] None None 2 [0; 1; 0; 1; 0; 1; 0; 1; 0; 1]%nat
                  Fixture.server)).
Defined.

Lemma caller_stack_unchanged_witness :
  let lists : gmap positive (list json) := {[ 1%positive := [Fixture.invert_all] ]} in
  lists !! 1%positive = Some [Fixture.invert_all]
  ∧ ∃ lists' st' r,
      Fixture.apply_actions_on_image_ref 2 "s1" 1%positive None None lists Fixture.server
      = Some (lists', st', r)
      ∧ (st', r) = Fixture.apply_actions_on_image "s1" [Fixture.invert_all] None None
                     Fixture.server
      ∧ lists' !! 1%positive = Some [Fixture.invert_all]
      ∧ ∀ l other, lists !! l = Some other → lists' !! l = Some other.
Proof.
  intros lists.
  assert (H : lists !! 1%positive = Some [Fixture.invert_all]) by (vm_compute; reflexivity).
  split; [exact H|].
  exact (caller_stack_unchanged size Fixture.b64_to_pil generate_lasso_mask
           (apply_filters Fixture.transform Fixture.supported)
           (apply_enhancements Fixture.transform Fixture.supported) Fixture.int_of_str
           2 "s1" 1%positive None None lists Fixture.server [Fixture.invert_all] H
           ltac:(simpl; lia)).
Defined.

End Requests.

(** * Further properties *)

(** ** Dicts and the two display callbacks *)

Section DisplayFacts.

Lemma dict_get_set_eq k v members : dict_get k (dict_set k v members) = Some v.
Proof.
  induction members as [|[k' v'] members IH]; simpl.
  - now rewrite String.eqb_refl.
  - destruct (String.eqb_spec k k') as [->|Hne]; simpl.
    + now rewrite String.eqb_refl.
    + destruct (String.eqb_spec k k'); [done|exact IH].
Qed.

Lemma dict_get_set_ne k k' v members :
  k ≠ k' → dict_get k' (dict_set k v members) = dict_get k' members.
Proof.
  intros Hne. induction members as [|[k0 v0] members IH]; simpl.
  - destruct (String.eqb_spec k' k); [congruence|reflexivity].
  - destruct (String.eqb_spec k k0) as [->|Hne0]; simpl.
    + destruct (String.eqb_spec k' k0); [congruence|reflexivity].
    + destruct (String.eqb_spec k' k0); [reflexivity|exact IH].
Qed.

Lemma dict_set_set k v v' members :
  dict_set k v' (dict_set k v members) = dict_set k v' members.
Proof.
  induction members as [|[k0 v0] members IH]; simpl.
  - now rewrite String.eqb_refl.
  - destruct (String.eqb_spec k k0) as [->|Hne]; simpl.
    + now rewrite String.eqb_refl.
    + destruct (String.eqb_spec k k0); [done|]. now rewrite IH.
Qed.

Lemma dict_set_keys {A} (f : string → A) k v members :
  is_Some (dict_get k members) →
  map (λ kv, f kv.1) (dict_set k v members) = map (λ kv, f kv.1) members.
Proof.
  induction members as [|[k0 v0] members IH]; simpl; [intros [? [=]]|].
  destruct (String.eqb_spec k k0) as [->|Hne]; simpl; [reflexivity|].
  intros Hsome. now rewrite IH.
Qed.

(** X1.  When [update_selection_mode] returns for a truthy figure, the
    figure it returns reads [selection_mode] at
    [figure['layout']['dragmode']], every other key of the figure reads as
    before, and so does every other key of its layout. *)
Theorem dragmode_is_set selection_mode figure figure' layout :
  py_truthy figure = true →
  py_getitem figure "layout" = Ok layout →
  update_selection_mode selection_mode figure = Ok figure' →
  (py_getitem figure' "layout" ≫= λ l, py_getitem l "dragmode") = Ok selection_mode
  ∧ (∀ k, k ≠ "layout" → py_getitem figure' k = py_getitem figure k)
  ∧ (∀ k, k ≠ "dragmode" →
          (py_getitem figure' "layout" ≫= λ l, py_getitem l k) = py_getitem layout k).
Proof.
  intros Htruthy Hlayout. unfold update_selection_mode. rewrite Htruthy, Hlayout. simpl.
  destruct figure as [| | | | | |members]; try discriminate.
  destruct layout as [| | | | | |fields]; try discriminate. simpl.
  intros [= <-]. simpl. rewrite dict_get_set_eq. simpl. rewrite dict_get_set_eq.
  split; [reflexivity|]. split.
  - intros k Hk. now rewrite dict_get_set_ne by congruence.
  - intros k Hk. now rewrite dict_get_set_ne by congruence.
Qed.

(** X2.  Setting the selection mode twice is setting it to the second mode:
    the figure, or the exception, is the one of the second call alone. *)
Theorem dragmode_last_wins mode1 mode2 figure :
  (update_selection_mode mode1 figure ≫= update_selection_mode mode2)
  = update_selection_mode mode2 figure.
Proof.
  unfold update_selection_mode.
  destruct (py_truthy figure) eqn:Htruthy; simpl; [|now rewrite Htruthy].
  destruct figure as [| | | | | |members]; try reflexivity. simpl.
  destruct (dict_get "layout" members) as [layout|] eqn:Hlayout; [|reflexivity]. simpl.
  destruct layout as [| | | | | |fields]; try reflexivity. simpl.
  assert (Hne : py_truthy (JObj (dict_set "layout" (JObj (dict_set "dragmode" mode1 fields))
                                   members)) = true)
    by (destruct members as [|[k v] members]; cbn [dict_set]; [reflexivity|];
        now destruct (String.eqb "layout" k)).
  simpl in Hne. rewrite Hne, dict_get_set_eq. simpl.
  now rewrite !dict_set_set.
Qed.

(** X3.  [show_slider_enhancement_factor] fails exactly when the style is
    not a dict; otherwise the style it returns reads ["block"] at [display]
    when an enhancement is selected and ["none"] when none is, every other
    key reads as before, and the keys keep their order when [display] was
    there. *)
Theorem slider_style_is_set value style :
  match show_slider_enhancement_factor value style with
  | Ok style' =>
      py_getitem style' "display" = Ok (JStr (if py_truthy value then "block" else "none"))
      ∧ (∀ k, k ≠ "display" → py_getitem style' k = py_getitem style k)
      ∧ (is_ok (py_getitem style "display") = true →
         py_iter style' = py_iter style)
  | Raise e => e = TypeError ∧ ∀ members, style ≠ JObj members
  end.
Proof.
  unfold show_slider_enhancement_factor.
  destruct style as [| | | | | |members];
    try (destruct (py_truthy value); simpl; (split; [reflexivity|]); intros ? ?;
         discriminate).
  unfold py_setitem, py_getitem, py_iter.
  destruct (py_truthy value); cbv beta iota; rewrite dict_get_set_eq;
    (split; [reflexivity|]); (split; [intros k Hk; now rewrite dict_get_set_ne by congruence|]);
    intros Hsome; rewrite (dict_set_keys JStr); try reflexivity;
    destruct (dict_get "display" members); eauto; discriminate.
Qed.

Lemma dragmode_is_set_witness :
  let figure :=
    JObj [("data", JArr []);
          ("layout", JObj [("dragmode", JStr "select"); ("height", JInt 400)])] in
  py_truthy figure = true
  ∧ py_getitem figure "layout" = Ok (JObj [("dragmode", JStr "select"); ("height", JInt 400)])
  ∧ update_selection_mode (JStr "lasso") figure
    = Ok (JObj [("data", JArr []);
                ("layout", JObj [("dragmode", JStr "lasso"); ("height", JInt 400)])])
  ∧ (py_getitem
       (JObj [("data", JArr []);
              ("layout", JObj [("dragmode", JStr "lasso"); ("height", JInt 400)])]) "layout"
     ≫= λ l, py_getitem l "dragmode") = Ok (JStr "lasso").
Proof.
  intros figure.
  split; [reflexivity|]. split; [reflexivity|]. split; [reflexivity|].
  exact (proj1 (dragmode_is_set (JStr "lasso") figure _ _ eq_refl eq_refl eq_refl)).
Defined.

End DisplayFacts.

(** ** More about the replay and its cache *)

Section ReplayFacts.
Context {Image Mask : Type}.
Variable size : Image → Z * Z.
Variable b64_to_pil : string → result Image.
Variable generate_lasso_mask : Image → json → result Mask.
Variable apply_filters : Image → zone Mask → json → string → result Image.
Variable apply_enhancements : Image → zone Mask → json → json → string → result Image.
Variable int_of_str : string → option Z.

Local Abbreviation apply_actions_on_image :=
  (apply_actions_on_image size b64_to_pil generate_lasso_mask apply_filters
     apply_enhancements int_of_str).
Local Abbreviation apply_last_action :=
  (apply_last_action size generate_lasso_mask apply_filters apply_enhancements int_of_str).
Local Abbreviation resolved_buffer :=
  (resolved_buffer size b64_to_pil generate_lasso_mask apply_filters
     apply_enhancements int_of_str).
Local Abbreviation cache_ok :=
  (cache_ok size b64_to_pil generate_lasso_mask apply_filters
     apply_enhancements int_of_str).

Lemma snoc_not_prefix {A} (l : list A) x i : l ++ [x] ≠ take i l.
Proof.
  intros Heq. apply (f_equal length) in Heq.
  rewrite length_app, length_take in Heq. simpl in Heq. lia.
Qed.

(** A replay keeps the image strings and every cache entry, and what it adds
    is keyed by a prefix of its stack. *)
Lemma replay_touches session_id filename image_signature action_stack :
  ∀ st : state Image,
    let out := apply_actions_on_image session_id action_stack filename image_signature st in
    image_string_dict out.1 = image_string_dict st
    ∧ cache st ⊆ cache out.1
    ∧ ∀ key rv,
        cache out.1 !! key = Some rv →
        cache st !! key = Some rv
        ∨ ∃ i, (i ≤ length action_stack)%nat
               ∧ key = (session_id, take i action_stack, filename, image_signature).
Proof.
  induction action_stack as [|last_action action_stack IH] using rev_ind; intros st.
  - rewrite apply_actions_on_image_nil_run.
    destruct (cache st !! _) eqn:Hget; simpl; [by eauto|].
    destruct (image_string_dict st !! session_id) as [string|]; simpl; [|by eauto].
    destruct (b64_to_pil string) as [rv|e]; simpl; [|by eauto].
    split; [reflexivity|]. split; [now apply insert_subseteq|].
    intros key rv'. rewrite lookup_insert. case_decide as Hkey; [|by eauto].
    intros _. right. exists 0%nat. now subst key.
  - rewrite apply_actions_on_image_snoc_run.
    destruct (cache st !! _) eqn:Hget; simpl; [by eauto|].
    specialize (IH st). simpl in IH.
    destruct (apply_actions_on_image session_id action_stack filename image_signature st)
      as [st1 r]. simpl in IH. destruct IH as (Hs & Hsub & Hnew).
    assert (Hkeep : ∀ key rv,
               cache st1 !! key = Some rv →
               cache st !! key = Some rv
               ∨ ∃ i, (i ≤ length (action_stack ++ [last_action]))%nat
                      ∧ key = (session_id, take i (action_stack ++ [last_action]),
                               filename, image_signature)).
    { intros key rv Hrv. destruct (Hnew key rv Hrv) as [Hold|(i & Hi & ->)]; [by left|].
      right. exists i. rewrite length_app. simpl. split; [lia|].
      now rewrite take_app_le by lia. }
    destruct r as [im_pil|e]; simpl; [|by eauto].
    destruct (apply_last_action last_action im_pil) as [rv|e]; simpl; [|by eauto].
    split; [exact Hs|].
    assert (Hfree : cache st1 !! (session_id, action_stack ++ [last_action],
                                  filename, image_signature) = None).
    { destruct (cache st1 !! _) as [old|] eqn:Hold; [|reflexivity].
      destruct (Hnew _ _ Hold) as [Hst|(i & _ & Heq)]; [congruence|].
      injection Heq as Heq. now apply snoc_not_prefix in Heq. }
    split; [etrans; [exact Hsub|now apply insert_subseteq]|].
    intros key rv'. rewrite lookup_insert. case_decide as Hkey; [|by eauto].
    intros _. right. exists (length (action_stack ++ [last_action])).
    split; [lia|]. subst key. now rewrite take_ge by lia.
Qed.

(** X4.  A replay writes to the cache under its own arguments only and
    never touches the image strings: an entry that is in the cache after the
    call and was not there before is keyed by the call's session, filename
    and signature and by a prefix of its stack, and a call that raises has
    written no entry under its own stack. *)
Theorem replay_writes_own_prefixes
    session_id action_stack filename image_signature (st : state Image) :
  let out := apply_actions_on_image session_id action_stack filename image_signature st in
  image_string_dict out.1 = image_string_dict st
  ∧ (∀ key rv,
       cache out.1 !! key = Some rv →
       cache st !! key = None →
       ∃ i, (i ≤ length action_stack)%nat
            ∧ key = (session_id, take i action_stack, filename, image_signature))
  ∧ (is_ok out.2 = false →
     cache st !! (session_id, action_stack, filename, image_signature) = None
     ∧ cache out.1 !! (session_id, action_stack, filename, image_signature) = None).
Proof.
  destruct (replay_touches session_id filename image_signature action_stack st)
    as (Hs & Hsub & Hnew).
  split; [exact Hs|]. split.
  - intros key rv Hrv Hnone. destruct (Hnew key rv Hrv) as [Hold|Hi]; [congruence|exact Hi].
  - clear Hs Hsub Hnew.
    destruct action_stack as [|last_action action_stack _] using rev_ind.
    + rewrite apply_actions_on_image_nil_run.
      destruct (cache st !! _) eqn:Hget; [discriminate|].
      destruct (image_string_dict st !! session_id); [|now intros _].
      destruct (b64_to_pil _); [discriminate|now intros _].
    + rewrite apply_actions_on_image_snoc_run.
      destruct (cache st !! _) eqn:Hget; [discriminate|].
      pose proof (replay_touches session_id filename image_signature action_stack st)
        as (_ & _ & Hnew).
      destruct (apply_actions_on_image session_id action_stack filename image_signature st)
        as [st1 r]. simpl in Hnew.
      assert (Hfree : cache st1 !! (session_id, action_stack ++ [last_action],
                                    filename, image_signature) = None).
      { destruct (cache st1 !! _) as [old|] eqn:Hold; [|reflexivity].
        destruct (Hnew _ _ Hold) as [Hst|(i & _ & Heq)]; [congruence|].
        injection Heq as Heq. now apply snoc_not_prefix in Heq. }
      destruct r as [im_pil|e]; [|now intros _].
      destruct (apply_last_action last_action im_pil); [discriminate|now intros _].
Qed.

(** A replay that returns an image, started where no prefix of the stack is
    cached, leaves every prefix cached. *)
Lemma replay_caches_prefixes session_id filename image_signature action_stack :
  ∀ (st st' : state Image) rv,
    (∀ i, (i ≤ length action_stack)%nat →
          cache st !! (session_id, take i action_stack, filename, image_signature) = None) →
    apply_actions_on_image session_id action_stack filename image_signature st = (st', Ok rv) →
    ∀ i, (i ≤ length action_stack)%nat →
         is_Some (cache st' !! (session_id, take i action_stack, filename, image_signature)).
Proof.
  induction action_stack as [|last_action action_stack IH] using rev_ind;
    intros st st' rv Hcold Hrun i Hi.
  - apply replay_stores in Hrun. simpl in Hi. replace i with 0%nat by lia. simpl. eauto.
  - pose proof (replay_stores _ _ _ _ _ _ _ _ _ _ _ _ _ Hrun) as Htop.
    rewrite apply_actions_on_image_snoc_run in Hrun.
    rewrite length_app in Hi, Hcold. simpl in Hi, Hcold.
    pose proof (Hcold (S (length action_stack)) ltac:(lia)) as Hmiss.
    rewrite take_ge in Hmiss by (rewrite length_app; simpl; lia). rewrite Hmiss in Hrun.
    destruct (apply_actions_on_image session_id action_stack filename image_signature st)
      as [st1 [im_pil|e]] eqn:Hinner; [|discriminate].
    destruct (apply_last_action last_action im_pil) as [rv'|e]; [|discriminate].
    injection Hrun as <- <-.
    destruct (decide (i = S (length action_stack))) as [->|Hne].
    + rewrite take_ge by (rewrite length_app; simpl; lia). eauto.
    + rewrite take_app_le by lia. simpl.
      rewrite lookup_insert_ne by (intros [= Heq]; now apply snoc_not_prefix in Heq).
      apply (IH st st1 im_pil); [|exact Hinner|lia].
      intros j Hj. specialize (Hcold j ltac:(lia)). now rewrite take_app_le in Hcold by lia.
Qed.

(** X5.  After a replay from an empty cache has returned an image, resolving
    any prefix of the stack, as an undo does, is a hit: it returns the buffer
    of the prefix and leaves the server state as it is. *)
Theorem undo_is_hit
    session_id action_stack filename image_signature (st st' : state Image) rv i :
  apply_actions_on_image session_id action_stack filename image_signature (cache_clear st)
  = (st', Ok rv) →
  ∃ rv_i,
    resolved_buffer (image_string_dict st) session_id (take i action_stack) = Ok rv_i
    ∧ apply_actions_on_image session_id (take i action_stack) filename image_signature st'
      = (st', Ok rv_i).
Proof.
  intros Hrun.
  pose proof (replay_sound size b64_to_pil generate_lasso_mask apply_filters
                apply_enhancements int_of_str session_id filename image_signature
                action_stack (cache_clear st)
                (cache_ok_clear size b64_to_pil generate_lasso_mask apply_filters
                   apply_enhancements int_of_str st)) as (Hs & Hok & _).
  rewrite Hrun in Hs, Hok. simpl in Hs, Hok.
  assert (Hcached : is_Some (cache st' !! (session_id, take i action_stack,
                                           filename, image_signature))).
  { destruct (decide (i ≤ length action_stack)%nat) as [Hi|Hi].
    - apply (replay_caches_prefixes session_id filename image_signature action_stack
               (cache_clear st) st' rv); [|exact Hrun|exact Hi].
      intros j _. simpl. apply lookup_empty.
    - rewrite take_ge by lia. apply replay_stores in Hrun. eauto. }
  destruct Hcached as [rv_i Hrv_i]. exists rv_i. split.
  - rewrite <- Hs. exact (Hok _ _ _ _ _ Hrv_i).
  - now apply replay_hit.
Qed.

(** X6.  When the stack is cached and the stack with one more action is not,
    resolving the longer stack is one application of the new action to the
    cached image: the session's image is not decoded and no earlier action is
    applied again. *)
Theorem append_costs_one_action
    session_id action_stack last_action filename image_signature (st : state Image) im_pil :
  cache st !! (session_id, action_stack, filename, image_signature) = Some im_pil →
  cache st !! (session_id, action_stack ++ [last_action], filename, image_signature) = None →
  apply_actions_on_image session_id (action_stack ++ [last_action]) filename image_signature st
  = match apply_last_action last_action im_pil with
    | Ok rv =>
        (cache_set (session_id, action_stack ++ [last_action], filename, image_signature)
           rv st, Ok rv)
    | Raise e => (st, Raise e)
    end.
Proof.
  intros Hhit Hmiss. rewrite apply_actions_on_image_snoc_run, Hmiss.
  now rewrite (replay_hit _ _ _ _ _ _ _ _ _ _ _ _ Hhit).
Qed.

Lemma resolved_buffer_raise strings session_id action_stack more e :
  resolved_buffer strings session_id action_stack = Raise e →
  resolved_buffer strings session_id (action_stack ++ more) = Raise e.
Proof.
  intros Hfail. induction more as [|action more IH] using rev_ind.
  - now rewrite app_nil_r.
  - now rewrite app_assoc, resolved_buffer_snoc, IH.
Qed.

(** X7.  An exception stops the replay of every longer stack: when the
    buffer of a stack fails with [e], resolving that stack with any actions
    after it raises [e] on a coherent cache, and the failed call leaves no
    entry under its own arguments. *)
Theorem failure_propagates
    session_id action_stack more filename image_signature (st : state Image) e :
  cache_ok st →
  resolved_buffer (image_string_dict st) session_id action_stack = Raise e →
  let out := apply_actions_on_image session_id (action_stack ++ more)
               filename image_signature st in
  out.2 = Raise e
  ∧ cache out.1 !! (session_id, action_stack ++ more, filename, image_signature) = None.
Proof.
  intros Hok Hfail out. subst out.
  pose proof (replay_sound size b64_to_pil generate_lasso_mask apply_filters
                apply_enhancements int_of_str session_id filename image_signature
                (action_stack ++ more) st Hok) as (Hs & Hok' & Hr).
  simpl in Hs, Hok', Hr.
  pose proof (resolved_buffer_raise _ _ _ more _ Hfail) as Hmore.
  split; [now rewrite Hr|].
  destruct (cache _ !! _) as [rv|] eqn:Hget; [|reflexivity].
  apply Hok' in Hget. rewrite Hs in Hget. congruence.
Qed.

End ReplayFacts.

(** ** More about selections and actions *)

Section SelectionFacts.
Context {Image Mask : Type}.
Variable size : Image → Z * Z.
Variable generate_lasso_mask : Image → json → result Mask.
Variable apply_filters : Image → zone Mask → json → string → result Image.
Variable apply_enhancements : Image → zone Mask → json → json → string → result Image.
Variable int_of_str : string → option Z.

Local Abbreviation selection_of := (selection_of size generate_lasso_mask int_of_str).
Local Abbreviation apply_last_action :=
  (apply_last_action size generate_lasso_mask apply_filters apply_enhancements int_of_str).

(** X8.  A selection that is [None], empty, or a dict with neither
    [lassoPoints] nor [range] (a click that selected points only) resolves
    to the box of the whole image, and never fails. *)
Theorem selection_whole_image im_pil selectedData :
  py_truthy selectedData = false
  ∨ (∃ members, selectedData = JObj members
                ∧ dict_get "lassoPoints" members = None
                ∧ dict_get "range" members = None) →
  selection_of im_pil selectedData
  = Ok ("select", Box 0 0 (size im_pil).1 (size im_pil).2).
Proof.
  unfold selection_of. intros [Hfalsy|(members & -> & Hlasso & Hrange)].
  - now rewrite Hfalsy.
  - unfold py_contains. rewrite Hlasso, Hrange.
    now destruct (py_truthy (JObj members)).
Qed.

(** X9.  A selection dict with a [lassoPoints] key is a lasso selection
    whatever else it holds, a [range] included: the zone is the mask made
    from the whole selection dict, and a failure of the mask maker is the
    failure of the selection. *)
Theorem lasso_takes_precedence im_pil members :
  is_Some (dict_get "lassoPoints" members) →
  selection_of im_pil (JObj members)
  = match generate_lasso_mask im_pil (JObj members) with
    | Ok mask => Ok ("lasso", LassoMask mask)
    | Raise e => Raise e
    end.
Proof.
  intros Hlasso. unfold selection_of, py_contains.
  assert (Htruthy : py_truthy (JObj members) = true)
    by (destruct members; [now destruct Hlasso|reflexivity]).
  rewrite Htruthy, (bool_decide_eq_true_2 _ Hlasso). simpl.
  now destruct (generate_lasso_mask im_pil (JObj members)).
Qed.

(** X10.  A rectangle selection whose range has no [y] key fails with
    [KeyError], and one whose [y] is a list of integers of a length other
    than two fails with [ValueError]; both fail whatever the [x] bounds
    are. *)
Theorem rectangle_needs_two_bounds im_pil members fields :
  dict_get "lassoPoints" members = None →
  dict_get "range" members = Some (JObj fields) →
  (dict_get "y" fields = None → selection_of im_pil (JObj members) = Raise KeyError)
  ∧ (∀ ys, dict_get "y" fields = Some (JArr (map JInt ys)) →
           length ys ≠ 2%nat →
           selection_of im_pil (JObj members) = Raise ValueError).
Proof.
  intros Hlasso Hrange.
  assert (Htruthy : py_truthy (JObj members) = true)
    by (destruct members; [discriminate|reflexivity]).
  unfold selection_of, py_contains, py_getitem. rewrite Htruthy, Hlasso, !Hrange.
  split.
  - intros Hy. simpl. now rewrite Hy.
  - intros ys Hy Hlen. simpl. rewrite Hy. simpl.
    destruct ys as [|a [|b [|c ys]]]; try reflexivity. now simpl in Hlen.
Qed.

Lemma trunc_towards_zero q :
  trunc q = Z.sgn (Qnum q) * (Z.abs (Qnum q) / Z.pos (Qden q)).
Proof.
  unfold trunc. rewrite Z.quot_div by lia.
  rewrite (Z.sgn_pos (Z.pos (Qden q))) by lia.
  rewrite (Z.abs_eq (Z.pos (Qden q))) by lia. lia.
Qed.

(** X11.  Bounds that are floats are cut to integers towards zero before
    the flip: the rectangle resolves to
    [(int(x0), h - int(y1), int(x1), h - int(y0))], where [int] of a fraction
    [n/d] has the sign of [n] and the magnitude of the whole part of
    [|n|/d]. *)
Theorem float_bounds_are_truncated im_pil x0 x1 y0 y1 :
  selection_of im_pil
    (JObj [("range", JObj [("x", JArr [JFloat x0; JFloat x1]);
                           ("y", JArr [JFloat y0; JFloat y1])])])
  = Ok ("select", Box (trunc x0) ((size im_pil).2 - trunc y1)
                      (trunc x1) ((size im_pil).2 - trunc y0))
  ∧ ∀ q, trunc q = Z.sgn (Qnum q) * (Z.abs (Qnum q) / Z.pos (Qden q)).
Proof. split; [reflexivity|exact trunc_towards_zero]. Qed.

(** X12.  An action as the callback records it replays as the call it
    stands for: a filter action runs [apply_filters] with the recorded
    operation over the selection resolved on the current image, an enhance
    action runs [apply_enhancements] with the recorded enhancement and
    factor; a selection that does not resolve fails the action before any
    helper runs. *)
Theorem recorded_action_replays action_stack filters enhance enhancement_factor
    selectedData im_pil :
  let filter_stack := add_action_to_stack action_stack filters "filter" selectedData in
  let enhance_stack :=
    add_action_to_stack action_stack
      (JObj [("enhancement", enhance); ("enhancement_factor", enhancement_factor)])
      "enhance" selectedData in
  (list.last filter_stack ≫= λ action, Some (apply_last_action action im_pil))
  = Some match selection_of im_pil selectedData with
         | Ok (selection_mode, selection_zone) =>
             apply_filters im_pil selection_zone filters selection_mode
         | Raise e => Raise e
         end
  ∧ (list.last enhance_stack ≫= λ action, Some (apply_last_action action im_pil))
    = Some match selection_of im_pil selectedData with
           | Ok (selection_mode, selection_zone) =>
               apply_enhancements im_pil selection_zone enhance enhancement_factor
                 selection_mode
           | Raise e => Raise e
           end.
Proof.
  unfold add_action_to_stack. rewrite !last_snoc. simpl.
  unfold apply_last_action. simpl.
  destruct (selection_of im_pil selectedData) as [[selection_mode selection_zone]|e];
    split; reflexivity.
Qed.

(** X13.  An action dict that lacks [operation], [selectedData] or [type]
    fails with [KeyError], and an action that is not a dict fails with
    [TypeError]: both before the selection is looked at and before any helper
    runs. *)
Theorem malformed_action_fails members im_pil :
  dict_get "operation" members = None
  ∨ dict_get "selectedData" members = None
  ∨ dict_get "type" members = None →
  apply_last_action (JObj members) im_pil = Raise KeyError
  ∧ ∀ action, (∀ ms, action ≠ JObj ms) → apply_last_action action im_pil = Raise TypeError.
Proof.
  intros Hmissing. split.
  - unfold apply_last_action, py_getitem.
    destruct (dict_get "operation" members); [|reflexivity]. simpl.
    destruct (dict_get "selectedData" members); [|reflexivity]. simpl.
    destruct (dict_get "type" members); [|reflexivity].
    destruct Hmissing as [H|[H|H]]; discriminate.
  - intros action Hshape. destruct action as [| | | | | |ms]; try reflexivity.
    now destruct (Hshape ms).
Qed.

End SelectionFacts.


(** ** More about the request callback *)

Section CallbackFacts.
Context {Image Mask : Type}.
Variable size : Image → Z * Z.
Variable b64_to_pil : string → result Image.
Variable generate_lasso_mask : Image → json → result Mask.
Variable apply_filters : Image → zone Mask → json → string → result Image.
Variable apply_enhancements : Image → zone Mask → json → json → string → result Image.
Variable int_of_str : string → option Z.

Local Abbreviation apply_actions_on_image :=
  (apply_actions_on_image size b64_to_pil generate_lasso_mask apply_filters
     apply_enhancements int_of_str).
Local Abbreviation resolved_buffer :=
  (resolved_buffer size b64_to_pil generate_lasso_mask apply_filters
     apply_enhancements int_of_str).
Local Abbreviation cache_ok :=
  (cache_ok size b64_to_pil generate_lasso_mask apply_filters
     apply_enhancements int_of_str).
Local Abbreviation update_graph_interactive_image :=
  (update_graph_interactive_image size b64_to_pil generate_lasso_mask apply_filters
     apply_enhancements int_of_str).

(** The callback on an upload, step by step. *)
Lemma upload_run
    content n_clicks selectedData filters enhance enhancement_factor new_filename
    dragmode enc_format filename image_signature text session_id stored (st : state Image) :
  json_loads text = Ok stored →
  file_changed new_filename filename = true →
  update_graph_interactive_image content n_clicks selectedData filters enhance
    enhancement_factor new_filename dragmode enc_format
    (filename, image_signature, text) session_id st
  = match content with
    | Some c =>
        let string := List.last (py_split ";base64," c) "" in
        match b64_to_pil string with
        | Ok im_pil =>
            (State (cache st) (<[session_id := string]> (image_string_dict st)),
             Ok (Response im_pil enc_format dragmode
                   (new_filename, Some (str_take 200 string), json_dumps (JArr []))))
        | Raise e => (st, Raise e)
        end
    | None => (st, Raise AttributeError)
    end.
Proof.
  intros Hloads Hchanged. unfold update_graph_interactive_image.
  unfold mbind, M_bind, lift, mret, M_ret. rewrite Hloads.
  change (match new_filename with
          | Some name => negb (String.eqb name "") && negb (bool_decide (new_filename = filename))
          | None => false
          end) with (file_changed new_filename filename).
  rewrite Hchanged. destruct content as [c|]; [|reflexivity].
  now destruct (b64_to_pil _).
Qed.

(** The callback on an operation request, step by step. *)
Lemma operation_run
    content n_clicks selectedData filters enhance enhancement_factor new_filename
    dragmode enc_format filename image_signature text session_id action_stack
    (st : state Image) :
  json_loads text = Ok (JArr action_stack) →
  file_changed new_filename filename = false →
  update_graph_interactive_image content n_clicks selectedData filters enhance
    enhancement_factor new_filename dragmode enc_format
    (filename, image_signature, text) session_id st
  = let stack' :=
      action_stack ++ requested_actions filters enhance enhancement_factor selectedData in
    match apply_actions_on_image session_id stack' filename image_signature st with
    | (st', Ok im_pil) =>
        (st', Ok (Response im_pil enc_format dragmode
                    (filename, image_signature, json_dumps (JArr stack'))))
    | (st', Raise e) => (st', Raise e)
    end.
Proof.
  intros Hloads Hchanged. unfold update_graph_interactive_image.
  unfold mbind, M_bind, lift, mret, M_ret. rewrite Hloads.
  change (match new_filename with
          | Some name => negb (String.eqb name "") && negb (bool_decide (new_filename = filename))
          | None => false
          end) with (file_changed new_filename filename).
  rewrite Hchanged. unfold requested_actions, add_action_to_stack_py, add_action_to_stack.
  destruct (py_truthy filters), (py_truthy enhance); cbn [app];
    rewrite <- ?app_assoc, ?app_nil_r; cbn [app];
    now destruct (apply_actions_on_image _ _ _ _ _) as [st' [im_pil|e]].
Qed.

(** X14.  An upload under a new filename resets the stack and drops the
    request's filter, enhancement and selection: it returns the decoded
    upload, stores its string for the session, writes the new filename, the
    first 200 characters of the string and an empty stack to the storage, and
    leaves the cache as it is. *)
Theorem upload_resets
    c n_clicks selectedData filters enhance enhancement_factor new_filename
    dragmode enc_format filename image_signature text session_id stored
    (st : state Image) im_pil :
  json_loads text = Ok stored →
  file_changed new_filename filename = true →
  b64_to_pil (List.last (py_split ";base64," c) "") = Ok im_pil →
  let string := List.last (py_split ";base64," c) "" in
  let out :=
    update_graph_interactive_image (Some c) n_clicks selectedData filters enhance
      enhancement_factor new_filename dragmode enc_format
      (filename, image_signature, text) session_id st in
  out.2 = Ok (Response im_pil enc_format dragmode
                (new_filename, Some (str_take 200 string), json_dumps (JArr [])))
  ∧ json_loads (json_dumps (JArr [])) = Ok (JArr [])
  ∧ cache out.1 = cache st
  ∧ image_string_dict out.1 !! session_id = Some string
  ∧ ∀ other, other ≠ session_id →
             image_string_dict out.1 !! other = image_string_dict st !! other.
Proof.
  intros Hloads Hchanged Hdecode string out. subst out string.
  rewrite (upload_run _ _ _ _ _ _ _ _ _ _ _ _ _ _ _ Hloads Hchanged).
  cbv zeta. rewrite Hdecode. simpl.
  split; [reflexivity|]. split; [reflexivity|]. split; [reflexivity|].
  split; [apply lookup_insert_eq|].
  intros other Hother. now apply lookup_insert_ne.
Qed.

(** X15.  An upload invalidates nothing in the cache: an entry stored under
    the uploaded file's name and the first 200 characters of its string is
    still served after the upload, whatever image it was made from. *)
Theorem upload_keeps_stale_entries
    c n_clicks selectedData filters enhance enhancement_factor new_filename
    dragmode enc_format filename image_signature text session_id stored action_stack
    (st : state Image) im_pil old :
  json_loads text = Ok stored →
  file_changed new_filename filename = true →
  b64_to_pil (List.last (py_split ";base64," c) "") = Ok im_pil →
  cache st !! (session_id, action_stack, new_filename,
               Some (str_take 200 (List.last (py_split ";base64," c) ""))) = Some old →
  let out :=
    update_graph_interactive_image (Some c) n_clicks selectedData filters enhance
      enhancement_factor new_filename dragmode enc_format
      (filename, image_signature, text) session_id st in
  apply_actions_on_image session_id action_stack new_filename
    (Some (str_take 200 (List.last (py_split ";base64," c) ""))) out.1
  = (out.1, Ok old).
Proof.
  intros Hloads Hchanged Hdecode Hold out. subst out.
  rewrite (upload_run _ _ _ _ _ _ _ _ _ _ _ _ _ _ _ Hloads Hchanged).
  cbv zeta. rewrite Hdecode. simpl. now apply replay_hit.
Qed.

(** The callback on a stored value that is not a list and is used as the
    stack: it raises and changes nothing. *)
Lemma not_a_list_run
    content n_clicks selectedData filters enhance enhancement_factor new_filename
    dragmode enc_format filename image_signature text session_id stored
    (st : state Image) :
  json_loads text = Ok stored →
  (∀ l, stored ≠ JArr l) →
  file_changed new_filename filename = false →
  ∃ e,
    update_graph_interactive_image content n_clicks selectedData filters enhance
      enhancement_factor new_filename dragmode enc_format
      (filename, image_signature, text) session_id st
    = (st, Raise e).
Proof.
  intros Hloads Hnot Hchanged. unfold update_graph_interactive_image.
  unfold mbind, M_bind, lift, mret, M_ret. rewrite Hloads.
  change (match new_filename with
          | Some name => negb (String.eqb name "") && negb (bool_decide (new_filename = filename))
          | None => false
          end) with (file_changed new_filename filename).
  rewrite Hchanged. unfold add_action_to_stack_py.
  destruct stored as [| | | |s|l|]; try (now destruct (Hnot l));
    try destruct s; destruct (py_truthy filters), (py_truthy enhance); by eauto.
Qed.

(** X17.  A file uploaded under the stored filename is not taken as an
    upload: its content is ignored, the session keeps its image, and the
    request is answered as an operation request. *)
Theorem same_name_upload_is_ignored
    content content' n_clicks selectedData filters enhance enhancement_factor
    dragmode enc_format filename image_signature text session_id (st : state Image) :
  let request c :=
    update_graph_interactive_image c n_clicks selectedData filters enhance
      enhancement_factor filename dragmode enc_format
      (filename, image_signature, text) session_id st in
  request content = request content'
  ∧ image_string_dict (request content).1 = image_string_dict st.
Proof.
  intros request. subst request. cbv beta.
  assert (Hchanged : file_changed filename filename = false).
  { destruct filename; [|reflexivity]. simpl.
    rewrite bool_decide_eq_true_2 by reflexivity. apply andb_false_r. }
  split.
  { unfold update_graph_interactive_image, mbind, M_bind, lift, mret, M_ret.
    change (match filename with
            | Some name =>
                negb (String.eqb name "") && negb (bool_decide (filename = filename))
            | None => false
            end) with (file_changed filename filename).
    now rewrite Hchanged. }
  destruct (json_loads text) as [stored|e0] eqn:Hloads.
  2:{ unfold update_graph_interactive_image, mbind, M_bind, lift. now rewrite Hloads. }
  destruct stored as [| | | | |action_stack|];
    try (destruct (not_a_list_run content n_clicks selectedData filters enhance
                     enhancement_factor filename dragmode enc_format filename
                     image_signature text session_id _ st Hloads
                     ltac:(intros ? ?; discriminate) Hchanged) as [e ->];
         reflexivity).
  rewrite (operation_run _ _ _ _ _ _ _ _ _ _ _ _ _ _ _ Hloads Hchanged). cbv zeta.
  pose proof (replay_touches size b64_to_pil generate_lasso_mask apply_filters
                apply_enhancements int_of_str session_id filename image_signature
                (action_stack
                 ++ requested_actions filters enhance enhancement_factor selectedData) st)
    as (Hs & _ & _).
  now destruct (apply_actions_on_image _ _ _ _ _) as [st' [im_pil|e]].
Qed.

Context {Component : Type}.
Variable InteractiveImagePIL : Image → json → json → result Component.

Local Abbreviation update_graph_interactive_image_children :=
  (update_graph_interactive_image_children size b64_to_pil generate_lasso_mask
     apply_filters apply_enhancements int_of_str InteractiveImagePIL).

(** The whole callback is the callback up to the hand-over, then the
    component. *)
Lemma children_run
    content n_clicks selectedData filters enhance enhancement_factor new_filename
    dragmode enc_format storage session_id (st : state Image) :
  update_graph_interactive_image_children content n_clicks selectedData filters enhance
    enhancement_factor new_filename dragmode enc_format storage session_id st
  = match update_graph_interactive_image content n_clicks selectedData filters enhance
            enhancement_factor new_filename dragmode enc_format storage session_id st with
    | (st', Ok (Response im_pil enc dm stored)) =>
        match InteractiveImagePIL im_pil enc dm with
        | Ok component => (st', Ok (component, stored))
        | Raise e => (st', Raise e)
        end
    | (st', Raise e) => (st', Raise e)
    end.
Proof.
  unfold update_graph_interactive_image_children, mbind, M_bind, lift, mret, M_ret.
  destruct (update_graph_interactive_image _ _ _ _ _ _ _ _ _ _ _ _)
    as [st' [[im_pil enc dm stored]|e]]; [|reflexivity].
  simpl. now destruct (InteractiveImagePIL _ _ _).
Qed.

(** X16.  A request that raises changes no other session's image string,
    and it changes the session's own in one case only: an upload that was
    decoded, and stored at line 345, before [drc.InteractiveImagePIL] raised;
    the session's string is then the upload's, though the client was sent
    no image.  A request that raises before the image is handed on leaves
    every image string as it was.  The stored stack is taken to be a list
    where it is used. *)
Theorem failed_request_image_strings
    content n_clicks selectedData filters enhance enhancement_factor new_filename
    dragmode enc_format filename image_signature text session_id (st : state Image) e :
  (∀ stored, json_loads text = Ok stored →
             file_changed new_filename filename = true ∨ ∃ l, stored = JArr l) →
  let before :=
    update_graph_interactive_image content n_clicks selectedData filters enhance
      enhancement_factor new_filename dragmode enc_format
      (filename, image_signature, text) session_id st in
  let out :=
    update_graph_interactive_image_children content n_clicks selectedData filters enhance
      enhancement_factor new_filename dragmode enc_format
      (filename, image_signature, text) session_id st in
  out.2 = Raise e →
  (∀ other, other ≠ session_id →
            image_string_dict out.1 !! other = image_string_dict st !! other)
  ∧ (before.2 = Raise e ∧ image_string_dict out.1 = image_string_dict st
     ∨ (∃ c im_pil,
          content = Some c
          ∧ file_changed new_filename filename = true
          ∧ b64_to_pil (List.last (py_split ";base64," c) "") = Ok im_pil
          ∧ InteractiveImagePIL im_pil enc_format dragmode = Raise e
          ∧ image_string_dict out.1
            = <[session_id := List.last (py_split ";base64," c) ""]> (image_string_dict st))
     ∨ file_changed new_filename filename = false
       ∧ is_ok before.2 = true
       ∧ image_string_dict out.1 = image_string_dict st).
Proof.
  intros Hlist before out. subst before out. rewrite children_run.
  destruct (json_loads text) as [stored|e0] eqn:Hloads.
  2:{ unfold update_graph_interactive_image, mbind, M_bind, lift. rewrite Hloads.
      simpl. intros [= ->]. by eauto. }
  destruct (file_changed new_filename filename) eqn:Hchanged.
  - rewrite (upload_run _ _ _ _ _ _ _ _ _ _ _ _ _ _ _ Hloads Hchanged).
    destruct content as [c|]; [|simpl; intros [= ->]; by eauto]. cbv zeta.
    destruct (b64_to_pil _) as [im_pil|e1] eqn:Hdecode; [|simpl; intros [= ->]; by eauto].
    destruct (InteractiveImagePIL im_pil enc_format dragmode) as [component|e1] eqn:Hrender;
      [discriminate|].
    simpl. intros [= ->]. split.
    + intros other Hother. now apply lookup_insert_ne.
    + right. left. exists c, im_pil. by eauto 10.
  - destruct (Hlist stored eq_refl) as [[=]|[action_stack ->]].
    rewrite (operation_run _ _ _ _ _ _ _ _ _ _ _ _ _ _ _ Hloads Hchanged). cbv zeta.
    pose proof (replay_touches size b64_to_pil generate_lasso_mask apply_filters
                  apply_enhancements int_of_str session_id filename image_signature
                  (action_stack
                   ++ requested_actions filters enhance enhancement_factor selectedData) st)
      as (Hs & _ & _).
    destruct (apply_actions_on_image _ _ _ _ _) as [st' [im_pil|e1]]; simpl in Hs |- *.
    + destruct (InteractiveImagePIL _ _ _); [discriminate|]. simpl. intros _.
      split; [intros; now rewrite Hs|]. right. right. by eauto.
    + intros [= ->]. split; [intros; now rewrite Hs|]. left. by eauto.
Qed.

(** X18.  An operation request, on a coherent cache, writes back the stored
    stack followed by the actions it selected (none, the filter, the
    enhancement, or the filter then the enhancement) and returns the buffer
    of that stack; it raises what the buffer of that stack raises; without a
    selected operation it re-renders the stored stack.  The cache stays
    coherent. *)
Theorem operation_request
    content n_clicks selectedData filters enhance enhancement_factor new_filename
    dragmode enc_format filename image_signature text session_id action_stack
    (st : state Image) :
  json_loads text = Ok (JArr action_stack) →
  file_changed new_filename filename = false →
  cache_ok st →
  let stack' :=
    action_stack ++ requested_actions filters enhance enhancement_factor selectedData in
  let out :=
    update_graph_interactive_image content n_clicks selectedData filters enhance
      enhancement_factor new_filename dragmode enc_format
      (filename, image_signature, text) session_id st in
  cache_ok out.1
  ∧ match out.2 with
    | Ok response =>
        storage response = (filename, image_signature, json_dumps (JArr stack'))
        ∧ resolved_buffer (image_string_dict st) session_id stack' = Ok (image response)
    | Raise e => resolved_buffer (image_string_dict st) session_id stack' = Raise e
    end.
Proof.
  intros Hloads Hchanged Hok stack' out. subst out.
  rewrite (operation_run _ _ _ _ _ _ _ _ _ _ _ _ _ _ _ Hloads Hchanged). cbv zeta.
  fold stack'.
  pose proof (replay_sound size b64_to_pil generate_lasso_mask apply_filters
                apply_enhancements int_of_str session_id filename image_signature
                stack' st Hok) as (_ & Hok' & Hr).
  destruct (apply_actions_on_image session_id stack' filename image_signature st)
    as [st' [im_pil|e]]; simpl in *; split; auto.
Qed.

Lemma json_wf_app (l1 l2 : list json) :
  json_wf (JArr (l1 ++ l2)) = json_wf (JArr l1) && json_wf (JArr l2).
Proof. simpl. apply forallb_app. Qed.

(** X19.  The storage a request writes is a stack the next request can
    read: when the stored stack and the values of the request have no dict
    with a repeated key, the text written decodes to the list it encodes, and
    that list has no repeated key either. *)
Theorem storage_stays_decodable
    content n_clicks selectedData filters enhance enhancement_factor new_filename
    dragmode enc_format filename image_signature text session_id action_stack
    (st : state Image) response :
  json_loads text = Ok (JArr action_stack) →
  json_wf (JArr action_stack) = true →
  json_wf (JArr [selectedData; filters; enhance; enhancement_factor]) = true →
  (update_graph_interactive_image content n_clicks selectedData filters enhance
     enhancement_factor new_filename dragmode enc_format
     (filename, image_signature, text) session_id st).2 = Ok response →
  ∃ stack',
    (storage response).2 = json_dumps (JArr stack')
    ∧ json_loads (storage response).2 = Ok (JArr stack')
    ∧ json_wf (JArr stack') = true.
Proof.
  intros Hloads Hwf Hreq. destruct (file_changed new_filename filename) eqn:Hchanged.
  - rewrite (upload_run _ _ _ _ _ _ _ _ _ _ _ _ _ _ _ Hloads Hchanged).
    destruct content as [c|]; [|discriminate]. cbv zeta.
    destruct (b64_to_pil _); [|discriminate]. simpl. intros [= <-]. simpl.
    exists []. now split.
  - rewrite (operation_run _ _ _ _ _ _ _ _ _ _ _ _ _ _ _ Hloads Hchanged). cbv zeta.
    destruct (apply_actions_on_image _ _ _ _ _) as [st' [im_pil|e]]; [|discriminate].
    simpl. intros [= <-]. simpl storage.
    assert (Hwf' : json_wf (JArr (action_stack
                    ++ requested_actions filters enhance enhancement_factor selectedData))
                   = true).
    { rewrite json_wf_app, Hwf. simpl in Hreq. unfold requested_actions.
      apply andb_prop in Hreq as [Hsd Hreq]. apply andb_prop in Hreq as [Hf Hreq].
      apply andb_prop in Hreq as [He Hreq]. apply andb_prop in Hreq as [Hfac _].
      destruct (py_truthy filters), (py_truthy enhance); simpl;
        rewrite ?Hsd, ?Hf, ?He, ?Hfac; reflexivity. }
    eexists. split; [reflexivity|]. split; [|exact Hwf'].
    exact (json_loads_dumps (JArr _) Hwf').
Qed.

End CallbackFacts.


(** ** Requests in the states the server reaches *)

Section ReachableFacts.
Context {Image Mask : Type}.
Variable size : Image → Z * Z.
Variable b64_to_pil : string → result Image.
Variable generate_lasso_mask : Image → json → result Mask.
Variable apply_filters : Image → zone Mask → json → string → result Image.
Variable apply_enhancements : Image → zone Mask → json → json → string → result Image.
Variable int_of_str : string → option Z.

Local Abbreviation apply_actions_on_image :=
  (apply_actions_on_image size b64_to_pil generate_lasso_mask apply_filters
     apply_enhancements int_of_str).
Local Abbreviation apply_last_action :=
  (apply_last_action size generate_lasso_mask apply_filters apply_enhancements int_of_str).
Local Abbreviation cache_chained :=
  (cache_chained size generate_lasso_mask apply_filters apply_enhancements int_of_str).
Local Abbreviation reachable :=
  (reachable size b64_to_pil generate_lasso_mask apply_filters apply_enhancements
     int_of_str).
Local Abbreviation update_graph_interactive_image :=
  (update_graph_interactive_image size b64_to_pil generate_lasso_mask apply_filters
     apply_enhancements int_of_str).

Lemma snoc_ne_self {A} (l : list A) x : l ≠ l ++ [x].
Proof.
  intros Heq. apply (f_equal length) in Heq. rewrite length_app in Heq. simpl in Heq. lia.
Qed.

(** A replay of a stack stores nothing under a longer stack. *)
Lemma replay_leaves_longer session_id filename image_signature action_stack last_action
    (st : state Image) :
  cache st !! (session_id, action_stack ++ [last_action], filename, image_signature) = None →
  cache (apply_actions_on_image session_id action_stack filename image_signature st).1
    !! (session_id, action_stack ++ [last_action], filename, image_signature) = None.
Proof.
  intros Hfree.
  pose proof (replay_touches size b64_to_pil generate_lasso_mask apply_filters
                apply_enhancements int_of_str session_id filename image_signature
                action_stack st) as (_ & _ & Hnew).
  simpl in Hnew.
  destruct (cache (apply_actions_on_image session_id action_stack filename
                     image_signature st).1
              !! (session_id, action_stack ++ [last_action], filename, image_signature))
    as [old|] eqn:Hold; [|reflexivity].
  destruct (Hnew _ _ Hold) as [Hst|(i & _ & Heq)]; [congruence|].
  injection Heq as Heq. now apply snoc_not_prefix in Heq.
Qed.

(** Storing the image of the empty stack, or the image an action made from the
    cached image of the stack before it, keeps the cache chained. *)
Lemma cache_chained_set_nil session_id filename image_signature rv (st : state Image) :
  cache st !! (session_id, [], filename, image_signature) = None →
  cache_chained st →
  cache_chained (cache_set (session_id, [], filename, image_signature) rv st).
Proof.
  intros Hfree Hch sid stack a fn sig rv'. unfold cache_set. simpl.
  rewrite lookup_insert_ne by (intros [= _ Heq _ _]; now destruct stack).
  intros Hl. destruct (Hch _ _ _ _ _ _ Hl) as (im_pil & Him & Happ).
  exists im_pil. split; [|exact Happ].
  rewrite lookup_insert_ne; [exact Him|]. intros Heq. rewrite <- Heq in Him. congruence.
Qed.

Lemma cache_chained_set_snoc
    session_id action_stack last_action filename image_signature im_pil rv
    (st : state Image) :
  cache st !! (session_id, action_stack ++ [last_action], filename, image_signature) = None →
  cache st !! (session_id, action_stack, filename, image_signature) = Some im_pil →
  apply_last_action last_action im_pil = Ok rv →
  cache_chained st →
  cache_chained
    (cache_set (session_id, action_stack ++ [last_action], filename, image_signature) rv st).
Proof.
  intros Hfree Hprev Hstep Hch sid stack a fn sig rv'. unfold cache_set. simpl.
  rewrite lookup_insert. case_decide as Hkey.
  - injection Hkey as <- Hst <- <-. apply app_inj_tail in Hst as [<- <-].
    intros [= <-]. exists im_pil. split; [|exact Hstep].
    rewrite lookup_insert_ne; [exact Hprev|].
    intros [= Heq]. symmetry in Heq. now apply snoc_ne_self in Heq.
  - intros Hl. destruct (Hch _ _ _ _ _ _ Hl) as (im' & Him' & Happ).
    exists im'. split; [|exact Happ].
    rewrite lookup_insert_ne; [exact Him'|]. intros Heq. rewrite <- Heq in Him'. congruence.
Qed.

(** The replay keeps the cache chained. *)
Lemma replay_chained session_id filename image_signature action_stack :
  ∀ st : state Image,
    cache_chained st →
    cache_chained
      (apply_actions_on_image session_id action_stack filename image_signature st).1.
Proof.
  induction action_stack as [|last_action action_stack IH] using rev_ind; intros st Hch.
  - rewrite apply_actions_on_image_nil_run.
    destruct (cache st !! (session_id, [], filename, image_signature)) eqn:Hget;
      [exact Hch|].
    destruct (image_string_dict st !! session_id) as [string|]; [|exact Hch].
    destruct (b64_to_pil string) as [rv|e]; [|exact Hch].
    now apply cache_chained_set_nil.
  - rewrite apply_actions_on_image_snoc_run.
    destruct (cache st !! (session_id, action_stack ++ [last_action], filename,
                           image_signature)) eqn:Hget; [exact Hch|].
    pose proof (replay_leaves_longer session_id filename image_signature action_stack
                  last_action st Hget) as Hfree.
    specialize (IH st Hch).
    destruct (apply_actions_on_image session_id action_stack filename image_signature st)
      as [st1 [im_pil|e]] eqn:Hinner; simpl in IH, Hfree |- *; [|exact IH].
    destruct (apply_last_action last_action im_pil) as [rv|e] eqn:Hstep; [|exact IH].
    simpl. apply (cache_chained_set_snoc _ _ _ _ _ im_pil); try assumption.
    exact (replay_stores size b64_to_pil generate_lasso_mask apply_filters
             apply_enhancements int_of_str _ _ _ _ _ _ _ Hinner).
Qed.

(** A request leaves the cache as it found it, or as a replay left it. *)
Lemma request_chained
    content n_clicks selectedData filters enhance enhancement_factor new_filename
    dragmode enc_format storage session_id (st : state Image) :
  cache_chained st →
  cache_chained
    (update_graph_interactive_image content n_clicks selectedData filters enhance
       enhancement_factor new_filename dragmode enc_format storage session_id st).1.
Proof.
  intros Hch. destruct storage as [[filename image_signature] text].
  destruct (json_loads text) as [stored|e0] eqn:Hloads.
  2:{ unfold update_graph_interactive_image, mbind, M_bind, lift. now rewrite Hloads. }
  destruct (file_changed new_filename filename) eqn:Hchanged.
  - rewrite (upload_run size b64_to_pil generate_lasso_mask apply_filters
               apply_enhancements int_of_str _ _ _ _ _ _ _ _ _ _ _ _ _ _ _
               Hloads Hchanged).
    destruct content as [c|]; [|exact Hch]. cbv zeta.
    destruct (b64_to_pil _); [|exact Hch]. exact Hch.
  - destruct stored as [| | | | |action_stack|];
      try (destruct (not_a_list_run size b64_to_pil generate_lasso_mask apply_filters
                       apply_enhancements int_of_str content n_clicks selectedData
                       filters enhance enhancement_factor new_filename dragmode
                       enc_format filename image_signature text session_id _ st Hloads
                       ltac:(intros ? ?; discriminate) Hchanged) as [e ->];
           exact Hch).
    rewrite (operation_run size b64_to_pil generate_lasso_mask apply_filters
               apply_enhancements int_of_str _ _ _ _ _ _ _ _ _ _ _ _ _ _ _
               Hloads Hchanged). cbv zeta.
    pose proof (replay_chained session_id filename image_signature
                  (action_stack
                   ++ requested_actions filters enhance enhancement_factor selectedData)
                  st Hch) as Hch'.
    now destruct (apply_actions_on_image _ _ _ _ _) as [st' [im_pil|e]].
Qed.

(** In every state the server reaches the cache is chained: each cached
    image of a longer stack was made from the cached image of the stack
    before it, across page loads, uploads and restarts. *)
Lemma reachable_chained (st : state Image) : reachable st → cache_chained st.
Proof.
  induction 1 as [|st session_id placeholder _ IH| |st _ IH].
  - intros sid stack a fn sig rv. simpl. now rewrite lookup_empty.
  - exact IH.
  - now apply request_chained.
  - exact IH.
Qed.


End ReachableFacts.


(** ** Splitting the content of an upload *)

Section SplitFacts.

Lemma str_app_cons c (s t : string) : (String c s ++ t)%string = String c (s ++ t).
Proof. reflexivity. Qed.

Lemma str_app_nil_l (s : string) : ("" ++ s)%string = s.
Proof. reflexivity. Qed.

Lemma str_app_nil_r (s : string) : (s ++ "")%string = s.
Proof. induction s as [|c s IH]; [reflexivity|]. now rewrite str_app_cons, IH. Qed.

Lemma str_app_assoc (s1 s2 s3 : string) :
  ((s1 ++ s2) ++ s3)%string = (s1 ++ (s2 ++ s3))%string.
Proof. induction s1 as [|c s1 IH]; [reflexivity|]. now rewrite !str_app_cons, IH. Qed.

Lemma str_length_app (s1 s2 : string) :
  String.length (s1 ++ s2) = (String.length s1 + String.length s2)%nat.
Proof.
  induction s1 as [|c s1 IH]; [reflexivity|]. rewrite str_app_cons. simpl. now rewrite IH.
Qed.

Lemma prefix_inv sep s : String.prefix sep s = true → ∃ r, s = (sep ++ r)%string.
Proof.
  revert sep. induction s as [|c s IH]; intros [|c0 sep] Hp; simpl in Hp; try discriminate.
  - by exists "".
  - by exists (String c s).
  - destruct (ascii_dec c0 c) as [->|]; [|discriminate].
    destruct (IH sep Hp) as [r ->]. by exists r.
Qed.

Lemma prefix_app sep r : String.prefix sep (sep ++ r) = true.
Proof.
  induction sep as [|c sep IH]; simpl; [now destruct r|].
  destruct (ascii_dec c c); [exact IH|done].
Qed.

Lemma split_from_S sep n piece c s :
  split_from sep (S n) piece (String c s) = split_from sep n piece s.
Proof. reflexivity. Qed.

Lemma split_from_0 sep piece c s :
  split_from sep 0 piece (String c s)
  = if String.prefix sep (String c s)
    then piece :: split_from sep (String.length sep - 1) "" s
    else split_from sep 0 (piece ++ String c "")%string s.
Proof. reflexivity. Qed.

Lemma split_from_skip sep t r piece :
  split_from sep (String.length t) piece (t ++ r) = split_from sep 0 piece r.
Proof.
  induction t as [|c t IH]; [reflexivity|].
  rewrite str_app_cons. simpl String.length. now rewrite split_from_S.
Qed.

Lemma split_from_cons sep skip piece s :
  ∃ first rest, split_from sep skip piece s = first :: rest.
Proof.
  revert skip piece. induction s as [|c s IH]; intros skip piece; [simpl; by eauto|].
  destruct skip as [|skip]; [|rewrite split_from_S; apply IH].
  rewrite split_from_0. destruct (String.prefix sep (String c s)); [by eauto|apply IH].
Qed.

(** A matched separator is passed over whole. *)
Lemma split_from_match c sep r piece :
  split_from (String c sep) 0 piece (String c sep ++ r)
  = piece :: split_from (String c sep) 0 "" r.
Proof.
  pose proof (prefix_app (String c sep) r) as Hp. rewrite str_app_cons in Hp |- *.
  rewrite split_from_0, Hp.
  replace (String.length (String c sep) - 1)%nat with (String.length sep) by (simpl; lia).
  now rewrite split_from_skip.
Qed.

Lemma split_from_join sep n :
  sep ≠ "" →
  ∀ s piece,
    (String.length s ≤ n)%nat →
    str_join sep (split_from sep 0 piece s) = (piece ++ s)%string.
Proof.
  intros Hsep. induction n as [|n IH]; intros s piece Hlen.
  - destruct s; [|simpl in Hlen; lia]. simpl. now rewrite str_app_nil_r.
  - destruct s as [|c s]; [simpl; now rewrite str_app_nil_r|].
    destruct (String.prefix sep (String c s)) eqn:Hp.
    + destruct (prefix_inv _ _ Hp) as [r Hr]. rewrite Hr.
      destruct sep as [|c0 sep]; [done|]. rewrite split_from_match.
      destruct (split_from_cons (String c0 sep) 0 "" r) as (first & rest & Hsplit).
      assert (Hrest : str_join (String c0 sep) (split_from (String c0 sep) 0 "" r) = r).
      { rewrite (IH r ""); [reflexivity|]. apply (f_equal String.length) in Hr.
        rewrite str_length_app in Hr. simpl in Hr, Hlen. lia. }
      rewrite Hsplit in Hrest |- *.
      change (str_join (String c0 sep) (piece :: first :: rest))
        with (piece ++ String c0 sep ++ str_join (String c0 sep) (first :: rest))%string.
      now rewrite Hrest.
    + rewrite split_from_0, Hp, IH by (simpl in Hlen; lia).
      now rewrite str_app_assoc.
Qed.

Lemma split_from_absent sep s :
  ∀ piece, str_contains sep s = false → split_from sep 0 piece s = [(piece ++ s)%string].
Proof.
  induction s as [|c s IH]; intros piece Habsent.
  - simpl. now rewrite str_app_nil_r.
  - change (str_contains sep (String c s))
      with (String.prefix sep (String c s) || str_contains sep s) in Habsent.
    apply orb_false_elim in Habsent as [Hp Htail].
    rewrite split_from_0, Hp, IH by exact Htail. now rewrite str_app_assoc.
Qed.

Lemma split_from_head sep head rest :
  ∀ piece,
    starts_nowhere sep head rest = true →
    split_from sep 0 piece (head ++ rest) = split_from sep 0 (piece ++ head) rest.
Proof.
  induction head as [|c head IH]; intros piece Hfree.
  - now rewrite str_app_nil_l, str_app_nil_r.
  - change (starts_nowhere sep (String c head) rest)
      with (negb (String.prefix sep (String c head ++ rest)) && starts_nowhere sep head rest)
      in Hfree.
    apply andb_prop in Hfree as [Hp Hfree].
    apply negb_true_iff in Hp. rewrite str_app_cons in Hp |- *.
    rewrite split_from_0, Hp, IH by exact Hfree. now rewrite str_app_assoc.
Qed.

(** X20.  Splitting on a non-empty separator loses nothing: joining the
    pieces with the separator gives the string back, there is always at least
    one piece, and a string without the separator is its own single piece, so
    a content without [;base64,] is taken whole as the image string. *)
Theorem split_join_roundtrip sep s :
  sep ≠ "" →
  str_join sep (py_split sep s) = s
  ∧ py_split sep s ≠ []
  ∧ (str_contains sep s = false → List.last (py_split sep s) "" = s).
Proof.
  intros Hsep. unfold py_split. split; [|split].
  - exact (split_from_join sep (String.length s) Hsep s "" (le_n _)).
  - destruct (split_from_cons sep 0 "" s) as (first & rest & ->). discriminate.
  - intros Habsent. now rewrite split_from_absent.
Qed.

(** X21.  The image string of an upload is what follows the separator: for
    a content [head ++ ";base64," ++ payload] whose payload does not hold the
    separator and where no occurrence of it starts inside the head, the
    split gives the head and the payload, and the last piece is the
    payload. *)
Theorem split_data_url sep head payload :
  sep ≠ "" →
  starts_nowhere sep head (sep ++ payload) = true →
  str_contains sep payload = false →
  py_split sep (head ++ sep ++ payload) = [head; payload]
  ∧ List.last (py_split sep (head ++ sep ++ payload)) "" = payload.
Proof.
  intros Hsep Hhead Hpayload. unfold py_split.
  rewrite split_from_head by exact Hhead.
  destruct sep as [|c sep]; [done|].
  rewrite split_from_match, split_from_absent by exact Hpayload. now split.
Qed.

End SplitFacts.

(** ** Sessions and workers *)

Section SessionFacts.
Context {Image Mask : Type}.
Variable size : Image → Z * Z.
Variable b64_to_pil : string → result Image.
Variable generate_lasso_mask : Image → json → result Mask.
Variable apply_filters : Image → zone Mask → json → string → result Image.
Variable apply_enhancements : Image → zone Mask → json → json → string → result Image.
Variable int_of_str : string → option Z.

Local Abbreviation apply_actions_on_image :=
  (apply_actions_on_image size b64_to_pil generate_lasso_mask apply_filters
     apply_enhancements int_of_str).

(** X22.  Serving the layout opens a session on the placeholder image: the
    session's image string is the placeholder, no other session's string and
    no cache entry changes, and the first replay of the empty stack for the
    session, when nothing is cached under its arguments, is the decoded
    placeholder. *)
Theorem fresh_session_shows_placeholder
    session_id placeholder filename image_signature (st : state Image) :
  cache st !! (session_id, [], filename, image_signature) = None →
  let opened := serve_layout session_id placeholder st in
  opened.2 = Ok session_id
  ∧ cache opened.1 = cache st
  ∧ image_string_dict opened.1 !! session_id = Some placeholder
  ∧ (∀ other, other ≠ session_id →
              image_string_dict opened.1 !! other = image_string_dict st !! other)
  ∧ (apply_actions_on_image session_id [] filename image_signature opened.1).2
    = b64_to_pil placeholder.
Proof.
  intros Hmiss opened. subst opened.
  change (serve_layout session_id placeholder st)
    with (State (cache st) (<[session_id := placeholder]> (image_string_dict st)),
          @Ok string session_id).
  cbn [fst snd cache image_string_dict].
  split; [reflexivity|]. split; [reflexivity|]. split; [apply lookup_insert_eq|].
  split; [intros other Hother; now apply lookup_insert_ne|].
  rewrite apply_actions_on_image_nil_run. cbn [cache image_string_dict].
  rewrite Hmiss, lookup_insert_eq. now destruct (b64_to_pil placeholder).
Qed.

(** X23.  Requests that come one after the other are served once: when a
    worker alone has answered the request with an image, it ends in the state
    the memoized call leaves, and there the first step of the next worker
    for the same request is a hit that returns the same image, applies no
    action and changes nothing. *)
Theorem next_worker_hits
    session_id action_stack filename image_signature (st st' : state Image) rv :
  apply_actions_on_image session_id action_stack filename image_signature st = (st', Ok rv) →
  (∃ k ran,
      alone size b64_to_pil generate_lasso_mask apply_filters apply_enhancements int_of_str
        session_id action_stack filename image_signature k
        (Lookup (length action_stack)) st 0
      = (Return (length action_stack) rv, st', ran))
  ∧ worker_step size b64_to_pil generate_lasso_mask apply_filters apply_enhancements
      int_of_str session_id action_stack filename image_signature
      (Lookup (length action_stack)) st'
    = Some (Return (length action_stack) rv, st', 0%nat).
Proof.
  intros Hrun. split.
  - destruct (worker_alone_refines size b64_to_pil generate_lasso_mask apply_filters
                apply_enhancements int_of_str session_id action_stack filename
                image_signature (length action_stack) (le_n _) st 0%nat)
      as (k & ran & Hk).
    rewrite take_ge in Hk by lia. rewrite Hrun in Hk. simpl in Hk. eauto.
  - apply replay_stores in Hrun. simpl. unfold prefix_key.
    rewrite take_ge by lia. now rewrite Hrun.
Qed.

End SessionFacts.

(** ** Concrete requests, continued *)

Section MoreRequests.
Import Adapter.

Local Abbreviation replay :=
  (apply_actions_on_image size Fixture.b64_to_pil generate_lasso_mask
     (apply_filters Fixture.transform Fixture.supported)
     (apply_enhancements Fixture.transform Fixture.supported) Fixture.int_of_str).
Local Abbreviation buffer_of :=
  (resolved_buffer size Fixture.b64_to_pil generate_lasso_mask
     (apply_filters Fixture.transform Fixture.supported)
     (apply_enhancements Fixture.transform Fixture.supported) Fixture.int_of_str).
Local Abbreviation step :=
  (apply_last_action size generate_lasso_mask
     (apply_filters Fixture.transform Fixture.supported)
     (apply_enhancements Fixture.transform Fixture.supported) Fixture.int_of_str).
Local Abbreviation select := (selection_of size generate_lasso_mask Fixture.int_of_str).
Local Abbreviation request :=
  (update_graph_interactive_image size Fixture.b64_to_pil generate_lasso_mask
     (apply_filters Fixture.transform Fixture.supported)
     (apply_enhancements Fixture.transform Fixture.supported) Fixture.int_of_str).

Lemma undo_is_hit_witness :
  let stack := [Fixture.invert_all; Fixture.invert_box_xy] in
  let cold := replay "s1" stack None None (cache_clear Fixture.server) in
  cold = (cold.1, Ok [[190; 189]; [67; 187]])
  ∧ ∃ rv_i,
      buffer_of (image_string_dict Fixture.server) "s1" (take 1 stack) = Ok rv_i
      ∧ replay "s1" (take 1 stack) None None cold.1 = (cold.1, Ok rv_i).
Proof.
  intros stack cold.
  assert (H2 : cold.2 = Ok [[190; 189]; [67; 187]]) by (vm_compute; reflexivity).
  assert (H : cold = (cold.1, Ok [[190; 189]; [67; 187]]))
    by exact (eq_trans (surjective_pairing cold) (f_equal (pair cold.1) H2)).
  split; [exact H|].
  exact (undo_is_hit size Fixture.b64_to_pil generate_lasso_mask
           (apply_filters Fixture.transform Fixture.supported)
           (apply_enhancements Fixture.transform Fixture.supported) Fixture.int_of_str
           "s1" stack None None Fixture.server cold.1 _ 1 H).
Defined.

Lemma append_costs_one_action_witness :
  let st := (replay "s1" [Fixture.invert_all] None None Fixture.server).1 in
  cache st !! ("s1", [Fixture.invert_all], None, None) = Some [[190; 189]; [188; 187]]
  ∧ cache st !! ("s1", [Fixture.invert_all] ++ [Fixture.invert_box_xy], None, None) = None
  ∧ replay "s1" ([Fixture.invert_all] ++ [Fixture.invert_box_xy]) None None st
    = match step Fixture.invert_box_xy [[190; 189]; [188; 187]] with
      | Ok rv =>
          (cache_set ("s1", [Fixture.invert_all] ++ [Fixture.invert_box_xy], None, None)
             rv st, Ok rv)
      | Raise e => (st, Raise e)
      end.
Proof.
  intros st.
  assert (H1 : cache st !! ("s1", [Fixture.invert_all], None, None)
               = Some [[190; 189]; [188; 187]]) by (vm_compute; reflexivity).
  assert (H2 : cache st !! ("s1", [Fixture.invert_all] ++ [Fixture.invert_box_xy],
                            None, None) = None) by (vm_compute; reflexivity).
  split; [exact H1|]. split; [exact H2|].
  exact (append_costs_one_action size Fixture.b64_to_pil generate_lasso_mask
           (apply_filters Fixture.transform Fixture.supported)
           (apply_enhancements Fixture.transform Fixture.supported) Fixture.int_of_str
           "s1" [Fixture.invert_all] Fixture.invert_box_xy None None st _ H1 H2).
Defined.

Lemma failure_propagates_witness :
  let sepia :=
    JObj [("operation", JStr "sepia"); ("type", JStr "filter"); ("selectedData", JNull)] in
  buffer_of (image_string_dict Fixture.server) "s1" [sepia] = Raise UnknownOperation
  ∧ (replay "s1" ([sepia] ++ [Fixture.invert_all]) None None Fixture.server).2
    = Raise UnknownOperation.
Proof.
  intros sepia.
  assert (H : buffer_of (image_string_dict Fixture.server) "s1" [sepia]
              = Raise UnknownOperation) by (vm_compute; reflexivity).
  split; [exact H|].
  exact (proj1 (failure_propagates size Fixture.b64_to_pil generate_lasso_mask
                  (apply_filters Fixture.transform Fixture.supported)
                  (apply_enhancements Fixture.transform Fixture.supported)
                  Fixture.int_of_str "s1" [sepia] [Fixture.invert_all] None None
                  Fixture.server UnknownOperation fixture_server_ok H)).
Defined.

Lemma selection_whole_image_witness :
  py_truthy JNull = false
  ∧ select [[65; 66]; [67; 68]] JNull = Ok ("select", Box 0 0 2 2).
Proof.
  split; [reflexivity|].
  exact (selection_whole_image size generate_lasso_mask Fixture.int_of_str
           [[65; 66]; [67; 68]] JNull (or_introl eq_refl)).
Defined.

Lemma lasso_takes_precedence_witness :
  let members :=
    [("range", JObj [("x", JArr [JInt 0; JInt 1]); ("y", JArr [JInt 0; JInt 1])]);
     ("lassoPoints", JObj [("x", JArr [JInt 0; JInt 2; JInt 0]);
                           ("y", JArr [JInt 0; JInt 0; JInt 2])])] in
  is_Some (dict_get "lassoPoints" members)
  ∧ select [[65; 66]; [67; 68]] (JObj members)
    = match generate_lasso_mask [[65; 66]; [67; 68]] (JObj members) with
      | Ok mask => Ok ("lasso", LassoMask mask)
      | Raise e => Raise e
      end.
Proof.
  intros members.
  assert (H : is_Some (dict_get "lassoPoints" members)) by (simpl; eauto).
  split; [exact H|].
  exact (lasso_takes_precedence size generate_lasso_mask Fixture.int_of_str
           [[65; 66]; [67; 68]] members H).
Defined.

Lemma rectangle_needs_two_bounds_witness :
  let fields := [("x", JArr [JInt 0; JInt 1]); ("y", JArr (map JInt [0; 1; 2]))] in
  let members := [("range", JObj fields)] in
  dict_get "lassoPoints" members = None
  ∧ dict_get "range" members = Some (JObj fields)
  ∧ select [[65; 66]; [67; 68]] (JObj members) = Raise ValueError.
Proof.
  intros fields members.
  split; [reflexivity|]. split; [reflexivity|].
  exact (proj2 (rectangle_needs_two_bounds size generate_lasso_mask Fixture.int_of_str
                  [[65; 66]; [67; 68]] members fields eq_refl eq_refl)
           [0; 1; 2] eq_refl ltac:(discriminate)).
Defined.

Lemma malformed_action_fails_witness :
  dict_get "operation" [("type", JStr "filter"); ("selectedData", JNull)] = None
  ∧ step (JObj [("type", JStr "filter"); ("selectedData", JNull)]) [[65; 66]; [67; 68]]
    = Raise KeyError.
Proof.
  split; [reflexivity|].
  exact (proj1 (malformed_action_fails size generate_lasso_mask
                  (apply_filters Fixture.transform Fixture.supported)
                  (apply_enhancements Fixture.transform Fixture.supported)
                  Fixture.int_of_str [("type", JStr "filter"); ("selectedData", JNull)]
                  [[65; 66]; [67; 68]] (or_introl eq_refl))).
Defined.

Lemma upload_resets_witness :
  let c := "data:image/png;base64,EF/GH" in
  let text := json_dumps (JArr [Fixture.invert_all]) in
  json_loads text = Ok (JArr [Fixture.invert_all])
  ∧ file_changed (Some "b.png") (Some "a.png") = true
  ∧ Fixture.b64_to_pil (List.last (py_split ";base64," c) "") = Ok [[69; 70]; [71; 72]]
  ∧ (request (Some c) JNull JNull (JStr "invert") JNull JNull (Some "b.png")
       (JStr "select") (JStr "png") (Some "a.png", None, text) "s1" Fixture.server).2
    = Ok (Response [[69; 70]; [71; 72]] (JStr "png") (JStr "select")
            (Some "b.png", Some (str_take 200 (List.last (py_split ";base64," c) "")),
             json_dumps (JArr []))).
Proof.
  intros c text.
  assert (H1 : json_loads text = Ok (JArr [Fixture.invert_all]))
    by (vm_compute; reflexivity).
  assert (H2 : file_changed (Some "b.png") (Some "a.png") = true) by reflexivity.
  assert (H3 : Fixture.b64_to_pil (List.last (py_split ";base64," c) "")
               = Ok [[69; 70]; [71; 72]]) by (vm_compute; reflexivity).
  split; [exact H1|]. split; [exact H2|]. split; [exact H3|].
  exact (proj1 (upload_resets size Fixture.b64_to_pil generate_lasso_mask
                  (apply_filters Fixture.transform Fixture.supported)
                  (apply_enhancements Fixture.transform Fixture.supported)
                  Fixture.int_of_str c JNull JNull (JStr "invert") JNull JNull
                  (Some "b.png") (JStr "select") (JStr "png") (Some "a.png") None text
                  "s1" _ Fixture.server _ H1 H2 H3)).
Defined.

Lemma upload_keeps_stale_entries_witness :
  let c := "data:image/png;base64,EF/GH" in
  let text := json_dumps (JArr []) in
  let st : state buffer :=
    State {[ ("s1", [Fixture.invert_all], Some "b.png", Some "EF/GH") := [[1; 2]; [3; 4]] ]}
          {[ "s1" := "AB/CD" ]} in
  json_loads text = Ok (JArr [])
  ∧ file_changed (Some "b.png") (Some "a.png") = true
  ∧ Fixture.b64_to_pil (List.last (py_split ";base64," c) "") = Ok [[69; 70]; [71; 72]]
  ∧ cache st !! ("s1", [Fixture.invert_all], Some "b.png",
                 Some (str_take 200 (List.last (py_split ";base64," c) "")))
    = Some [[1; 2]; [3; 4]]
  ∧ (replay "s1" [Fixture.invert_all] (Some "b.png")
       (Some (str_take 200 (List.last (py_split ";base64," c) "")))
       (request (Some c) JNull JNull JNull JNull JNull (Some "b.png")
          (JStr "select") (JStr "png") (Some "a.png", None, text) "s1" st).1).2
    = Ok [[1; 2]; [3; 4]].
Proof.
  intros c text st.
  assert (H1 : json_loads text = Ok (JArr [])) by (vm_compute; reflexivity).
  assert (H2 : file_changed (Some "b.png") (Some "a.png") = true) by reflexivity.
  assert (H3 : Fixture.b64_to_pil (List.last (py_split ";base64," c) "")
               = Ok [[69; 70]; [71; 72]]) by (vm_compute; reflexivity).
  assert (H4 : cache st !! ("s1", [Fixture.invert_all], Some "b.png",
                            Some (str_take 200 (List.last (py_split ";base64," c) "")))
               = Some [[1; 2]; [3; 4]]) by (vm_compute; reflexivity).
  split; [exact H1|]. split; [exact H2|]. split; [exact H3|]. split; [exact H4|].
  exact (f_equal snd
           (upload_keeps_stale_entries size Fixture.b64_to_pil generate_lasso_mask
              (apply_filters Fixture.transform Fixture.supported)
              (apply_enhancements Fixture.transform Fixture.supported)
              Fixture.int_of_str c JNull JNull JNull JNull JNull
              (Some "b.png") (JStr "select") (JStr "png") (Some "a.png") None text
              "s1" _ [Fixture.invert_all] st _ _ H1 H2 H3 H4)).
Defined.

Lemma failed_request_image_strings_witness :
  let c := "data:image/png;base64,EF/GH" in
  let text := json_dumps (JArr [Fixture.invert_all]) in
  let out :=
    update_graph_interactive_image_children size Fixture.b64_to_pil generate_lasso_mask
      (apply_filters Fixture.transform Fixture.supported)
      (apply_enhancements Fixture.transform Fixture.supported) Fixture.int_of_str
      Fixture.InteractiveImagePIL (Some c) JNull JNull JNull JNull JNull (Some "b.png")
      (JStr "select") (JStr "webp") (Some "a.png", None, text) "s1" Fixture.server in
  (∀ stored, json_loads text = Ok stored →
             file_changed (Some "b.png") (Some "a.png") = true ∨ ∃ l, stored = JArr l)
  ∧ out.2 = Raise KeyError
  ∧ image_string_dict out.1 !! "s1" = Some "EF/GH"
  ∧ image_string_dict Fixture.server !! "s1" = Some "AB/CD"
  ∧ ∀ other, other ≠ "s1" →
             image_string_dict out.1 !! other = image_string_dict Fixture.server !! other.
Proof.
  intros c text out.
  assert (H1 : ∀ stored, json_loads text = Ok stored →
                         file_changed (Some "b.png") (Some "a.png") = true
                         ∨ ∃ l, stored = JArr l) by (intros stored _; now left).
  assert (H2 : out.2 = Raise KeyError) by (vm_compute; reflexivity).
  split; [exact H1|]. split; [exact H2|].
  split; [vm_compute; reflexivity|]. split; [vm_compute; reflexivity|].
  exact (proj1 (failed_request_image_strings size Fixture.b64_to_pil generate_lasso_mask
                  (apply_filters Fixture.transform Fixture.supported)
                  (apply_enhancements Fixture.transform Fixture.supported)
                  Fixture.int_of_str Fixture.InteractiveImagePIL (Some c) JNull JNull
                  JNull JNull JNull (Some "b.png") (JStr "select") (JStr "webp")
                  (Some "a.png") None text "s1" Fixture.server KeyError H1 H2)).
Defined.

(** The fixture's server is the state after the first page load. *)
Lemma fixture_server_reachable :
  reachable size Fixture.b64_to_pil generate_lasso_mask
    (apply_filters Fixture.transform Fixture.supported)
    (apply_enhancements Fixture.transform Fixture.supported) Fixture.int_of_str
    Fixture.server.
Proof.
  change Fixture.server with (serve_layout (Image := buffer) "s1" "AB/CD" (State ∅ ∅)).1.
  apply reachable_layout, reachable_start.
Defined.


Lemma operation_request_witness :
  let text := json_dumps (JArr [Fixture.invert_all]) in
  json_loads text = Ok (JArr [Fixture.invert_all])
  ∧ file_changed None (Some "a.png") = false
  ∧ cache_ok size Fixture.b64_to_pil generate_lasso_mask
      (apply_filters Fixture.transform Fixture.supported)
      (apply_enhancements Fixture.transform Fixture.supported) Fixture.int_of_str
      (request None JNull JNull (JStr "invert") JNull JNull None (JStr "select")
         (JStr "png") (Some "a.png", None, text) "s1" Fixture.server).1.
Proof.
  intros text.
  assert (H1 : json_loads text = Ok (JArr [Fixture.invert_all]))
    by (vm_compute; reflexivity).
  split; [exact H1|]. split; [reflexivity|].
  exact (proj1 (operation_request size Fixture.b64_to_pil generate_lasso_mask
                  (apply_filters Fixture.transform Fixture.supported)
                  (apply_enhancements Fixture.transform Fixture.supported)
                  Fixture.int_of_str None JNull JNull (JStr "invert") JNull JNull None
                  (JStr "select") (JStr "png") (Some "a.png") None text "s1"
                  [Fixture.invert_all] Fixture.server H1 eq_refl fixture_server_ok)).
Defined.

Lemma storage_stays_decodable_witness :
  let text := json_dumps (JArr []) in
  let response :=
    Response [[190; 189]; [188; 187]] (JStr "png") (JStr "select")
      (Some "a.png", None, json_dumps (JArr [Fixture.invert_all])) in
  json_loads text = Ok (JArr [])
  ∧ json_wf (JArr []) = true
  ∧ json_wf (JArr [JNull; JStr "invert"; JNull; JNull]) = true
  ∧ (request None JNull JNull (JStr "invert") JNull JNull None (JStr "select")
       (JStr "png") (Some "a.png", None, text) "s1" Fixture.server).2 = Ok response
  ∧ ∃ stack',
      (storage response).2 = json_dumps (JArr stack')
      ∧ json_loads (storage response).2 = Ok (JArr stack')
      ∧ json_wf (JArr stack') = true.
Proof.
  intros text response.
  assert (H1 : json_loads text = Ok (JArr [])) by (vm_compute; reflexivity).
  assert (H4 : (request None JNull JNull (JStr "invert") JNull JNull None (JStr "select")
                  (JStr "png") (Some "a.png", None, text) "s1" Fixture.server).2
               = Ok response) by (vm_compute; reflexivity).
  split; [exact H1|]. split; [reflexivity|]. split; [reflexivity|]. split; [exact H4|].
  exact (storage_stays_decodable size Fixture.b64_to_pil generate_lasso_mask
           (apply_filters Fixture.transform Fixture.supported)
           (apply_enhancements Fixture.transform Fixture.supported)
           Fixture.int_of_str None JNull JNull (JStr "invert") JNull JNull None
           (JStr "select") (JStr "png") (Some "a.png") None text "s1" []
           Fixture.server response H1 eq_refl eq_refl H4).
Defined.

Lemma split_join_roundtrip_witness :
  ";base64," ≠ ""
  ∧ str_join ";base64," (py_split ";base64," "data:image/png;base64,AB/CD")
    = "data:image/png;base64,AB/CD".
Proof.
  assert (H : ";base64," ≠ "") by discriminate.
  split; [exact H|].
  exact (proj1 (split_join_roundtrip ";base64," "data:image/png;base64,AB/CD" H)).
Defined.

Lemma split_data_url_witness :
  ";base64," ≠ ""
  ∧ starts_nowhere ";base64," "data:image/png" (";base64," ++ "AB/CD") = true
  ∧ str_contains ";base64," "AB/CD" = false
  ∧ py_split ";base64," ("data:image/png" ++ ";base64," ++ "AB/CD")
    = ["data:image/png"; "AB/CD"].
Proof.
  assert (H1 : ";base64," ≠ "") by discriminate.
  assert (H2 : starts_nowhere ";base64," "data:image/png" (";base64," ++ "AB/CD") = true)
    by (vm_compute; reflexivity).
  assert (H3 : str_contains ";base64," "AB/CD" = false) by (vm_compute; reflexivity).
  split; [exact H1|]. split; [exact H2|]. split; [exact H3|].
  exact (proj1 (split_data_url ";base64," "data:image/png" "AB/CD" H1 H2 H3)).
Defined.

Lemma fresh_session_shows_placeholder_witness :
  cache Fixture.server !! ("s2", [], None, None) = None
  ∧ (replay "s2" [] None None (serve_layout "s2" "EF/GH" Fixture.server).1).2
    = Fixture.b64_to_pil "EF/GH".
Proof.
  assert (H : cache Fixture.server !! ("s2", [], None, None) = None)
    by (vm_compute; reflexivity).
  split; [exact H|].
  exact (proj2 (proj2 (proj2 (proj2
           (fresh_session_shows_placeholder size Fixture.b64_to_pil generate_lasso_mask
              (apply_filters Fixture.transform Fixture.supported)
              (apply_enhancements Fixture.transform Fixture.supported)
              Fixture.int_of_str "s2" "EF/GH" None None Fixture.server H))))).
Defined.

Lemma next_worker_hits_witness :
  let first := replay "s1" [Fixture.invert_all] None None Fixture.server in
  first = (first.1, Ok [[190; 189]; [188; 187]])
  ∧ worker_step size Fixture.b64_to_pil generate_lasso_mask
      (apply_filters Fixture.transform Fixture.supported)
      (apply_enhancements Fixture.transform Fixture.supported) Fixture.int_of_str
      "s1" [Fixture.invert_all] None None (Lookup (length [Fixture.invert_all])) first.1
    = Some (Return (length [Fixture.invert_all]) [[190; 189]; [188; 187]], first.1, 0%nat).
Proof.
  intros first.
  assert (H2 : first.2 = Ok [[190; 189]; [188; 187]]) by (vm_compute; reflexivity).
  assert (H : first = (first.1, Ok [[190; 189]; [188; 187]]))
    by exact (eq_trans (surjective_pairing first) (f_equal (pair first.1) H2)).
  split; [exact H|].
  exact (proj2 (next_worker_hits size Fixture.b64_to_pil generate_lasso_mask
                  (apply_filters Fixture.transform Fixture.supported)
                  (apply_enhancements Fixture.transform Fixture.supported)
                  Fixture.int_of_str "s1" [Fixture.invert_all] None None
                  Fixture.server first.1 _ H)).
Defined.

End MoreRequests.
